(** * A shallow embedding of the MP flat converter and its surroundings

    Sources covered:
    - [include/mp/flat/constr_general.h]   (SOS_1or2_Constraint)
    - the converter header, guard CONVERTER_FLAT_H   (FlatConverter)
    - [include/mp/solver.h]                (SolverApp::Run, the solver's
      options, SolverNLHandler, SolutionWriter)

    C++ [double] values are modelled by the IEEE-754 specification floats of
    the standard library ([spec_float]): comparisons are the IEEE ones, so
    NaN is unordered and unequal to itself and the two zeros are equal.
    C++ exceptions are modelled by an explicit result type; mutable object
    state is threaded explicitly and survives a throw. *)

From Stdlib Require Import ZArith Ascii String List Bool Lia Sorting Permutation.
From Stdlib Require Import Floats.SpecFloat.
From Stdlib Require Import DecimalString DecimalZ DecimalPos.
Import ListNotations.
Local Open Scope string_scope.
Local Open Scope list_scope.
Local Open Scope Z_scope.

Set Implicit Arguments.
Set Warnings "-notation-for-abbreviation".

(* ------------------------------------------------------------------ *)
(** ** IEEE doubles and their comparisons *)

Definition double := spec_float.

(** [a < b], [a == b], [a != b], [a > b] on C++ doubles. *)
Definition dlt (a b : double) : bool := SFltb a b.
Definition deq (a b : double) : bool := SFeqb a b.
Definition dne (a b : double) : bool := negb (SFeqb a b).
Definition dgt (a b : double) : bool := SFltb b a.
Definition dle (a b : double) : bool := SFleb a b.

Definition is_nan (a : double) : bool :=
  match a with S754_nan => true | _ => false end.

(** [std::max(a, b)] is [(a < b) ? b : a]; [std::min(a, b)] is
    [(b < a) ? b : a]. *)
Definition std_max (a b : double) : double := if dlt a b then b else a.
Definition std_min (a b : double) : double := if dlt b a then b else a.

(** Some literals. *)
Definition d_zero : double := S754_zero false.
Definition d_neg_zero : double := S754_zero true.
Definition d_inf : double := S754_infinity false.
Definition d_minus_inf : double := S754_infinity true.
(** [d_of_Z z] is the binary64 value of the integer [z]. *)
Definition d_of_Z (z : Z) : double := binary_normalize 53 1024 z 0 false.
Definition d_one : double := Eval cbv in d_of_Z 1.
(** [1e100], the default bound of [SOSExtraInfo::Bounds]. *)
Definition d_1e100 : double := S754_finite false 5147557589468029 280.
Definition d_minus_1e100 : double := S754_finite true 5147557589468029 280.

(** A rank that embeds the non-NaN doubles into lexicographically ordered
    triples; it is only used in proofs. *)
Definition rank (a : double) : Z * Z * Z :=
  match a with
  | S754_zero _ => (0, 0, 0)
  | S754_infinity s => (if s then -2 else 2, 0, 0)
  | S754_nan => (0, 0, 0)
  | S754_finite s m e =>
      if s then (-1, - e, - Z.pos m) else (1, e, Z.pos m)
  end.

Definition lex_lt (a b : Z * Z * Z) : Prop :=
  let '(a1, a2, a3) := a in
  let '(b1, b2, b3) := b in
  a1 < b1 \/ (a1 = b1 /\ (a2 < b2 \/ (a2 = b2 /\ a3 < b3))).

(** C++ exceptions raised by the modelled code.  The macros [MP_RAISE],
    [MP_INFEAS] and [MP_ASSERT_ALWAYS] come from a header that is absent:
    the first raises an error with its message, the second an infeasibility
    with its message, the third raises its message as an error when its
    condition fails. *)
Inductive Exn : Type :=
| Error (msg : string)                         (* MP_RAISE(msg) *)
| ConstraintConversionFailure (key msg : string)
| Infeasibility (msg : string)                 (* MP_INFEAS(msg) *)
| OutOfRange                                   (* std::out_of_range of at() *)
| AssertionFailure                             (* a failed assert() *)
| BadIndex                                     (* unchecked index out of range *)
| FuelExhausted.                               (* model artefact: loop bound *)

Inductive Res (A : Type) : Type :=
| Ok (a : A)
| Throw (e : Exn).
Arguments Ok {A} a.
Arguments Throw {A} e.

(** [contains s sub]: [sub] occurs in [s]. *)
Definition contains (s sub : string) : Prop :=
  exists pre post, s = (pre ++ sub ++ post)%string.

(* ------------------------------------------------------------------ *)
(** ** SOS1 / SOS2 constraints ([SOS_1or2_Constraint<type>]) *)

Module SOS.

Record Bounds := { lb_ : double; ub_ : double }.
Record SOSExtraInfo := { bounds_ : Bounds }.

(** The default arguments [Bounds(lb = -1e100, ub = 1e100)] and
    [SOSExtraInfo(b = {})]. *)
Definition default_Bounds : Bounds :=
  {| lb_ := d_minus_1e100; ub_ := d_1e100 |}.
Definition default_SOSExtraInfo : SOSExtraInfo :=
  {| bounds_ := default_Bounds |}.

Record SOS_1or2_Constraint := {
  sos_type : Z;                 (* the template parameter [type] *)
  v_ : list Z;
  w_ : list double;
  extra_info_ : SOSExtraInfo
}.

Definition name1_ := "SOS1Constraint".
Definition name2_ := "SOS2Constraint".

Definition GetTypeName (type : Z) : string :=
  if Z.eqb 1 type then name1_ else name2_.

Definition get_sos_type (c : SOS_1or2_Constraint) := sos_type c.
Definition size (c : SOS_1or2_Constraint) : Z := Z.of_nat (length (v_ c)).
Definition get_vars (c : SOS_1or2_Constraint) := v_ c.
Definition get_weights (c : SOS_1or2_Constraint) := w_ c.
Definition get_extra_info (c : SOS_1or2_Constraint) := extra_info_ c.
Definition get_sum_of_vars_range (c : SOS_1or2_Constraint) :=
  bounds_ (extra_info_ c).

Definition check (c : SOS_1or2_Constraint) : bool :=
  (1 <=? sos_type c) && (sos_type c <=? 2)
  && Nat.eqb (length (v_ c)) (length (w_ c)).

(** [std::map<double,int>]: entries kept in ascending key order under
    [operator<].  [map_insert] is [insert({k, v})]: [None] stands for
    [.second == false], an equivalent key (neither less than the other)
    being present already. *)
Fixpoint map_insert (k : double) (v : Z) (m : list (double * Z))
  : option (list (double * Z)) :=
  match m with
  | [] => Some [(k, v)]
  | (k', v') :: m' =>
      if dlt k k' then Some ((k, v) :: m)
      else if dlt k' k then
             match map_insert k v m' with
             | Some r => Some ((k', v') :: r)
             | None => None
             end
           else None
  end.

Definition msg_not_unique := "SOS2: weights not unique".

(** The first loop of [sort()]: [for (auto i = v_.size(); i--; )], with the
    bounds-checked [w_.at(i)], [v_.at(i)]. *)
Fixpoint sort_loop (i : nat) (v : list Z) (w : list double)
         (sorted : list (double * Z)) : Res (list (double * Z)) :=
  match i with
  | O => Ok sorted
  | S i' =>
      match nth_error w i' with
      | None => Throw OutOfRange
      | Some wi =>
          match nth_error v i' with
          | None => Throw OutOfRange
          | Some vi =>
              match map_insert wi vi sorted with
              | Some sorted' => sort_loop i' v w sorted'
              | None => Throw (Error msg_not_unique)
              end
          end
      end
  end.

(** [sort()]: fill the map, clear both vectors, push back in key order. *)
Definition sort (c : SOS_1or2_Constraint) : Res SOS_1or2_Constraint :=
  match sort_loop (length (v_ c)) (v_ c) (w_ c) [] with
  | Throw e => Throw e
  | Ok sorted =>
      Ok {| sos_type := sos_type c;
            v_ := map snd sorted;
            w_ := map fst sorted;
            extra_info_ := extra_info_ c |}
  end.

(** The constructor: member initialisation, [sort()], [assert(check())]. *)
Definition make (type : Z) (v : list Z) (w : list double)
           (ei : SOSExtraInfo) : Res SOS_1or2_Constraint :=
  match sort {| sos_type := type; v_ := v; w_ := w; extra_info_ := ei |} with
  | Throw e => Throw e
  | Ok c => if check c then Ok c else Throw AssertionFailure
  end.

Definition SOS1Constraint := make 1.
Definition SOS2Constraint := make 2.



(** The order of the map's keys. *)
Definition klt (a b : double) : Prop := dlt a b = true.

End SOS.

(* ------------------------------------------------------------------ *)
(** ** The solver application ([SolverApp<Solver, Reader>::Run]) *)

Module SolverApp.

(** What a solution handler receives from [Solver::Solve]: the solve code
    and the message ([HandleSolution(status, message, ...)]). *)
Record SolutionReport := { sol_status : Z; sol_message : string }.

(** The two handlers [Run] chooses between. *)
Inductive SolutionHandlerKind : Type :=
| AppSolutionWriter (stub : string) (banner_size : nat)
| NullSolutionHandler.

(** Observable actions of a run, in order. *)
Inductive Event : Type :=
| Stdout (text : string)
| ReadFile (nl_filename : string)
| EndBuild
| Solved (h : SolutionHandlerKind) (reports : list SolutionReport).

(** The template parameters [Solver] and [Reader] and the option parser, as
    far as [Run] uses them.  Each call either returns or throws. *)
Record Collaborators := {
  (* option_parser_.Parse(argv): the stub, or a null pointer *)
  Parse : list string -> Res (option string);
  echo_solver_options : bool;
  long_name : string;
  NO_OPTION_ECHO : Z;
  (* solver_.ParseOptions(argv, flags): false when an option is in error *)
  ParseOptions : list string -> Z -> Res bool;
  (* solver_.GetProblemBuilder(filename_no_ext) *)
  GetProblemBuilder : string -> Res unit;
  (* Reader::Read(nl_filename, handler) *)
  Read : string -> Res unit;
  (* builder.EndBuild() *)
  DoEndBuild : Res unit;
  timing : bool;
  input_time_text : string;
  wantsol : Z;
  (* whether ParseOptions, GetProblemBuilder, Read or EndBuild printed
     through the output handler, which sets output_handler_.has_output *)
  has_output : bool;
  (* solver_.Solve(builder, sol_handler): the solutions it reports *)
  Solve : SolutionHandlerKind -> Res (list SolutionReport)
}.

(** [std::strrchr(s, c)]: the suffix of [s] from the last [c] on. *)
Fixpoint strrchr (s : string) (c : Ascii.ascii) : option string :=
  match s with
  | EmptyString => None
  | String a s' =>
      match strrchr s' c with
      | Some r => Some r
      | None => if Ascii.eqb a c then Some s else None
      end
  end.

(** Add .nl extension if necessary: the pair
    [(nl_filename, filename_no_ext)]. *)
Definition nl_names (filename : string) : string * string :=
  match strrchr filename "."%char with
  | Some ext =>
      if String.eqb ext ".nl"
      then (filename,
            substring 0 (String.length filename - 3)%nat filename)
      else ((filename ++ ".nl")%string, filename)
  | None => ((filename ++ ".nl")%string, filename)
  end.

(** [Run(argv)]: the exit code (or the exception that escapes) and the
    trace of actions. *)
Definition Run (env : Collaborators) (argv : list string)
  : Res Z * list Event :=
  match Parse env argv with
  | Throw e => (Throw e, [])
  | Ok None => (Ok 0, [])
  | Ok (Some filename) =>
      let banner := (long_name env ++ ": ")%string in
      let tr1 := [Stdout banner] in
      let '(nl_filename, filename_no_ext) := nl_names filename in
      let flags :=
        if echo_solver_options env then 0 else NO_OPTION_ECHO env in
      match ParseOptions env argv flags with
      | Throw e => (Throw e, tr1)
      | Ok false => (Ok 1, tr1)
      | Ok true =>
          match GetProblemBuilder env filename_no_ext with
          | Throw e => (Throw e, tr1)
          | Ok _ =>
              let tr2 := tr1 ++ [ReadFile nl_filename] in
              match Read env nl_filename with
              | Throw e => (Throw e, tr2)
              | Ok _ =>
                  let tr3 := tr2 ++ [EndBuild] in
                  match DoEndBuild env with
                  | Throw e => (Throw e, tr3)
                  | Ok _ =>
                      let tr4 :=
                        if timing env
                        then tr3 ++ [Stdout (input_time_text env)]
                        else tr3 in
                      (* solver_.Print of the input time goes through the
                         output handler too *)
                      let output_handler_has_output :=
                        has_output env || timing env in
                      let sol_handler :=
                        if negb (Z.eqb (wantsol env) 0)
                        then AppSolutionWriter filename_no_ext
                               (if output_handler_has_output then 0%nat
                                else String.length banner)
                        else NullSolutionHandler in
                      match Solve env sol_handler with
                      | Throw e => (Throw e, tr4)
                      | Ok reports =>
                          (Ok 0, tr4 ++ [Solved sol_handler reports])
                      end
                  end
              end
          end
      end
  end.

(** The run got as far as calling [solver_.Solve] and [Solve] returned. *)
Definition reaches_solve (env : Collaborators) (argv : list string)
  : Prop :=
  exists h reports, In (Solved h reports) (snd (Run env argv)).

End SolverApp.

(* ------------------------------------------------------------------ *)
(** ** The flat converter ([FlatConverter<Impl, ModelAPI, FlatModel>]) *)

(** Modelled from the spec: [Context] (its header is absent), with the
    four values None, Positive, Negative and Mixed; [CTX_MIX] is the name
    [RunConversion] uses. *)
Inductive Context : Type := CTX_NONE | CTX_POS | CTX_NEG | CTX_MIX.

Definition IsNone (c : Context) : bool :=
  match c with CTX_NONE => true | _ => false end.

(** Modelled from the spec: the acceptance level of a constraint type,
    per ModelAPI (its header is absent; the ModelAPIs name [Recommended]
    and [AcceptedButNotRecommended] in their declarations). *)
Inductive AcceptanceLevel : Type :=
| NotAccepted | AcceptedButNotRecommended | Recommended.

(** Modelled from the spec: [var::Type] (absent), continuous or integer. *)
Inductive VarType : Type := CONTINUOUS | INTEGER.

(** The constraint types the converter stores, in the order of the
    [STORE_CONSTRAINT_TYPE__...] declarations. *)
Inductive ConType : Type :=
| LinConRange | LinConLE | LinConEQ | LinConGE
| QuadConRange | QuadConLE | QuadConEQ | QuadConGE
| LinearFunctionalConstraint | QuadraticFunctionalConstraint
| MaxConstraint | MinConstraint | AbsConstraint
| AndConstraint | OrConstraint
| CondLinConEQ | CondLinConLE | CondLinConLT | CondLinConGE | CondLinConGT
| CondQuadConEQ | CondQuadConLE | CondQuadConLT | CondQuadConGE
| CondQuadConGT
| NotConstraint | DivConstraint | IfThenConstraint | AllDiffConstraint
| NumberofConstConstraint | NumberofVarConstraint | CountConstraint
| ExpConstraint | ExpAConstraint | LogConstraint | LogAConstraint
| PowConstraint | SinConstraint | CosConstraint | TanConstraint
| IndicatorConstraintLinLE | IndicatorConstraintLinEQ
| IndicatorConstraintLinGE
| IndicatorConstraintQuadLE | IndicatorConstraintQuadEQ
| IndicatorConstraintQuadGE
| PLConstraint | SOS1Constraint | SOS2Constraint
| ComplementarityLinear | ComplementarityQuadratic.

Definition ConType_eq_dec (a b : ConType) : {a = b} + {a <> b}.
Proof. decide equality. Defined.

Definition all_con_types : list ConType :=
  [ LinConRange; LinConLE; LinConEQ; LinConGE;
    QuadConRange; QuadConLE; QuadConEQ; QuadConGE;
    LinearFunctionalConstraint; QuadraticFunctionalConstraint;
    MaxConstraint; MinConstraint; AbsConstraint;
    AndConstraint; OrConstraint;
    CondLinConEQ; CondLinConLE; CondLinConLT; CondLinConGE; CondLinConGT;
    CondQuadConEQ; CondQuadConLE; CondQuadConLT; CondQuadConGE;
    CondQuadConGT;
    NotConstraint; DivConstraint; IfThenConstraint; AllDiffConstraint;
    NumberofConstConstraint; NumberofVarConstraint; CountConstraint;
    ExpConstraint; ExpAConstraint; LogConstraint; LogAConstraint;
    PowConstraint; SinConstraint; CosConstraint; TanConstraint;
    IndicatorConstraintLinLE; IndicatorConstraintLinEQ;
    IndicatorConstraintLinGE;
    IndicatorConstraintQuadLE; IndicatorConstraintQuadEQ;
    IndicatorConstraintQuadGE;
    PLConstraint; SOS1Constraint; SOS2Constraint;
    ComplementarityLinear; ComplementarityQuadratic ].

(** [STORE_CONSTRAINT_TYPE__WITH_MAP] against [..__NO_MAP]. *)
Definition is_mapped (t : ConType) : bool :=
  match t with
  | LinConRange | LinConLE | LinConEQ | LinConGE
  | QuadConRange | QuadConLE | QuadConEQ | QuadConGE => false
  | IndicatorConstraintLinLE | IndicatorConstraintLinEQ
  | IndicatorConstraintLinGE
  | IndicatorConstraintQuadLE | IndicatorConstraintQuadEQ
  | IndicatorConstraintQuadGE
  | PLConstraint | SOS1Constraint | SOS2Constraint
  | ComplementarityLinear | ComplementarityQuadratic => false
  | _ => true
  end.

(** Modelled from the spec: value nodes and ranges in them
    ([pre::NodeRange], absent).  A range is [(node, first, size)], kept
    here as the half-open index interval [nr_beg .. nr_end) of one node;
    the value nodes are those of the variables, of the objectives and of
    each constraint type. *)
Inductive NodeId : Type :=
| VarValues | ObjValues | ConValues (t : ConType).

Definition NodeId_eq_dec (a b : NodeId) : {a = b} + {a <> b}.
Proof. decide equality. apply ConType_eq_dec. Defined.

Record NodeRange := { nr_node : NodeId; nr_beg : Z; nr_end : Z }.

(** Modelled from the spec: [ValueNode::Select(i)] (absent), the
    single-index range; a range converts to [int] as its first index. *)
Definition Select (n : NodeId) (i : Z) : NodeRange :=
  {| nr_node := n; nr_beg := i; nr_end := i + 1 |}.
Definition nr_index (nr : NodeRange) : Z := nr_beg nr.

(** Modelled from the spec: [NodeRange::TryExtendBy] (absent), a range
    grows by a range of the same node that starts where it ends. *)
Definition TryExtendBy (r nr : NodeRange) : option NodeRange :=
  if NodeId_eq_dec (nr_node r) (nr_node nr) then
    if Z.eqb (nr_end r) (nr_beg nr)
    then Some {| nr_node := nr_node r; nr_beg := nr_beg r;
                 nr_end := nr_end nr |}
    else None
  else None.

(** Modelled from the spec: [AbstractConstraintLocation] (absent), "a
    reference (keeper, index)". *)
Record ConInfo := { ci_keeper : ConType; ci_index : Z }.

(** Modelled from the spec: the links of the value presolver (absent),
    Copy or One2Many, from a source range to target ranges. *)
Inductive LinkKind : Type := CopyLink | One2ManyLink.
Record Link := {
  lk_kind : LinkKind; lk_src : NodeRange; lk_targets : list NodeRange }.

(** Modelled from the spec: the variables of [FlatModel] (its header is
    absent): lower bound, upper bound, type. *)
Record VarAttr := { v_lb : double; v_ub : double; v_type : VarType }.

Section ConverterState.

(** The data of a constraint apart from result variable and context: what
    the (absent) constraint headers define and compare. *)
Variable Body : Type.

(** Modelled from the spec: what every constraint type exposes (the base
    class is absent): its data, "an optional result-variable" and an
    "optional context". *)
Record Constraint := {
  body : Body;
  result_var : Z;               (* GetResultVar(), negative if none *)
  context : Context             (* GetContext() *)
}.

Definition SetContext (c : Constraint) (ctx : Context) : Constraint :=
  {| body := body c; result_var := result_var c; context := ctx |}.

Definition SetResultVar (c : Constraint) (r : Z) : Constraint :=
  {| body := body c; result_var := r; context := context c |}.

(** Modelled from the spec: an item of a [ConstraintKeeper] (its header
    is absent): the constraint, and the flag by which the keeper's loop
    here tells the items it has dealt with.  The spec names the loop,
    over [i = 0 .. size-1], and no such flag. *)
Record Stored := { con_ : Constraint; is_converted : bool }.

(** Modelled from the spec: the calls the ModelAPI receives when the model
    is pushed (the ModelAPI base is absent). *)
Inductive ApiCall : Type :=
| InitProblemModificationPhase
| AddVariables (vs : list VarAttr)
| ApiAddConstraint (t : ConType) (c : Constraint)
| FinishProblemModificationPhase.

(** The converter object: the [FlatModel] base (variables, keepers with
    their maps) and the converter's own members. *)
Record FlatConverter := {
  vars : list VarAttr;
  keepers : ConType -> list Stored;
  con_maps : ConType -> list (Body * Z);
  map_fixed_vars_ : list (double * Z);
  var_info_ : list (option ConInfo);
  auto_link_src_item_ : option NodeRange;
  auto_link_targ_items_ : list NodeRange;
  links : list Link;
  relax_ : Z;
  modelapi_ : list ApiCall
}.

Definition M (A : Type) : Type := FlatConverter -> Res A * FlatConverter.

Definition ret {A} (a : A) : M A := fun s => (Ok a, s).
Definition raise {A} (e : Exn) : M A := fun s => (Throw e, s).
Definition bind {A B} (m : M A) (f : A -> M B) : M B :=
  fun s => match m s with
           | (Ok a, s') => f a s'
           | (Throw e, s') => (Throw e, s')
           end.
Definition get : M FlatConverter := fun s => (Ok s, s).
Definition modify (f : FlatConverter -> FlatConverter) : M unit :=
  fun s => (Ok tt, f s).
(** A scope guard: [cleanup] runs when [m] returns and when it throws. *)
Definition scoped {A} (m : M A) (cleanup : FlatConverter -> FlatConverter)
  : M A :=
  fun s => let '(r, s') := m s in (r, cleanup s').
(** [try { m } catch (...) { h }]. *)
Definition try_catch {A} (m : M A) (h : Exn -> option (M A)) : M A :=
  fun s => match m s with
           | (Ok a, s') => (Ok a, s')
           | (Throw e, s') =>
               match h e with
               | Some k => k s'
               | None => (Throw e, s')
               end
           end.

End ConverterState.

Arguments ret {Body A} a.
Arguments raise {Body A} e.
Arguments get {Body}.
Arguments InitProblemModificationPhase {Body}.
Arguments FinishProblemModificationPhase {Body}.
Arguments AddVariables {Body} vs.

Declare Scope cvt_scope.
Delimit Scope cvt_scope with cvt.
Notation "x <- m ;; k" := (bind m (fun x => k))
  (at level 61, m at next level, right associativity) : cvt_scope.
Notation "m ;; k" := (bind m (fun _ => k))
  (at level 61, right associativity) : cvt_scope.
Local Open Scope cvt_scope.

(** Indexing a vector by an [int]. *)
Definition zth {A} (l : list A) (i : Z) : option A :=
  if i <? 0 then None else nth_error l (Z.to_nat i).

Fixpoint list_upd {A} (l : list A) (n : nat) (f : A -> A) : list A :=
  match l, n with
  | [], _ => []
  | x :: l', O => f x :: l'
  | x :: l', S n' => x :: list_upd l' n' f
  end.

Definition zupd {A} (l : list A) (i : Z) (f : A -> A) : list A :=
  if i <? 0 then l else list_upd l (Z.to_nat i) f.

Definition fupd {X} (f : ConType -> X) (t : ConType) (x : X)
  : ConType -> X :=
  fun t' => if ConType_eq_dec t t' then x else f t'.

(** [AutoLink]'s update of the target list: extend the last range, else
    push back. *)
Fixpoint autolink_push (targs : list NodeRange) (nr : NodeRange)
  : list NodeRange :=
  match targs with
  | [] => [nr]
  | [r] => match TryExtendBy r nr with
           | Some r' => [r']
           | None => [r; nr]
           end
  | r :: rest => r :: autolink_push rest nr
  end.

Section Converter.

Variable Body : Type.

Notation Constraint := (Constraint Body).
Notation Stored := (Stored Body).
Notation FlatConverter := (FlatConverter Body).
Notation M := (M Body).

(** *** Field updates *)

Definition set_vars (s : FlatConverter) (x : list VarAttr) :=
  {| vars := x; keepers := keepers s; con_maps := con_maps s;
     map_fixed_vars_ := map_fixed_vars_ s; var_info_ := var_info_ s;
     auto_link_src_item_ := auto_link_src_item_ s;
     auto_link_targ_items_ := auto_link_targ_items_ s;
     links := links s; relax_ := relax_ s; modelapi_ := modelapi_ s |}.

Definition set_keepers (s : FlatConverter) (x : ConType -> list Stored) :=
  {| vars := vars s; keepers := x; con_maps := con_maps s;
     map_fixed_vars_ := map_fixed_vars_ s; var_info_ := var_info_ s;
     auto_link_src_item_ := auto_link_src_item_ s;
     auto_link_targ_items_ := auto_link_targ_items_ s;
     links := links s; relax_ := relax_ s; modelapi_ := modelapi_ s |}.

Definition set_con_maps (s : FlatConverter)
           (x : ConType -> list (Body * Z)) :=
  {| vars := vars s; keepers := keepers s; con_maps := x;
     map_fixed_vars_ := map_fixed_vars_ s; var_info_ := var_info_ s;
     auto_link_src_item_ := auto_link_src_item_ s;
     auto_link_targ_items_ := auto_link_targ_items_ s;
     links := links s; relax_ := relax_ s; modelapi_ := modelapi_ s |}.

Definition set_map_fixed_vars (s : FlatConverter) (x : list (double * Z)) :=
  {| vars := vars s; keepers := keepers s; con_maps := con_maps s;
     map_fixed_vars_ := x; var_info_ := var_info_ s;
     auto_link_src_item_ := auto_link_src_item_ s;
     auto_link_targ_items_ := auto_link_targ_items_ s;
     links := links s; relax_ := relax_ s; modelapi_ := modelapi_ s |}.

Definition set_var_info (s : FlatConverter) (x : list (option ConInfo)) :=
  {| vars := vars s; keepers := keepers s; con_maps := con_maps s;
     map_fixed_vars_ := map_fixed_vars_ s; var_info_ := x;
     auto_link_src_item_ := auto_link_src_item_ s;
     auto_link_targ_items_ := auto_link_targ_items_ s;
     links := links s; relax_ := relax_ s; modelapi_ := modelapi_ s |}.

Definition set_auto_link (s : FlatConverter) (src : option NodeRange)
           (targs : list NodeRange) :=
  {| vars := vars s; keepers := keepers s; con_maps := con_maps s;
     map_fixed_vars_ := map_fixed_vars_ s; var_info_ := var_info_ s;
     auto_link_src_item_ := src;
     auto_link_targ_items_ := targs;
     links := links s; relax_ := relax_ s; modelapi_ := modelapi_ s |}.

Definition set_links (s : FlatConverter) (x : list Link) :=
  {| vars := vars s; keepers := keepers s; con_maps := con_maps s;
     map_fixed_vars_ := map_fixed_vars_ s; var_info_ := var_info_ s;
     auto_link_src_item_ := auto_link_src_item_ s;
     auto_link_targ_items_ := auto_link_targ_items_ s;
     links := x; relax_ := relax_ s; modelapi_ := modelapi_ s |}.

Definition set_modelapi (s : FlatConverter) (x : list (ApiCall Body)) :=
  {| vars := vars s; keepers := keepers s; con_maps := con_maps s;
     map_fixed_vars_ := map_fixed_vars_ s; var_info_ := var_info_ s;
     auto_link_src_item_ := auto_link_src_item_ s;
     auto_link_targ_items_ := auto_link_targ_items_ s;
     links := links s; relax_ := relax_ s; modelapi_ := x |}.

(** A converter with no variables and no constraints. *)
Definition empty_converter (relax : Z) : FlatConverter :=
  {| vars := []; keepers := fun _ => []; con_maps := fun _ => [];
     map_fixed_vars_ := []; var_info_ := [];
     auto_link_src_item_ := None; auto_link_targ_items_ := [];
     links := []; relax_ := relax; modelapi_ := [] |}.

(** *** Conversion rules *)

(** Modelled from the spec: the rules of the redefinition library, which
    is absent.  A rule is "a function of shape Convert(c)" that "emits
    equivalent constraints via AddConstraint/AssignResult2Args"; it is kept
    as the tree of the converter calls it makes, each continuation
    receiving the call's result. *)
Inductive Rule : Type :=
| RDone
| RAddConstraint (t : ConType) (c : Constraint) (k : NodeRange -> Rule)
| RAddVar (lb ub : double) (ty : VarType) (k : NodeRange -> Rule)
| RAssignResultVar2Args (t : ConType) (fc : Constraint) (k : Z -> Rule)
| RNarrowVarBounds (v : Z) (lb ub : double) (k : Rule)
| RGetBounds (v : Z) (k : double -> double -> Rule)
| RThrow (e : Exn).

(** The template parameters of the converter and what the absent headers
    supply. *)
Record Config := {
  (* constraints *)
  body_eqb : Body -> Body -> bool;          (* structural operator== *)
  GetTypeName : ConType -> string;          (* Constraint::GetTypeName() *)
  UsesContext : ConType -> bool;            (* con.UsesContext() *)
  GetDescription : ConType -> string;       (* ck.GetDescription() *)
  (* ModelAPI *)
  ModelAPI_GetTypeName : string;
  Accepts : ConType -> AcceptanceLevel;
  (* Impl: the Convert overloads and IfNeedsCvt_impl specialisations *)
  Convert_rule : ConType -> option (Constraint -> Z -> Rule);
  IfNeedsCvt_impl : ConType -> Constraint -> Z -> bool;
  (* functional constraints: constant folding and the bound mixin *)
  TryFold : ConType -> Body -> option double;
  ComputeBoundsAndType :
    ConType -> Body -> list VarAttr -> double * double * VarType
}.

Variable cfg : Config.

(** *** FlatModel and keepers *)

(** Modelled from the spec: [FlatModel::AddVar__basic] (absent): the
    variable is born with the next index. *)
Definition AddVar__basic (lb ub : double) (ty : VarType) : M Z :=
  fun s =>
    (Ok (Z.of_nat (length (vars s))),
     set_vars s (vars s ++ [{| v_lb := lb; v_ub := ub; v_type := ty |}])).

(** Modelled from the spec: [FlatModel::lb] and the other accessors of
    the variables (absent).  The C++ vectors are indexed unchecked; an
    index out of range is reported here as [BadIndex]. *)
Definition model_lb (var : Z) : M double :=
  fun s => match zth (vars s) var with
           | Some a => (Ok (v_lb a), s)
           | None => (Throw BadIndex, s)
           end.
(** Modelled from the spec: [FlatModel::ub] (absent). *)
Definition model_ub (var : Z) : M double :=
  fun s => match zth (vars s) var with
           | Some a => (Ok (v_ub a), s)
           | None => (Throw BadIndex, s)
           end.
(** Modelled from the spec: [FlatModel::set_lb] (absent). *)
Definition model_set_lb (var : Z) (x : double) : M unit :=
  fun s => match zth (vars s) var with
           | Some _ =>
               (Ok tt,
                set_vars s (zupd (vars s) var (fun a =>
                  {| v_lb := x; v_ub := v_ub a; v_type := v_type a |})))
           | None => (Throw BadIndex, s)
           end.
(** Modelled from the spec: [FlatModel::set_ub] (absent). *)
Definition model_set_ub (var : Z) (x : double) : M unit :=
  fun s => match zth (vars s) var with
           | Some _ =>
               (Ok tt,
                set_vars s (zupd (vars s) var (fun a =>
                  {| v_lb := v_lb a; v_ub := x; v_type := v_type a |})))
           | None => (Throw BadIndex, s)
           end.

(** Modelled from the spec: [RelaxIntegrality] (absent) "drops
    integrality on all variables". *)
Definition RelaxIntegrality : M unit :=
  modify (fun s => set_vars s (map (fun a =>
    {| v_lb := v_lb a; v_ub := v_ub a; v_type := CONTINUOUS |}) (vars s))).

(** Modelled from the spec: [ConstraintKeeper::AddConstraint] (absent):
    "appends ... returns new index". *)
Definition ck_AddConstraint (t : ConType) (con : Constraint) : M Z :=
  fun s =>
    (Ok (Z.of_nat (length (keepers s t))),
     set_keepers s (fupd (keepers s) t
       (keepers s t ++ [{| con_ := con; is_converted := false |}]))).

(** Modelled from the spec: the keeper's [SelectValueNodeRange(i)]
    (absent), the range of item [i] in the keeper's value node. *)
Definition SelectValueNodeRange (t : ConType) (i : Z) : NodeRange :=
  Select (ConValues t) i.

(** [GetConstraint<Constraint>(i)]. *)
Definition GetConstraint (t : ConType) (i : Z) : M Constraint :=
  fun s => match zth (keepers s t) i with
           | Some st => (Ok (con_ st), s)
           | None => (Throw BadIndex, s)
           end.

(** *** Shortcuts [lb(var)], [ub(var)], [set_var_lb], [set_var_ub] *)
Definition lb := model_lb.
Definition ub := model_ub.
Definition set_var_lb := model_set_lb.
Definition set_var_ub := model_set_ub.

(** *** Auto linking *)

Definition DoingAutoLinking (s : FlatConverter) : bool :=
  match auto_link_src_item_ s with Some _ => true | None => false end.

Definition AutoLink (nr : NodeRange) : M NodeRange :=
  fun s =>
    if DoingAutoLinking s
    then (Ok nr,
          set_auto_link s (auto_link_src_item_ s)
            (autolink_push (auto_link_targ_items_ s) nr))
    else (Ok nr, s).

Definition TurnOffAutoLinking (s : FlatConverter) : FlatConverter :=
  set_auto_link s None [].

Definition SetAutoLinkSource (nr : NodeRange) : M unit :=
  modify (fun s => set_auto_link s (Some nr) (auto_link_targ_items_ s)).

(** Modelled from the spec: the end of an [AutoLinkScope] (absent): "a
    link is created (Copy if one-to-one, One2Many otherwise) from source
    to targets", then auto-linking is turned off. *)
Definition close_auto_link_scope (s : FlatConverter) : FlatConverter :=
  let s1 :=
    match auto_link_src_item_ s, auto_link_targ_items_ s with
    | Some src, [] => s
    | Some src, [t] =>
        set_links s (links s ++
          [{| lk_kind := if Z.eqb (nr_end t - nr_beg t) 1
                         then CopyLink else One2ManyLink;
              lk_src := src; lk_targets := [t] |}])
    | Some src, ts =>
        set_links s (links s ++
          [{| lk_kind := One2ManyLink; lk_src := src;
              lk_targets := ts |}])
    | None, _ => s
    end in
  TurnOffAutoLinking s1.

(** *** Variables *)

Definition GetVarValueNode : NodeId := VarValues.

(** [DoAddVar(lb, ub, type)]. *)
Definition DoAddVar (lb ub : double) (ty : VarType) : M NodeRange :=
  v <- AddVar__basic lb ub ty ;;
  AutoLink (Select GetVarValueNode v).

(** [map_fixed_vars_.find(value)]: the entry whose key compares equal. *)
Definition fixed_find (value : double) (m : list (double * Z))
  : option Z :=
  match find (fun kv => deq (fst kv) value) m with
  | Some kv => Some (snd kv)
  | None => None
  end.

(** [map_fixed_vars_[value] = v]. *)
Fixpoint fixed_assign (value : double) (v : Z) (m : list (double * Z))
  : list (double * Z) :=
  match m with
  | [] => [(value, v)]
  | (k, x) :: m' =>
      if deq k value then (k, v) :: m'
      else (k, x) :: fixed_assign value v m'
  end.

(** [MakeFixedVar(value)]. *)
Definition MakeFixedVar (value : double) : M NodeRange :=
  s <- get ;;
  match fixed_find value (map_fixed_vars_ s) with
  | Some v => AutoLink (Select GetVarValueNode v)
  | None =>
      v <- DoAddVar value value CONTINUOUS ;;
      modify (fun s => set_map_fixed_vars s
                (fixed_assign value (nr_index v) (map_fixed_vars_ s))) ;;
      ret (Select GetVarValueNode (nr_index v))
  end.

(** [AddVar(lb, ub, type)]. *)
Definition AddVar (lb ub : double) (ty : VarType) : M NodeRange :=
  if dne lb ub then DoAddVar lb ub ty
  else MakeFixedVar lb.

(** [NarrowVarBounds(var, lb, ub)]. *)
Definition msg_empty_domain := "empty variable domain".

Definition NarrowVarBounds (var : Z) (lb ub : double) : M unit :=
  old_lb <- model_lb var ;;
  model_set_lb var (std_max old_lb lb) ;;
  old_ub <- model_ub var ;;
  model_set_ub var (std_min old_ub ub) ;;
  new_lb <- model_lb var ;;
  new_ub <- model_ub var ;;
  if dgt new_lb new_ub then raise (Infeasibility msg_empty_domain)
  else ret tt.

(** *** Init expressions of variables ([var_info_]) *)

Definition resize_info (l : list (option ConInfo)) (n : nat)
  : list (option ConInfo) :=
  l ++ repeat None (n - length l)%nat.

(** [AddInitExpression(var, vi)]; only called with [var >= 0]. *)
Definition AddInitExpression (var : Z) (vi : ConInfo) : M unit :=
  modify (fun s => set_var_info s
    (zupd (resize_info (var_info_ s)
             (Nat.max (length (var_info_ s)) (Z.to_nat var + 1)))
          var (fun _ => Some vi))).

(** [ReplaceInitExpression(var, vi)]: [var_info_.at(var) = vi]. *)
Definition ReplaceInitExpression (var : Z) (vi : ConInfo) : M unit :=
  fun s => match zth (var_info_ s) var with
           | Some _ =>
               (Ok tt, set_var_info s
                         (zupd (var_info_ s) var (fun _ => Some vi)))
           | None => (Throw OutOfRange, s)
           end.

(** [HasInitExpression(var)]:
    [int(var_info_.size()) > var && var_info_[var].HasId()].  The source
    tests the upper bound only and reads [var_info_[var]] unchecked: this
    is its value for [0 <= var], the indices the converter hands out. *)
Definition HasInitExpression (s : FlatConverter) (var : Z) : bool :=
  match zth (var_info_ s) var with
  | Some (Some _) => true
  | _ => false
  end.

(** *** Maps of functional constraints *)

Definition map_find (b : Body) (m : list (Body * Z)) : option Z :=
  match find (fun kv => body_eqb cfg (fst kv) b) m with
  | Some kv => Some (snd kv)
  | None => None
  end.

(** [MapFind__Impl]: the index, or -1. *)
Definition MapFind__Impl (t : ConType) (con : Constraint) : M Z :=
  fun s => (Ok match map_find (body con) (con_maps s t) with
               | Some i => i
               | None => -1
               end, s).

(** [MapInsert__Impl]: [map.insert({con, i}).second]. *)
Definition MapInsert__Impl (t : ConType) (con : Constraint) (i : Z)
  : M bool :=
  fun s => match map_find (body con) (con_maps s t) with
           | Some _ => (Ok false, s)
           | None =>
               (Ok true,
                set_con_maps s (fupd (con_maps s) t
                                  (con_maps s t ++ [(body con, i)])))
           end.

(** [MapFind], [MapInsert]: the types stored without a map overload them
    by empty methods. *)
Definition MapFind (t : ConType) (con : Constraint) : M Z :=
  if is_mapped t then MapFind__Impl t con else ret (-1).

Definition MapInsert (t : ConType) (con : Constraint) (i : Z) : M bool :=
  if is_mapped t then MapInsert__Impl t con i else ret true.

(** *** Adding constraints *)

Definition msg_duplicate (t : ConType) : string :=
  ("Trying to MapInsert() duplicated constraint: "
     ++ GetDescription cfg t)%string.

(** [AddConstraintAndTryNoteResultVariable(con)]. *)
Definition AddConstraintAndTryNoteResultVariable
           (t : ConType) (con : Constraint) : M NodeRange :=
  let resvar := result_var con in
  i <- ck_AddConstraint t con ;;
  (if 0 <=? resvar
   then AddInitExpression resvar {| ci_keeper := t; ci_index := i |}
   else ret tt) ;;
  stored <- GetConstraint t i ;;
  inserted <- MapInsert t stored i ;;
  if negb inserted then raise (Error (msg_duplicate t))
  else ret (SelectValueNodeRange t i).

(** [AddConstraint(con)]. *)
Definition AddConstraint (t : ConType) (con : Constraint) : M NodeRange :=
  node_range <- AddConstraintAndTryNoteResultVariable t con ;;
  AutoLink node_range.

(** [RedefineVariable(res_var, fc)], in a build with assertions:
    [assert(HasInitExpression(res_var))] is the raise of
    [AssertionFailure], for [0 <= res_var] (see [HasInitExpression]). *)
Definition RedefineVariable (t : ConType) (res_var : Z) (fc : Constraint)
  : M unit :=
  s <- get ;;
  if negb (HasInitExpression s res_var) then raise AssertionFailure
  else
    i <- AddConstraint t (SetResultVar fc res_var) ;;
    ReplaceInitExpression res_var
      {| ci_keeper := t; ci_index := nr_index i |}.

(** *** Functional constraints *)

Inductive VarOrConst : Type :=
| VC_Var (v : Z)
| VC_Const (c : double).

(** Modelled from the spec: [AssignResult2Args] forwards to the functional
    constraint converter, which is absent.  Its algorithm: a
    constant-foldable constraint yields the constant; a hit of [MapFind]
    yields the result variable of the hit; otherwise a result variable is
    allocated with the deduced bounds, set as the result and the
    constraint is added. *)
Definition AssignResult2Args (t : ConType) (fc : Constraint)
  : M VarOrConst :=
  match TryFold cfg t (body fc) with
  | Some c => ret (VC_Const c)
  | None =>
      i <- MapFind t fc ;;
      if 0 <=? i then
        hit <- GetConstraint t i ;;
        ret (VC_Var (result_var hit))
      else
        s <- get ;;
        let '(l, u, ty) := ComputeBoundsAndType cfg t (body fc) (vars s) in
        r <- AddVar l u ty ;;
        AddConstraint t (SetResultVar fc (nr_index r)) ;;
        ret (VC_Var (nr_index r))
  end.

(** [AssignResultVar2Args(fc)]: same, but always a variable. *)
Definition AssignResultVar2Args (t : ConType) (fc : Constraint) : M Z :=
  vc <- AssignResult2Args t fc ;;
  match vc with
  | VC_Const c => r <- MakeFixedVar c ;; ret (nr_index r)
  | VC_Var v => ret v
  end.

(** *** Conversion *)

(** A rule runs against the converter. *)
Fixpoint run_rule (r : Rule) : M unit :=
  match r with
  | RDone => ret tt
  | RAddConstraint t c k => nr <- AddConstraint t c ;; run_rule (k nr)
  | RAddVar l u ty k => nr <- AddVar l u ty ;; run_rule (k nr)
  | RAssignResultVar2Args t fc k =>
      v <- AssignResultVar2Args t fc ;; run_rule (k v)
  | RNarrowVarBounds v l u k => NarrowVarBounds v l u ;; run_rule k
  | RGetBounds v k => l <- lb v ;; u <- ub v ;; run_rule (k l u)
  | RThrow e => raise e
  end.

Definition msg_no_conversion (t : ConType) : string :=
  ("Constraint type '" ++ GetTypeName cfg t
     ++ "' is neither accepted by '" ++ ModelAPI_GetTypeName cfg
     ++ "', not is conversion implemented")%string.

(** [Convert(con)], the default: complain about an unknown constraint. *)
Definition Convert_default (t : ConType) (con : Constraint) : M unit :=
  raise (Error (msg_no_conversion t)).

(** [MP_DISPATCH(Convert(con, i))]: the overload of the final class when
    there is one, else the generic adapter, which ends in the default. *)
Definition Convert (t : ConType) (con : Constraint) (i : Z) : M unit :=
  match Convert_rule cfg t with
  | Some rule => run_rule (rule con i)
  | None => Convert_default t con
  end.

(** [con.SetContext(ctx)] on the constraint stored at [(t, i)]. *)
Definition set_stored_context (t : ConType) (i : Z) (ctx : Context)
  : M unit :=
  modify (fun s => set_keepers s (fupd (keepers s) t
    (zupd (keepers s t) i (fun st =>
       {| con_ := SetContext (con_ st) ctx;
          is_converted := is_converted st |})))).

(** [RunConversion(con, i)] where the reference [con] is the constraint
    stored at index [i] of the keeper of [t]. *)
Definition RunConversion (t : ConType) (i : Z) : M unit :=
  con <- GetConstraint t i ;;
  (if UsesContext cfg t
   then if IsNone (context con)
        then set_stored_context t i CTX_MIX
        else ret tt
   else ret tt) ;;
  con <- GetConstraint t i ;;
  scoped (SetAutoLinkSource (SelectValueNodeRange t i) ;;
          Convert t con i)
         (@close_auto_link_scope).

(** [IfNeedsConversion(con, i)]. *)
Definition IfNeedsConversion (t : ConType) (con : Constraint) (i : Z)
  : bool :=
  IfNeedsCvt_impl cfg t con i.

(** Modelled from the spec: the keeper's [ConvertAllConstraints] (absent)
    "iterates i = 0 .. size-1 and calls RunConversion(Get(i), i) only when
    either the ModelAPI does not accept C or IfNeedsConversion reports
    true"; the size is the current one, and an item is converted once. *)
Definition needs_conversion (t : ConType) (st : Stored) (i : Z) : bool :=
  negb (is_converted st)
  && match Accepts cfg t with
     | NotAccepted => true
     | _ => IfNeedsConversion t (con_ st) i
     end.

(** Modelled from the spec: the keeper notes that item [i] has been
    rewritten. *)
Definition mark_converted (t : ConType) (i : Z) : M unit :=
  modify (fun s => set_keepers s (fupd (keepers s) t
    (zupd (keepers s t) i (fun st =>
       {| con_ := con_ st; is_converted := true |})))).

(** Modelled from the spec: one step of the keeper's loop, on the item
    [st] stored at [i]. *)
Definition convert_item (t : ConType) (st : Stored) (i : Z) : M unit :=
  if needs_conversion t st i
  then RunConversion t i ;; mark_converted t i
  else ret tt.

(** Modelled from the spec: the keeper's [ConvertAllConstraints] from
    index [i] on; the loop bound [fuel] stands for the growing size. *)
Fixpoint ck_ConvertAllConstraints (fuel : nat) (t : ConType) (i : Z)
  : M unit :=
  match fuel with
  | O => raise FuelExhausted
  | S fuel' =>
      s <- get ;;
      match zth (keepers s t) i with
      | None => ret tt
      | Some st =>
          convert_item t st i ;;
          ck_ConvertAllConstraints fuel' t (i + 1)
      end
  end.

(** Modelled from the spec: one pass over the keepers, in registration
    order. *)
Fixpoint for_each_keeper (fuel : nat) (ts : list ConType) : M unit :=
  match ts with
  | [] => ret tt
  | t :: ts' =>
      ck_ConvertAllConstraints fuel t 0 ;; for_each_keeper fuel ts'
  end.

(** Modelled from the spec: some item of the list, stored from index [i]
    on, awaits conversion. *)
Fixpoint any_needs (t : ConType) (l : list Stored) (i : Z) : bool :=
  match l with
  | [] => false
  | st :: l' => needs_conversion t st i || any_needs t l' (i + 1)
  end.

(** Modelled from the spec: some stored item still awaits conversion. *)
Definition pending (s : FlatConverter) : bool :=
  existsb (fun t => any_needs t (keepers s t) 0) all_con_types.

(** Modelled from the spec: [FlatModel::ConvertAllConstraints] (absent)
    visits the keepers round-robin in registration order until no item
    awaits conversion. *)
Fixpoint model_ConvertAllConstraints (fuel : nat) : M unit :=
  match fuel with
  | O => raise FuelExhausted
  | S fuel' =>
      s <- get ;;
      if pending s
      then for_each_keeper fuel' all_con_types ;;
           model_ConvertAllConstraints fuel'
      else ret tt
  end.

(** [ConvertAllConstraints()]: forwards to [GetModel()]. *)
Definition ConvertAllConstraints (fuel : nat) : M unit :=
  model_ConvertAllConstraints fuel.

(** [ConvertMaps()], [PreprocessFinal()], [PrepareConversion()] and
    [WindupConversion()] are empty. *)

Definition ConvertMaps : M unit := ret tt.
Definition PreprocessFinal : M unit := ret tt.
Definition PrepareConversion : M unit := ret tt.
Definition WindupConversion : M unit := ret tt.

(** [ConvertItems()]. *)
Definition ConvertItems (fuel : nat) : M unit :=
  try_catch
    (ConvertAllConstraints fuel ;; ConvertMaps ;; PreprocessFinal)
    (fun e => match e with
              | ConstraintConversionFailure _ msg => Some (raise (Error msg))
              | _ => None
              end).

(** [ConvertModel()]. *)
Definition ConvertModel (fuel : nat) : M unit :=
  PrepareConversion ;; ConvertItems fuel ;; WindupConversion.

Definition relax (s : FlatConverter) : Z := relax_ s.

(** Modelled from the spec: the constraints of a keeper that were not
    rewritten, as calls of the ModelAPI. *)
Definition unconverted (t : ConType) (l : list Stored)
  : list (ApiCall Body) :=
  map (fun st => ApiAddConstraint t (con_ st))
      (filter (fun st => negb (is_converted st)) l).

(** Modelled from the spec: [FlatModel::PushModelTo] (absent) drives the
    ModelAPI sequence: the variables, then the constraints that were not
    rewritten, keeper by keeper.  The calls are recorded as made: a call
    that the ModelAPI fails is not modelled. *)
Definition pushed_model (s : FlatConverter) : list (ApiCall Body) :=
  [InitProblemModificationPhase; AddVariables (vars s)]
    ++ flat_map (fun t => unconverted t (keepers s t)) all_con_types
    ++ [FinishProblemModificationPhase].

Definition PushModelTo : M unit :=
  modify (fun s => set_modelapi s (modelapi_ s ++ pushed_model s)).

(** [FinishModelInput()] up to [PushModelTo].  The steps that follow in
    the source are left out: [CloseGraphExporter] and [PrintWarnings]
    write to files and to the terminal, and [assert(AllEntriesExported)]
    is about the exporter. *)
Definition FinishModelInput (fuel : nat) : M unit :=
  ConvertModel fuel ;;
  s <- get ;;
  (if negb (Z.eqb (relax s) 0) then RelaxIntegrality else ret tt) ;;
  PushModelTo.

(** *** Expressions to variables ([Convert2Var]) *)

(** What [Convert2Var] uses of the affine and quadratic expression types,
    whose header is absent. *)
Record ExprInterface (AffineExpr QuadraticExpr : Type) := {
  ae_is_variable : AffineExpr -> bool;
  ae_is_constant : AffineExpr -> bool;
  ae_get_representing_variable : AffineExpr -> Z;
  ae_constant_term : AffineExpr -> double;
  qe_is_variable : QuadraticExpr -> bool;
  qe_is_constant : QuadraticExpr -> bool;
  qe_is_affine : QuadraticExpr -> bool;
  qe_get_representing_variable : QuadraticExpr -> Z;
  qe_constant_term : QuadraticExpr -> double;
  MoveOutAffineExpr : QuadraticExpr -> AffineExpr;
  (* the constructors LinearFunctionalConstraint(ee) and
     QuadraticFunctionalConstraint(ee) *)
  make_LFC : AffineExpr -> Constraint;
  make_QFC : QuadraticExpr -> Constraint
}.

Section Expressions.

Variables AffineExpr QuadraticExpr : Type.
Variable ei : ExprInterface AffineExpr QuadraticExpr.

(** [Convert2Var(AffineExpr&& ee)]. *)
Definition Convert2Var_affine (ee : AffineExpr) : M Z :=
  if ae_is_variable ei ee
  then ret (ae_get_representing_variable ei ee)
  else if ae_is_constant ei ee
       then r <- MakeFixedVar (ae_constant_term ei ee) ;; ret (nr_index r)
       else AssignResultVar2Args LinearFunctionalConstraint
              (make_LFC ei ee).

(** [Convert2Var(QuadraticExpr&& ee)]. *)
Definition Convert2Var_quadratic (ee : QuadraticExpr) : M Z :=
  if qe_is_variable ei ee
  then ret (qe_get_representing_variable ei ee)
  else if qe_is_constant ei ee
       then r <- MakeFixedVar (qe_constant_term ei ee) ;; ret (nr_index r)
       else if qe_is_affine ei ee
            then AssignResultVar2Args LinearFunctionalConstraint
                   (make_LFC ei (MoveOutAffineExpr ei ee))
            else AssignResultVar2Args QuadraticFunctionalConstraint
                   (make_QFC ei ee).

End Expressions.

End Converter.

Arguments RDone {Body}.
Arguments RThrow {Body} e.
Arguments empty_converter {Body} relax.

(* ------------------------------------------------------------------ *)
(** ** Vocabulary of the properties *)

(** A relation between converter states that a call keeps. *)
Definition preserves {Body A}
           (R : FlatConverter Body -> FlatConverter Body -> Prop)
           (m : M Body A) : Prop :=
  forall s, R s (snd (m s)).

(** The cache of fixed variables keeps its entries and the variables keep
    their types. *)
Definition cache_ext {Body} (s s' : FlatConverter Body) : Prop :=
  (forall v x, fixed_find v (map_fixed_vars_ s) = Some x ->
               fixed_find v (map_fixed_vars_ s') = Some x)
  /\ (forall i a, zth (vars s) i = Some a ->
                  exists a', zth (vars s') i = Some a'
                             /\ v_type a' = v_type a).

(** The state after the keeper stored [con] and the init expression of its
    result variable was noted. *)
Definition after_store {Body} (s : FlatConverter Body) (t : ConType)
           (con : Constraint Body) : FlatConverter Body :=
  let i := Z.of_nat (length (keepers s t)) in
  let s1 := set_keepers s (fupd (keepers s) t
              (keepers s t ++ [{| con_ := con; is_converted := false |}])) in
  if 0 <=? result_var con
  then set_var_info s1
         (zupd (resize_info (var_info_ s1)
                  (Nat.max (length (var_info_ s1))
                           (Z.to_nat (result_var con) + 1)))
               (result_var con)
               (fun _ => Some {| ci_keeper := t; ci_index := i |}))
  else s1.

(** The context a constraint has when its conversion is dispatched. *)
Definition context_for_conversion {Body} (cfg : Config Body) (t : ConType)
           (c : Constraint Body) : Context :=
  if UsesContext cfg t
  then if IsNone (context c) then CTX_MIX else context c
  else context c.

(** The converter when the conversion of item [i] of type [t] is
    dispatched. *)
Definition state_at_dispatch {Body} (cfg : Config Body) (t : ConType)
           (i : Z) (st : Stored Body) (s : FlatConverter Body)
  : FlatConverter Body :=
  if UsesContext cfg t && IsNone (context (con_ st))
  then set_keepers s (fupd (keepers s) t
         (zupd (keepers s t) i (fun st0 =>
            {| con_ := SetContext (con_ st0) CTX_MIX;
               is_converted := is_converted st0 |})))
  else s.

(** [st'] is [st] up to its context. *)
Definition same_item {Body} (st st' : Stored Body) : Prop :=
  body (con_ st') = body (con_ st)
  /\ result_var (con_ st') = result_var (con_ st)
  /\ is_converted st' = is_converted st.

(** What every converter call short of marking an item keeps: the items
    stored, their conversion marks, and what the ModelAPI has received. *)
Definition ext {Body} (s s' : FlatConverter Body) : Prop :=
  modelapi_ s' = modelapi_ s
  /\ forall t i st, zth (keepers s t) i = Some st ->
       exists st', zth (keepers s' t) i = Some st' /\ same_item st st'.

(** The same with conversion marks that may be set. *)
Definition grows {Body} (s s' : FlatConverter Body) : Prop :=
  modelapi_ s' = modelapi_ s
  /\ forall t i st, zth (keepers s t) i = Some st ->
       exists st', zth (keepers s' t) i = Some st'
                   /\ body (con_ st') = body (con_ st)
                   /\ result_var (con_ st') = result_var (con_ st)
                   /\ (is_converted st = true -> is_converted st' = true).

(** The types registered before [t]. *)
Fixpoint types_before (t : ConType) (ts : list ConType) : list ConType :=
  match ts with
  | [] => []
  | x :: ts' => if ConType_eq_dec x t then [] else x :: types_before t ts'
  end.

(** Item [i] of type [t] is the next one the conversion loop converts. *)
Definition first_pending {Body} (cfg : Config Body) (s : FlatConverter Body)
           (t : ConType) (i : Z) : Prop :=
  (forall t', In t' (types_before t all_con_types) ->
              any_needs cfg t' (keepers s t') 0 = false)
  /\ (forall j st, 0 <= j < i -> zth (keepers s t) j = Some st ->
                   needs_conversion cfg t st j = false).

(** Item [i] of type [t] is stored and not converted. *)
Definition unconv {Body} (t : ConType) (i : Z) (s : FlatConverter Body)
  : Prop :=
  exists st, zth (keepers s t) i = Some st /\ is_converted st = false.

(* ================================================================== *)
(** * Example data *)

Module Examples.

(** An SOS2 constraint given with weights 3, 1, 2. *)
Definition sos_vars : list Z := [10; 20; 30].
Definition sos_weights : list double :=
  Eval cbv in [d_of_Z 3; d_of_Z 1; d_of_Z 2].
Definition sos_weights_sorted : list double :=
  Eval cbv in [d_of_Z 1; d_of_Z 2; d_of_Z 3].
Definition sos_built : SOS.SOS_1or2_Constraint :=
  {| SOS.sos_type := 2;
     SOS.v_ := [20; 30; 10];
     SOS.w_ := sos_weights_sorted;
     SOS.extra_info_ := SOS.default_SOSExtraInfo |}.

(** A solver application whose solver reports an infeasible problem
    (solve code 200) on the stub "model". *)
Definition app : SolverApp.Collaborators :=
  {| SolverApp.Parse := fun argv =>
       Ok match argv with _ :: stub :: _ => Some stub | _ => None end;
     SolverApp.echo_solver_options := true;
     SolverApp.long_name := "solver";
     SolverApp.NO_OPTION_ECHO := 1;
     SolverApp.ParseOptions := fun _ _ => Ok true;
     SolverApp.GetProblemBuilder := fun _ => Ok tt;
     SolverApp.Read := fun _ => Ok tt;
     SolverApp.DoEndBuild := Ok tt;
     SolverApp.timing := false;
     SolverApp.input_time_text := "";
     SolverApp.wantsol := 1;
     SolverApp.has_output := false;
     SolverApp.Solve := fun _ =>
       Ok [{| SolverApp.sol_status := 200;
              SolverApp.sol_message := "infeasible problem" |}] |}.

(** The same application with an option in error. *)
Definition app_bad_options : SolverApp.Collaborators :=
  {| SolverApp.Parse := SolverApp.Parse app;
     SolverApp.echo_solver_options := true;
     SolverApp.long_name := "solver";
     SolverApp.NO_OPTION_ECHO := 1;
     SolverApp.ParseOptions := fun _ _ => Ok false;
     SolverApp.GetProblemBuilder := fun _ => Ok tt;
     SolverApp.Read := fun _ => Ok tt;
     SolverApp.DoEndBuild := Ok tt;
     SolverApp.timing := false;
     SolverApp.input_time_text := "";
     SolverApp.wantsol := 1;
     SolverApp.has_output := false;
     SolverApp.Solve := SolverApp.Solve app |}.

Definition argv : list string := ["solver"; "model"; "-AMPL"].

(** The acceptance levels of [XpressmpModelAPI] (its [ACCEPT_CONSTRAINT]
    declarations); a type without a declaration is not accepted. *)
Definition xpressmp_accepts (t : ConType) : AcceptanceLevel :=
  match t with
  | LinConLE | LinConEQ | LinConGE
  | QuadConLE | QuadConEQ | QuadConGE => Recommended
  | IndicatorConstraintLinLE | IndicatorConstraintLinEQ
  | IndicatorConstraintLinGE => AcceptedButNotRecommended
  | SOS1Constraint | SOS2Constraint => Recommended
  | _ => NotAccepted
  end.

(** Constraints whose data is a list of variable indices. *)
Definition body_eqb_list (a b : list Z) : bool :=
  if list_eq_dec Z.eq_dec a b then true else false.

Definition type_name (t : ConType) : string :=
  match t with
  | SOS1Constraint => SOS.GetTypeName 1
  | SOS2Constraint => SOS.GetTypeName 2
  | MaxConstraint => "MaxConstraint"
  | PowConstraint => "PowConstraint"
  | LinConLE => "LinConLE"
  | _ => "Constraint"
  end.

(** A rule for [r = max(args)]: one row [arg <= r] per argument, the body
    of a row being the pair of indices. *)
Definition rule_max (c : Constraint (list Z)) (i : Z) : Rule (list Z) :=
  fold_right
    (fun a k =>
       RAddConstraint LinConLE
         {| body := [a; result_var c]; result_var := -1;
            context := CTX_NONE |}
         (fun _ => k))
    RDone (body c).

(** A converter for the Xpress ModelAPI whose only rule is [rule_max]. *)
Definition cfg : Config (list Z) :=
  {| body_eqb := body_eqb_list;
     GetTypeName := type_name;
     UsesContext := is_mapped;
     GetDescription := fun t =>
       ("ConstraintKeeper< " ++ type_name t ++ " >")%string;
     ModelAPI_GetTypeName := "XpressmpModelAPI";
     Accepts := xpressmp_accepts;
     Convert_rule := fun t =>
       match t with MaxConstraint => Some rule_max | _ => None end;
     IfNeedsCvt_impl := fun _ _ _ => false;
     TryFold := fun _ _ => None;
     ComputeBoundsAndType := fun _ _ _ =>
       (d_minus_inf, d_inf, CONTINUOUS) |}.

Definition d_three : double := Eval cbv in d_of_Z 3.
Definition d_five : double := Eval cbv in d_of_Z 5.

(** Variables [x, y] in [0, 5] and [r], free. *)
Definition s_vars : FlatConverter (list Z) :=
  snd ((AddVar d_zero d_five CONTINUOUS ;;
        AddVar d_zero d_five CONTINUOUS ;;
        AddVar d_minus_inf d_inf CONTINUOUS) (empty_converter 0)).

(** [r = max(x, y)]. *)
Definition max_con : Constraint (list Z) :=
  {| body := [0; 1]; result_var := 2; context := CTX_NONE |}.

Definition s_max : FlatConverter (list Z) :=
  snd (AddConstraint cfg MaxConstraint max_con s_vars).

(** [r = x ^ 2], a type with no rule here. *)
Definition pow_con : Constraint (list Z) :=
  {| body := [0]; result_var := 2; context := CTX_NONE |}.

Definition s_pow : FlatConverter (list Z) :=
  snd (AddConstraint cfg PowConstraint pow_con s_vars).

(** Affine expressions [sum coef * var + constant] and quadratic ones with
    their product terms, for [Convert2Var]. *)
Definition AffineExpr : Type := list (double * Z) * double.
Definition QuadraticExpr : Type := list (double * Z * Z) * AffineExpr.

Definition ae_is_var (e : AffineExpr) : bool :=
  match e with
  | ([(c, _)], k) => deq c d_one && deq k d_zero
  | _ => false
  end.

Definition ae_is_const (e : AffineExpr) : bool :=
  match fst e with [] => true | _ => false end.

Definition ae_var (e : AffineExpr) : Z :=
  match fst e with (_, v) :: _ => v | [] => -1 end.

Definition qe_affine (e : QuadraticExpr) : bool :=
  match fst e with [] => true | _ => false end.

Definition exprs : ExprInterface (list Z) AffineExpr QuadraticExpr :=
  {| ae_is_variable := ae_is_var;
     ae_is_constant := ae_is_const;
     ae_get_representing_variable := ae_var;
     ae_constant_term := snd;
     qe_is_variable := fun e => qe_affine e && ae_is_var (snd e);
     qe_is_constant := fun e => qe_affine e && ae_is_const (snd e);
     qe_is_affine := qe_affine;
     qe_get_representing_variable := fun e => ae_var (snd e);
     qe_constant_term := fun e => snd (snd e);
     MoveOutAffineExpr := snd;
     make_LFC := fun e =>
       {| body := map snd (fst e); result_var := -1;
          context := CTX_NONE |};
     make_QFC := fun e =>
       {| body := map snd (fst (snd e))
                    ++ flat_map (fun q => [snd (fst q); snd q]) (fst e);
          result_var := -1; context := CTX_NONE |} |}.

(** [x + y] and [x * y + y]. *)
Definition ae_sum : AffineExpr := ([(d_one, 0); (d_one, 1)], d_zero).
Definition qe_prod : QuadraticExpr :=
  ([(d_one, 0, 1)], ([(d_one, 1)], d_zero)).

End Examples.

(* ================================================================== *)
(** * Further code of the same files *)

(* ------------------------------------------------------------------ *)
(** ** The converter: result propagation and vectors of variables *)

Section Propagation.

Variable Body : Type.

(** The keeper's [PropagateResult(cvt, i, lb, ub, ctx)], reached through
    [ckid.GetCK()]; the keepers' header is absent. *)
Variable PropagateResult :
  ConType -> Z -> double -> double -> Context -> M Body unit.

(** [GetInitExpression(var)]: [assert(HasInitExpression(var))], then
    [var_info_[var]]. *)
Definition GetInitExpression (var : Z) : M Body ConInfo :=
  fun s => match zth (var_info_ s) var with
           | Some (Some ci) => (Ok ci, s)
           | _ => (Throw AssertionFailure, s)
           end.

(** [PropagateResultOfInitExpr(var, lb, ub, ctx)]. *)
Definition PropagateResultOfInitExpr (var : Z) (lb ub : double)
           (ctx : Context) : M Body unit :=
  NarrowVarBounds var lb ub ;;
  s <- get ;;
  if HasInitExpression s var
  then ckid <- GetInitExpression var ;;
       PropagateResult (ci_keeper ckid) (ci_index ckid) lb ub ctx
  else ret tt.

(** [PropagateResultOfInitExpr(var, ctx)]: with the bounds the variable
    has. *)
Definition PropagateResultOfInitExpr_var (var : Z) (ctx : Context)
  : M Body unit :=
  l <- lb var ;;
  u <- ub var ;;
  PropagateResultOfInitExpr var l u ctx.

(** Modelled from the spec: [+Context()] (the header of [Context] is
    absent) is the positive context: [FixAsTrue] "sets positive context
    downward". *)
Definition positive_context : Context := CTX_POS.

(** [FixAsTrue(resvar)]. *)
Definition FixAsTrue (resvar : Z) : M Body unit :=
  PropagateResultOfInitExpr resvar d_one d_one positive_context.

(** [set_var_lb_context], [set_var_ub_context],
    [set_var_bounds_context]. *)
Definition set_var_lb_context (var : Z) (lb : double) (ctx : Context)
  : M Body unit :=
  set_var_lb var lb ;;
  PropagateResultOfInitExpr_var var ctx.

Definition set_var_ub_context (var : Z) (ub : double) (ctx : Context)
  : M Body unit :=
  set_var_ub var ub ;;
  PropagateResultOfInitExpr_var var ctx.

Definition set_var_bounds_context (var : Z) (lb ub : double)
           (ctx : Context) : M Body unit :=
  set_var_lb var lb ;;
  set_var_ub var ub ;;
  PropagateResultOfInitExpr_var var ctx.

(** [AddVars_returnIds(nvars, lb, ub, type)]: the loop fills the vector
    front to back. *)
Fixpoint AddVars_returnIds (nvars : nat) (lb ub : double) (ty : VarType)
  : M Body (list Z) :=
  match nvars with
  | O => ret []
  | S n =>
      v <- AddVar lb ub ty ;;
      rest <- AddVars_returnIds n lb ub ty ;;
      ret (nr_index v :: rest)
  end.

End Propagation.

(** A propagator that records nothing and returns: a keeper whose
    constraint has no arguments to propagate to. *)
Definition no_propagation {Body} (t : ConType) (i : Z) (lb ub : double)
           (ctx : Context) : M Body unit :=
  ret tt.

(** Every init expression names a stored constraint whose result variable
    is the variable it is noted for. *)
Definition init_ok {Body} (s : FlatConverter Body) : Prop :=
  forall var ci,
    zth (var_info_ s) var = Some (Some ci) ->
    exists st, zth (keepers s (ci_keeper ci)) (ci_index ci) = Some st
               /\ result_var (con_ st) = var.

(** Every entry of a constraint map names a stored constraint with the
    entry's data. *)
Definition map_ok {Body} (s : FlatConverter Body) : Prop :=
  forall t b i,
    In (b, i) (con_maps s t) ->
    exists st, zth (keepers s t) i = Some st /\ body (con_ st) = b.

(** A property of the converter that a call does not destroy. *)
Definition kept {Body} (P : FlatConverter Body -> Prop)
           (s s' : FlatConverter Body) : Prop :=
  P s -> P s'.

(** Pairwise strictly ordered weights: of any two, one is less than the
    other. *)
Definition pairwise_ordered (w : list double) : Prop :=
  ForallOrdPairs (fun a b => dlt a b = true \/ dlt b a = true) w.

(* ------------------------------------------------------------------ *)
(** ** Solver options and solution writing ([include/mp/solver.h]) *)

Module Options.

(** The 32-bit [int]: its largest value, and the value an arithmetic
    result is stored as. *)
Definition INT_MAX : Z := 2 ^ 31 - 1.
Definition to_int (z : Z) : Z := (z + 2 ^ 31) mod 2 ^ 32 - 2 ^ 31.

(** The exceptions of the option code: [OptionError] and its subclass
    [InvalidOptionValue]; each carries its message. *)
Inductive Failure : Type :=
| OptionError (msg : string)
| InvalidOptionValue (msg : string).

Inductive Outcome (A : Type) : Type :=
| Returns (a : A)
| Throws (e : Failure).
Arguments Returns {A} a.
Arguments Throws {A} e.

(** The double quote of the format strings. *)
Definition quote : string := String "034"%char EmptyString.

(** [fmt::format("{}", value)] for an integer: its decimal digits. *)
Definition fmt_int (z : Z) : string := NilZero.string_of_int (Z.to_int z).

(** [InvalidOptionValue::Format(name, value)]. *)
Definition Format (name value : string) : string :=
  ("Invalid value " ++ quote ++ value ++ quote
   ++ " for option " ++ quote ++ name ++ quote)%string.

(** A [SolverOption] as far as the code below uses it: its name. *)
Record SolverOption := {
  name : string
}.

(** *** [TypedSolverOption<T>::Parse] *)

(** [std::isspace] in the C locale. *)
Definition isspace (c : ascii) : bool :=
  let n := nat_of_ascii c in
  Nat.eqb n 32 || (Nat.leb 9 n && Nat.leb n 13).

(** The character [s] points to, for a pointer into a NUL-terminated
    string, the string being the characters from the pointer on. *)
Definition deref (s : string) : ascii :=
  match s with
  | EmptyString => zero
  | String c _ => c
  end.

(** The test of [Parse]: the character at [s] is neither NUL nor a
    space. *)
Definition in_token (s : string) : bool :=
  negb (Ascii.eqb (deref s) zero) && negb (isspace (deref s)).

(** [s + n]. *)
Fixpoint advance (n : nat) (s : string) : string :=
  match n, s with
  | O, _ => s
  | S n', String _ r => advance n' r
  | S _, EmptyString => EmptyString
  end.

(** The loop that moves [s] on while the character at [s] is neither NUL
    nor a space: the number of increments. *)
Fixpoint while_in_token (s : string) : nat :=
  match s with
  | EmptyString => O
  | String c r =>
      if in_token s then S (while_in_token r) else O
  end.

Section TypedSolverOption.

(** The option type [T], [internal::OptionHelper<T>::Parse] (its body is
    absent), which returns the value and moves the pointer on by some
    characters, and the option's virtual [SetValue], which changes the
    object [St] its handler points to. *)
Variables T St : Type.
Variable OptionHelper_Parse : string -> T * nat.
Variable SetValue : T -> St -> Outcome St.

(** [Parse(const char *&s)]: what [SetValue] makes of the object, or the
    exception, and how far [s] has moved from [start]. *)
Definition Parse (opt_name : string) (start : string) (st : St)
  : Outcome St * nat :=
  let '(value, n) := OptionHelper_Parse start in
  let s := advance n start in
  if in_token s then
    let n' := (n + S (while_in_token (advance 1 s)))%nat in
    (Throws (InvalidOptionValue (Format opt_name (substring 0 n' start))),
     n')
  else (SetValue value st, n).

End TypedSolverOption.

(** *** The solver object *)

(** The members of [Solver] the code below reads or writes. *)
Record Solver := {
  wantsol_ : Z;
  objno_ : Z;
  solution_stub_ : string;
  count_solutions_ : bool;
  multiobj_ : bool
}.

Definition set_wantsol (s : Solver) (value : Z) : Solver :=
  {| wantsol_ := value; objno_ := objno_ s;
     solution_stub_ := solution_stub_ s;
     count_solutions_ := count_solutions_ s; multiobj_ := multiobj_ s |}.

Definition set_objno (s : Solver) (value : Z) : Solver :=
  {| wantsol_ := wantsol_ s; objno_ := value;
     solution_stub_ := solution_stub_ s;
     count_solutions_ := count_solutions_ s; multiobj_ := multiobj_ s |}.

(** [GetWantSol], [SetWantSol]: [~0xf] is the [int] -16, and the bitwise
    operations on [Z] are those of two's complement. *)
Definition GetWantSol (s : Solver) : Z := wantsol_ s.

Definition SetWantSol (value : Z) (s : Solver) : Outcome Solver :=
  if negb (Z.eqb (Z.land value (Z.lnot 15)) 0)
  then Throws (InvalidOptionValue (Format "wantsol" (fmt_int value)))
  else Returns (set_wantsol s value).

(** [GetObjNo], [SetObjNo]. *)
Definition GetObjNo (s : Solver) : Z := Z.abs (objno_ s).

Definition SetObjNo (opt : SolverOption) (value : Z) (s : Solver)
  : Outcome Solver :=
  if value <? 0
  then Throws (InvalidOptionValue (Format (name opt) (fmt_int value)))
  else Returns (set_objno s value).

Definition objno (s : Solver) : Z := objno_ s.
Definition multiobj (s : Solver) : bool := multiobj_ s.
Definition solution_stub (s : Solver) : string := solution_stub_ s.

(** [need_multiple_solutions()]. *)
Definition need_multiple_solutions (s : Solver) : bool :=
  count_solutions_ s || negb (String.eqb (solution_stub_ s) EmptyString).

(** *** [SolverNLHandler::OnHeader] *)

Record NLHeader := {
  num_objs : Z;
  num_options : Z;
  options : list Z
}.

(** The handler: the objective index of its base class
    [ProblemBuilderToNLAdapter] (absent), the header the base class has
    received, and its own copy of the options. *)
Record SolverNLHandler := {
  obj_index : Z;
  base_header : option NLHeader;
  nl_num_options_ : Z;
  nl_options_ : list Z
}.

Section OnHeader.

(** [Base::NEED_ALL_OBJS], a constant of the absent base class. *)
Variable NEED_ALL_OBJS : Z.

Definition OnHeader (solver : Solver) (h : NLHeader)
           (hd : SolverNLHandler) : Outcome SolverNLHandler :=
  let objno := objno solver in
  if objno >? num_objs h
  then Throws (InvalidOptionValue (Format "objno" (fmt_int objno)))
  else
    let idx :=
      if multiobj solver then NEED_ALL_OBJS
      else if negb (Z.eqb objno (-1)) then objno - 1
           else obj_index hd in
    let n := Z.to_nat (num_options h) in
    Returns {| obj_index := idx;
               base_header := Some h;
               nl_num_options_ := num_options h;
               nl_options_ := firstn n (options h)
                                ++ skipn n (nl_options_ hd) |}.

End OnHeader.

(** *** [SolutionWriter] *)

(** What [SolutionAdapter] hands to the .sol writer. *)
Record Solution := {
  status : Z;
  has_builder : bool;            (* the builder pointer is not null *)
  message : string;
  sol_options : list Z;
  values : list double;
  dual_values : list double
}.

(** What a solution handler does to the outside: it writes a .sol file,
    and it sets value 0 of the problem suffix [nsol]. *)
Inductive Output : Type :=
| Write (filename : string) (sol : Solution)
| SetNsol (value : Z).

Record SolutionWriter := {
  filename_ : string;
  options_ : list Z;
  num_solutions_ : Z
}.

(** The constructor. *)
Definition make_SolutionWriter (stub : string) (options : list Z)
  : SolutionWriter :=
  {| filename_ := (stub ++ ".sol")%string;
     options_ := options;
     num_solutions_ := 0 |}.

(** [MakeArrayRef(values, values ? n : 0)] for a pointer that is null or
    points to an array. *)
Definition MakeArrayRef (values : option (list double)) (n : Z)
  : list double :=
  match values with
  | Some a => firstn (Z.to_nat n) a
  | None => []
  end.

Section SolutionWriter.

(** [sol::UNSOLVED] (its header is absent), the solver and the sizes of
    the problem in the builder. *)
Variable UNSOLVED : Z.
Variable solver : Solver.
Variables num_vars num_algebraic_cons : Z.

(** The adapter [sol] that [HandleFeasibleSolution] hands to the writer:
    no builder, no options. *)
Definition feasible_adapter (msg : string)
           (vals duals : option (list double)) : Solution :=
  {| status := UNSOLVED; has_builder := false; message := msg;
     sol_options := [];
     values := MakeArrayRef vals num_vars;
     dual_values := MakeArrayRef duals num_algebraic_cons |}.

(** The adapter [sol] of [HandleSolution]. *)
Definition final_adapter (w : SolutionWriter) (st : Z) (msg : string)
           (vals duals : option (list double)) : Solution :=
  {| status := st; has_builder := true; message := msg;
     sol_options := options_ w;
     values := MakeArrayRef vals num_vars;
     dual_values := MakeArrayRef duals num_algebraic_cons |}.

(** [HandleFeasibleSolution(message, values, dual_values, obj)]; the
    counter is an [int]. *)
Definition HandleFeasibleSolution (w : SolutionWriter) (msg : string)
           (vals duals : option (list double))
  : SolutionWriter * list Output :=
  let n := to_int (num_solutions_ w + 1) in
  let w' := {| filename_ := filename_ w; options_ := options_ w;
               num_solutions_ := n |} in
  if String.eqb (solution_stub solver) EmptyString
  then (w', [])
  else
    (w',
     [Write (solution_stub solver ++ fmt_int n ++ ".sol")%string
        (feasible_adapter msg vals duals)]).

(** [HandleSolution(status, message, values, dual_values, obj)]. *)
Definition HandleSolution (w : SolutionWriter) (st : Z) (msg : string)
           (vals duals : option (list double)) : list Output :=
  (if need_multiple_solutions solver
   then [SetNsol (num_solutions_ w)] else [])
  ++ [Write (filename_ w) (final_adapter w st msg vals duals)].

(** The handler receives feasible solutions one after another, as an
    enumerating solver reports them. *)
Fixpoint feasible_solutions (w : SolutionWriter)
         (sols : list (string * option (list double)
                       * option (list double)))
  : SolutionWriter * list Output :=
  match sols with
  | [] => (w, [])
  | (msg, vals, duals) :: rest =>
      let '(w1, out1) := HandleFeasibleSolution w msg vals duals in
      let '(w2, out2) := feasible_solutions w1 rest in
      (w2, out1 ++ out2)
  end.

End SolutionWriter.

End Options.

(* ================================================================== *)
(** * More example data *)

Module MoreExamples.



(** Variable [x] of [Examples.s_vars] after a narrowing to [7, +inf),
    which leaves it with the bounds [7, 5]. *)
Definition s_infeasible : FlatConverter (list Z) :=
  snd (NarrowVarBounds 0 (d_of_Z 7) d_inf Examples.s_vars).

(** A stand-in for [OptionHelper<int>::Parse]: the value of the leading
    decimal digits and their number. *)
Fixpoint parse_digits (acc : Z) (s : string) : Z * nat :=
  match s with
  | EmptyString => (acc, O)
  | String c r =>
      let n := nat_of_ascii c in
      if Nat.leb 48 n && Nat.leb n 57
      then let '(v, k) := parse_digits (10 * acc + Z.of_nat (n - 48)) r in
           (v, S k)
      else (acc, O)
  end.

(** A solver that keeps the intermediate solutions under the stub "run"
    and an enumeration of two feasible solutions. *)
Definition solver : Options.Solver :=
  {| Options.wantsol_ := 1; Options.objno_ := -1;
     Options.solution_stub_ := "run";
     Options.count_solutions_ := false;
     Options.multiobj_ := false |}.

Definition two_solutions
  : list (string * option (list double) * option (list double)) :=
  [("first", Some [d_one; d_zero], None);
   ("second", Some [d_zero; d_one], None)].

End MoreExamples.


(* ================================================================== *)
(** * Properties *)

Unset Implicit Arguments.

(* ------------------------------------------------------------------ *)
(** ** Comparisons of doubles *)

Ltac float_cases :=
  repeat match goal with
         | s : bool |- _ => destruct s
         end;
  simpl;
  repeat match goal with
         | |- context [Z.compare ?x ?y] =>
             destruct (Z.compare_spec x y); simpl
         | |- context [Pos.compare_cont Eq ?x ?y] =>
             change (Pos.compare_cont Eq x y) with (Pos.compare x y);
             destruct (Pos.compare_spec x y); simpl
         end.

Ltac float_iff :=
  let Hl := fresh "Hl" in
  let Hn1 := fresh "Hn" in
  let Hn2 := fresh "Hn" in
  let Hr := fresh "Hr" in
  split;
  [ intros Hl; try discriminate Hl; repeat split; try reflexivity; try lia
  | intros (Hn1 & Hn2 & Hr); try discriminate Hn1; try discriminate Hn2;
    try reflexivity; try lia; try congruence ].

Lemma dlt_spec (a b : double) :
  dlt a b = true <->
  is_nan a = false /\ is_nan b = false /\ lex_lt (rank a) (rank b).
Proof.
  unfold dlt, SFltb.
  destruct a as [sa|sa| |sa ma ea], b as [sb|sb| |sb mb eb];
    float_cases; float_iff.
Qed.

Lemma deq_spec (a b : double) :
  deq a b = true <->
  is_nan a = false /\ is_nan b = false /\ rank a = rank b.
Proof.
  unfold deq, SFeqb.
  destruct a as [sa|sa| |sa ma ea], b as [sb|sb| |sb mb eb];
    float_cases; float_iff.
  all: try (f_equal; [f_equal|]; lia).
  all: try (injection Hr; intros; lia).
Qed.

Lemma lex_lt_irrefl (x : Z * Z * Z) : ~ lex_lt x x.
Proof. destruct x as [[x1 x2] x3]; simpl; lia. Qed.

Lemma lex_lt_trans (x y z : Z * Z * Z) :
  lex_lt x y -> lex_lt y z -> lex_lt x z.
Proof.
  destruct x as [[x1 x2] x3], y as [[y1 y2] y3], z as [[z1 z2] z3];
    simpl; lia.
Qed.

Lemma lex_lt_total (x y : Z * Z * Z) : lex_lt x y \/ x = y \/ lex_lt y x.
Proof.
  destruct x as [[x1 x2] x3], y as [[y1 y2] y3]; simpl.
  destruct (Z.lt_total x1 y1) as [?|[?|?]];
    destruct (Z.lt_total x2 y2) as [?|[?|?]];
    destruct (Z.lt_total x3 y3) as [?|[?|?]]; subst; auto; lia.
Qed.

Lemma dlt_irrefl (a : double) : dlt a a = false.
Proof.
  destruct (dlt a a) eqn:E; [|reflexivity].
  apply dlt_spec in E. destruct E as (_ & _ & E).
  now apply lex_lt_irrefl in E.
Qed.

Lemma dlt_trans (a b c : double) :
  dlt a b = true -> dlt b c = true -> dlt a c = true.
Proof.
  rewrite !dlt_spec. intros (? & ? & ?) (? & ? & ?).
  repeat split; auto. eapply lex_lt_trans; eauto.
Qed.

Lemma dlt_asym (a b : double) : dlt a b = true -> dlt b a = false.
Proof.
  intros H. destruct (dlt b a) eqn:E; [|reflexivity].
  pose proof (dlt_trans _ _ _ H E) as H'.
  now rewrite dlt_irrefl in H'.
Qed.

Lemma deq_refl (a : double) : is_nan a = false -> deq a a = true.
Proof. intros H. apply deq_spec. auto. Qed.

Lemma deq_sym (a b : double) : deq a b = true -> deq b a = true.
Proof. rewrite !deq_spec. intros (? & ? & ?). auto. Qed.

Lemma deq_trans (a b c : double) :
  deq a b = true -> deq b c = true -> deq a c = true.
Proof.
  rewrite !deq_spec. intros (? & ? & ?) (? & ? & ?).
  repeat split; auto. congruence.
Qed.

Lemma deq_not_nan (a b : double) :
  deq a b = true -> is_nan a = false /\ is_nan b = false.
Proof. rewrite deq_spec. tauto. Qed.

Lemma dlt_deq_l (a b c : double) :
  deq a b = true -> dlt a c = true -> dlt b c = true.
Proof.
  rewrite deq_spec, !dlt_spec. intros (? & ? & E) (? & ? & ?).
  repeat split; auto. now rewrite <- E.
Qed.

Lemma dlt_deq_r (a b c : double) :
  deq b c = true -> dlt a b = true -> dlt a c = true.
Proof.
  rewrite deq_spec, !dlt_spec. intros (? & ? & E) (? & ? & ?).
  repeat split; auto. now rewrite <- E.
Qed.

Lemma dlt_not_deq (a b : double) : dlt a b = true -> deq a b = false.
Proof.
  intros H. destruct (deq a b) eqn:E; [|reflexivity].
  apply deq_sym in E. pose proof (dlt_deq_r _ _ _ E H) as H'.
  now rewrite dlt_irrefl in H'.
Qed.

Lemma dlt_total (a b : double) :
  is_nan a = false -> is_nan b = false ->
  dlt a b = true \/ deq a b = true \/ dlt b a = true.
Proof.
  intros Ha Hb. rewrite !dlt_spec, deq_spec.
  destruct (lex_lt_total (rank a) (rank b)) as [?|[?|?]]; auto 10.
Qed.

Lemma dle_dlt_deq (a b : double) : dle a b = dlt a b || deq a b.
Proof.
  unfold dle, dlt, deq, SFleb, SFltb, SFeqb.
  destruct (SFcompare a b) as [[]|]; reflexivity.
Qed.

Lemma dle_of_not_dlt (a b : double) :
  is_nan a = false -> is_nan b = false -> dlt b a = false ->
  dle a b = true.
Proof.
  intros Ha Hb H. rewrite dle_dlt_deq.
  destruct (dlt_total a b Ha Hb) as [->|[->|E]]; auto using orb_true_r.
  congruence.
Qed.

Lemma dle_refl (a : double) : is_nan a = false -> dle a a = true.
Proof. intros H. rewrite dle_dlt_deq, (deq_refl a H). apply orb_true_r. Qed.

(** On numbers [std::max] is an upper bound of its arguments and
    [std::min] a lower bound. *)
Lemma std_max_upper (a b : double) :
  is_nan a = false -> is_nan b = false ->
  dle a (std_max a b) = true /\ dle b (std_max a b) = true.
Proof.
  intros Ha Hb. unfold std_max. destruct (dlt a b) eqn:E.
  - split; [|now apply dle_refl]. rewrite dle_dlt_deq, E. reflexivity.
  - split; [now apply dle_refl|]. now apply dle_of_not_dlt.
Qed.

Lemma std_min_lower (a b : double) :
  is_nan a = false -> is_nan b = false ->
  dle (std_min a b) a = true /\ dle (std_min a b) b = true.
Proof.
  intros Ha Hb. unfold std_min. destruct (dlt b a) eqn:E.
  - split; [|now apply dle_refl]. rewrite dle_dlt_deq, E. reflexivity.
  - split; [now apply dle_refl|]. now apply dle_of_not_dlt.
Qed.

(** [std::max] never yields less than its first argument, [std::min]
    never more. *)
Lemma std_max_not_below (a b : double) : dlt (std_max a b) a = false.
Proof.
  unfold std_max. destruct (dlt a b) eqn:E.
  - now apply dlt_asym.
  - apply dlt_irrefl.
Qed.

Lemma std_min_not_above (a b : double) : dlt a (std_min a b) = false.
Proof.
  unfold std_min. destruct (dlt b a) eqn:E.
  - now apply dlt_asym.
  - apply dlt_irrefl.
Qed.

(* ------------------------------------------------------------------ *)
(** ** SOS constraints are stored sorted by weight *)

Module SOSFacts.
Import SOS.


Lemma map_insert_perm k v m r :
  map_insert k v m = Some r -> Permutation r ((k, v) :: m).
Proof.
  revert r. induction m as [|[k' v'] m IH]; simpl; intros r H.
  - injection H as <-. apply Permutation_refl.
  - destruct (dlt k k').
    + injection H as <-. apply Permutation_refl.
    + destruct (dlt k' k); [|discriminate].
      destruct (map_insert k v m) as [r'|]; [|discriminate].
      injection H as <-.
      rewrite (IH r' eq_refl). apply perm_swap.
Qed.

Lemma map_insert_sorted k v m r :
  StronglySorted klt (map fst m) ->
  map_insert k v m = Some r ->
  StronglySorted klt (map fst r).
Proof.
  revert r. induction m as [|[k' v'] m IH]; simpl; intros r Hs H.
  - injection H as <-. simpl. repeat constructor.
  - inversion Hs as [|x l Hs' Hall]; subst.
    destruct (dlt k k') eqn:E1.
    + injection H as <-. simpl. constructor; [exact Hs|].
      constructor; [exact E1|].
      eapply Forall_impl; [|exact Hall].
      intros a Ha. eapply dlt_trans; eauto.
    + destruct (dlt k' k) eqn:E2; [|discriminate].
      destruct (map_insert k v m) as [r'|] eqn:E3; [|discriminate].
      injection H as <-. simpl. constructor.
      * now apply IH.
      * apply map_insert_perm in E3.
        apply (Permutation_map fst) in E3. simpl in E3.
        eapply Permutation_Forall; [apply Permutation_sym; exact E3|].
        constructor; assumption.
Qed.

(** An equivalent key makes [insert] fail. *)
Lemma map_insert_equal k v m :
  StronglySorted klt (map fst m) ->
  (exists k', In k' (map fst m) /\ deq k k' = true) ->
  map_insert k v m = None.
Proof.
  induction m as [|[k0 v0] m IH]; simpl; intros Hs (k' & Hin & He).
  - contradiction.
  - inversion Hs as [|x l Hs' Hall]; subst.
    destruct (dlt k k0) eqn:E1.
    + exfalso. destruct Hin as [->|Hin].
      * apply dlt_not_deq in E1. congruence.
      * rewrite Forall_forall in Hall. specialize (Hall _ Hin).
        pose proof (dlt_trans _ _ _ E1 Hall) as H1.
        apply dlt_not_deq in H1. congruence.
    + destruct (dlt k0 k) eqn:E2; [|reflexivity].
      destruct Hin as [->|Hin].
      * exfalso. apply dlt_not_deq in E2. apply deq_sym in He. congruence.
      * rewrite IH; eauto.
Qed.

Lemma firstn_snoc_nth {A} (l : list A) (i : nat) (x : A) :
  nth_error l i = Some x -> firstn (S i) l = firstn i l ++ [x].
Proof.
  revert i. induction l as [|a l IH]; intros [|i] H; simpl in *;
    try discriminate.
  - now injection H as ->.
  - f_equal. now apply IH.
Qed.

Lemma nth_error_combine {A B} (l1 : list A) (l2 : list B) i a b :
  nth_error l1 i = Some a -> nth_error l2 i = Some b ->
  nth_error (combine l1 l2) i = Some (a, b).
Proof.
  revert l2 i. induction l1 as [|x l1 IH]; intros [|y l2] [|i] H1 H2;
    simpl in *; try discriminate.
  - congruence.
  - now apply IH.
Qed.

(** The loop of [sort()]: what a successful run yields. *)
Lemma sort_loop_ok i v w sorted res :
  StronglySorted klt (map fst sorted) ->
  sort_loop i v w sorted = Ok res ->
  StronglySorted klt (map fst res)
  /\ Permutation res (firstn i (combine w v) ++ sorted).
Proof.
  revert sorted res. induction i as [|i IH]; intros sorted res Hs H.
  - simpl in H. injection H as <-. split; [exact Hs|]. apply Permutation_refl.
  - cbn [sort_loop] in H.
    destruct (nth_error w i) as [wi|] eqn:Ew; [|discriminate].
    destruct (nth_error v i) as [vi|] eqn:Ev; [|discriminate].
    destruct (map_insert wi vi sorted) as [sorted'|] eqn:Ei; [|discriminate].
    destruct (IH _ _ (map_insert_sorted _ _ _ _ Hs Ei) H) as [H1 H2].
    split; [exact H1|].
    rewrite H2. rewrite (firstn_snoc_nth _ _ _ (nth_error_combine _ _ _ _ _ Ew Ev)).
    rewrite <- app_assoc. apply Permutation_app_head. simpl.
    now apply map_insert_perm.
Qed.







Lemma combine_fst_snd {A B} (l : list (A * B)) :
  combine (map fst l) (map snd l) = l.
Proof. induction l as [|[a b] l IH]; simpl; congruence. Qed.

Lemma map_fst_combine {A B} (l1 : list A) (l2 : list B) :
  length l1 = length l2 -> map fst (combine l1 l2) = l1.
Proof.
  revert l2. induction l1 as [|a l1 IH]; intros [|b l2] H; simpl in *;
    try discriminate; auto.
  f_equal. apply IH. lia.
Qed.

(** The whole loop, from the constructor's arguments. *)
Lemma sort_loop_full v w res :
  sort_loop (length v) v w [] = Ok res ->
  StronglySorted klt (map fst res) /\ Permutation res (combine w v).
Proof.
  intros E.
  destruct (sort_loop_ok _ _ _ [] _ (SSorted_nil klt) E) as [H1 H2].
  split; [exact H1|].
  rewrite H2, app_nil_r.
  destruct (Nat.le_gt_cases (length (combine w v)) (length v)) as [Hl|Hl].
  - now rewrite firstn_all2.
  - rewrite length_combine in Hl. lia.
Qed.

(** What a successful construction stores. *)
Lemma make_ok type v w ei c :
  make type v w ei = Ok c ->
  StronglySorted klt (get_weights c)
  /\ Permutation (combine (get_weights c) (get_vars c)) (combine w v)
  /\ length (get_vars c) = length (get_weights c).
Proof.
  unfold make, sort. cbn [v_ w_ sos_type extra_info_].
  destruct (sort_loop (length v) v w []) as [res|e] eqn:E; [|discriminate].
  destruct (check _); [|discriminate].
  intros H. injection H as <-. unfold get_weights, get_vars. cbn [v_ w_].
  destruct (sort_loop_full _ _ _ E) as [H1 H2].
  split; [exact H1|]. split.
  - now rewrite combine_fst_snd.
  - now rewrite !length_map.
Qed.


(** Weights that are pairwise ordered let the constructor succeed. *)
Lemma map_insert_total k v m :
  (forall k', In k' (map fst m) -> dlt k k' = true \/ dlt k' k = true) ->
  exists r, map_insert k v m = Some r.
Proof.
  induction m as [|[k' v'] m IH]; simpl; intros H; [eauto|].
  destruct (dlt k k') eqn:E1; [eauto|].
  destruct (dlt k' k) eqn:E2.
  - destruct IH as [r ->]; eauto.
  - destruct (H k' (or_introl eq_refl)); congruence.
Qed.

Lemma sort_loop_total i v w sorted :
  (i <= length v)%nat -> (i <= length w)%nat ->
  (forall p q wp wq, p <> q ->
     nth_error w p = Some wp -> nth_error w q = Some wq ->
     dlt wp wq = true \/ dlt wq wp = true) ->
  (forall k, In k (map fst sorted) ->
     exists q, (i <= q)%nat /\ nth_error w q = Some k) ->
  exists res, sort_loop i v w sorted = Ok res.
Proof.
  intros Hv Hw Hp. revert sorted.
  induction i as [|i IH]; intros sorted Hk; [simpl; eauto|].
  cbn [sort_loop].
  destruct (nth_error w i) as [wi|] eqn:Ew.
  2:{ apply nth_error_None in Ew. lia. }
  destruct (nth_error v i) as [vi|] eqn:Ev.
  2:{ apply nth_error_None in Ev. lia. }
  destruct (map_insert_total wi vi sorted) as [r Er].
  { intros k' Hin. destruct (Hk _ Hin) as (q & Hq & Eq).
    apply (Hp i q); auto. lia. }
  rewrite Er. apply IH; try lia.
  intros k Hin. apply map_insert_perm in Er.
  apply (Permutation_map fst) in Er.
  apply (Permutation_in _ Er) in Hin. destruct Hin as [<-|Hin].
  - exists i. auto.
  - destruct (Hk _ Hin) as (q & Hq & Eq). exists q. split; [lia|exact Eq].
Qed.

Lemma make_total type v w ei :
  type = 1 \/ type = 2 ->
  length v = length w ->
  (forall p q wp wq, p <> q ->
     nth_error w p = Some wp -> nth_error w q = Some wq ->
     dlt wp wq = true \/ dlt wq wp = true) ->
  exists c, make type v w ei = Ok c.
Proof.
  intros Ht Hlen Hp. unfold make, sort. cbn [v_ w_ sos_type extra_info_].
  assert (forall k, In k (map fst (@nil (double * Z))) ->
            exists q, (length v <= q)%nat /\ nth_error w q = Some k) as Hk
    by (intros k []).
  destruct (sort_loop_total (length v) v w [] (Nat.le_refl _)
              ltac:(lia) Hp Hk) as [res ->].
  unfold check. cbn [v_ w_ sos_type].
  rewrite !length_map, Nat.eqb_refl.
  destruct Ht as [-> | ->]; cbn; eauto.
Qed.

End SOSFacts.


Lemma sort_loop_firstn (i n : nat) (v : list Z) (w : list double)
      (sorted : list (double * Z)) :
  (i <= n)%nat ->
  SOS.sort_loop i v (firstn n w) sorted = SOS.sort_loop i v w sorted.
Proof.
  revert sorted. induction i as [|i IH]; intros sorted Hi; simpl.
  - reflexivity.
  - rewrite nth_error_firstn.
    destruct (Nat.ltb_spec i n) as [_|Hge]; [|lia].
    destruct (nth_error w i) as [wi|]; [|reflexivity].
    destruct (nth_error v i) as [vi|]; [|reflexivity].
    destruct (SOS.map_insert wi vi sorted) as [s'|]; [|reflexivity].
    apply IH. lia.
Qed.




(* ------------------------------------------------------------------ *)
(** ** Exit codes of the solver application *)

(** C8: [Run] returns 0 when no file name is given, 1 when the solver
    options fail to parse, and 0 whenever the solve step was reached and
    returned, whatever solve codes were reported. *)
Theorem C8_run_exit_codes :
  forall (env : SolverApp.Collaborators) (argv : list string),
    (SolverApp.Parse env argv = Ok None ->
     fst (SolverApp.Run env argv) = Ok 0)
    /\ (forall filename,
          SolverApp.Parse env argv = Ok (Some filename) ->
          SolverApp.ParseOptions env argv
            (if SolverApp.echo_solver_options env then 0
             else SolverApp.NO_OPTION_ECHO env) = Ok false ->
          fst (SolverApp.Run env argv) = Ok 1)
    /\ (SolverApp.reaches_solve env argv ->
        fst (SolverApp.Run env argv) = Ok 0).
Proof.
  intros env argv. unfold SolverApp.reaches_solve, SolverApp.Run.
  repeat split.
  - intros ->. reflexivity.
  - intros filename -> H.
    destruct (SolverApp.nl_names filename). now rewrite H.
  - intros (h & reports & Hin). revert Hin.
    destruct (SolverApp.Parse env argv) as [[filename|]|e];
      [|intros []|intros []].
    destruct (SolverApp.nl_names filename) as [nl stub].
    destruct (SolverApp.ParseOptions env argv _) as [[|]|e1];
      try (intros [H|[]]; discriminate H).
    destruct (SolverApp.GetProblemBuilder env stub) as [[]|e2];
      try (intros [H|[]]; discriminate H).
    destruct (SolverApp.Read env nl) as [[]|e3];
      try (intros [H|[H|[]]]; discriminate H).
    destruct (SolverApp.DoEndBuild env) as [[]|e4];
      try (intros [H|[H|[H|[]]]]; discriminate H).
    destruct (SolverApp.Solve env _) as [rs|e5]; [reflexivity|].
    destruct (SolverApp.timing env);
      intros H; repeat (destruct H as [H|H]; try discriminate H);
      contradiction.
Qed.

Lemma C8_run_exit_codes_witness :
  SolverApp.reaches_solve Examples.app Examples.argv
  /\ fst (SolverApp.Run Examples.app Examples.argv) = Ok 0
  /\ fst (SolverApp.Run Examples.app_bad_options Examples.argv) = Ok 1.
Proof.
  assert (SolverApp.reaches_solve Examples.app Examples.argv) as Hr.
  { exists (SolverApp.AppSolutionWriter "model" 8),
      [{| SolverApp.sol_status := 200;
          SolverApp.sol_message := "infeasible problem" |}].
    vm_compute. auto. }
  split; [exact Hr|]. split.
  - exact (proj2 (proj2 (C8_run_exit_codes Examples.app Examples.argv)) Hr).
  - exact (proj1 (proj2 (C8_run_exit_codes Examples.app_bad_options
                           Examples.argv)) "model" eq_refl eq_refl).
Defined.

(* ------------------------------------------------------------------ *)
(** ** Vectors indexed by [int] *)

Lemma list_upd_length {A} (l : list A) n f :
  length (list_upd l n f) = length l.
Proof.
  revert n. induction l as [|a l IH]; intros [|n]; simpl; auto.
Qed.

Lemma nth_error_list_upd_same {A} (l : list A) n f :
  nth_error (list_upd l n f) n = option_map f (nth_error l n).
Proof.
  revert n. induction l as [|a l IH]; intros [|n]; simpl; auto.
Qed.

Lemma nth_error_list_upd_other {A} (l : list A) n m f :
  n <> m -> nth_error (list_upd l n f) m = nth_error l m.
Proof.
  revert n m. induction l as [|a l IH]; intros [|n] [|m] H; simpl; auto;
    congruence.
Qed.

Lemma zth_zupd_same {A} (l : list A) i f :
  zth (zupd l i f) i = option_map f (zth l i).
Proof.
  unfold zth, zupd. destruct (i <? 0); [reflexivity|].
  apply nth_error_list_upd_same.
Qed.

Lemma zth_zupd_other {A} (l : list A) i j f :
  i <> j -> zth (zupd l i f) j = zth l j.
Proof.
  unfold zth, zupd. intros H.
  destruct (i <? 0) eqn:Ei; [reflexivity|].
  destruct (j <? 0) eqn:Ej; [reflexivity|].
  apply nth_error_list_upd_other.
  apply Z.ltb_ge in Ei, Ej. intros E. apply H.
  now apply Z2Nat.inj.
Qed.

Lemma zupd_length {A} (l : list A) i f : length (zupd l i f) = length l.
Proof.
  unfold zupd. destruct (i <? 0); [reflexivity|]. apply list_upd_length.
Qed.

Lemma zth_app_l {A} (l l' : list A) i a :
  zth l i = Some a -> zth (l ++ l') i = Some a.
Proof.
  unfold zth. destruct (i <? 0); [discriminate|].
  intros H. rewrite nth_error_app1; auto.
  apply nth_error_Some. congruence.
Qed.

Lemma zth_app_new {A} (l : list A) a :
  zth (l ++ [a]) (Z.of_nat (length l)) = Some a.
Proof.
  unfold zth.
  destruct (Z.of_nat (length l) <? 0) eqn:E; [apply Z.ltb_lt in E; lia|].
  rewrite Nat2Z.id, nth_error_app2, Nat.sub_diag; auto.
Qed.

Lemma zth_Some_range {A} (l : list A) i a :
  zth l i = Some a -> 0 <= i < Z.of_nat (length l).
Proof.
  unfold zth. destruct (i <? 0) eqn:E; [discriminate|].
  apply Z.ltb_ge in E. intros H.
  assert (nth_error l (Z.to_nat i) <> None) as H' by congruence.
  apply nth_error_Some in H'. lia.
Qed.

(* ------------------------------------------------------------------ *)
(** ** Running monadic code *)

Lemma bind_ok {Body A B} (m : M Body A) (f : A -> M Body B) s a s' :
  m s = (Ok a, s') -> bind m f s = f a s'.
Proof. unfold bind. now intros ->. Qed.

Lemma bind_throw {Body A B} (m : M Body A) (f : A -> M Body B) s e s' :
  m s = (Throw e, s') -> bind m f s = (Throw e, s').
Proof. unfold bind. now intros ->. Qed.

Lemma bind_inv {Body A B} (m : M Body A) (f : A -> M Body B) s r s' :
  bind m f s = (r, s') ->
  (exists a s1, m s = (Ok a, s1) /\ f a s1 = (r, s'))
  \/ (exists e, m s = (Throw e, s') /\ r = Throw e).
Proof.
  unfold bind. destruct (m s) as [[a|e] s1]; intros H.
  - left. eauto.
  - right. injection H as <- <-. eauto.
Qed.

Lemma model_lb_eq {Body} (s : FlatConverter Body) var a :
  zth (vars s) var = Some a -> model_lb var s = (Ok (v_lb a), s).
Proof. unfold model_lb. now intros ->. Qed.

Lemma model_ub_eq {Body} (s : FlatConverter Body) var a :
  zth (vars s) var = Some a -> model_ub var s = (Ok (v_ub a), s).
Proof. unfold model_ub. now intros ->. Qed.

Lemma model_set_lb_eq {Body} (s : FlatConverter Body) var a x :
  zth (vars s) var = Some a ->
  model_set_lb var x s =
  (Ok tt, set_vars s (zupd (vars s) var (fun a =>
     {| v_lb := x; v_ub := v_ub a; v_type := v_type a |}))).
Proof. unfold model_set_lb. now intros ->. Qed.

Lemma model_set_ub_eq {Body} (s : FlatConverter Body) var a x :
  zth (vars s) var = Some a ->
  model_set_ub var x s =
  (Ok tt, set_vars s (zupd (vars s) var (fun a =>
     {| v_lb := v_lb a; v_ub := x; v_type := v_type a |}))).
Proof. unfold model_set_ub. now intros ->. Qed.

(* ------------------------------------------------------------------ *)
(** ** Narrowing of variable bounds *)

(** C3: [NarrowVarBounds(v, lb, ub)] stores [max(old lb, lb)] and
    [min(old ub, ub)], so the lower bound is not below the old one and the
    upper bound not above it (on numbers: old lb <= new lb and
    new ub <= old ub); the other variables and the type are left alone; and
    the infeasibility error is raised exactly when the stored bounds end
    with [lb(v) > ub(v)]. *)
Theorem C3_narrow_var_bounds :
  forall (Body : Type) (s : FlatConverter Body) (var : Z) (lb ub : double)
         (a : VarAttr),
    zth (vars s) var = Some a ->
    exists r s' a',
      NarrowVarBounds var lb ub s = (r, s')
      /\ zth (vars s') var = Some a'
      /\ v_lb a' = std_max (v_lb a) lb
      /\ v_ub a' = std_min (v_ub a) ub
      /\ v_type a' = v_type a
      /\ dlt (v_lb a') (v_lb a) = false
      /\ dlt (v_ub a) (v_ub a') = false
      /\ (is_nan (v_lb a) = false -> is_nan lb = false ->
          dle (v_lb a) (v_lb a') = true /\ dle lb (v_lb a') = true)
      /\ (is_nan (v_ub a) = false -> is_nan ub = false ->
          dle (v_ub a') (v_ub a) = true /\ dle (v_ub a') ub = true)
      /\ (forall u, u <> var -> zth (vars s') u = zth (vars s) u)
      /\ (r = Throw (Infeasibility msg_empty_domain)
          <-> dgt (v_lb a') (v_ub a') = true)
      /\ (r = Ok tt <-> dgt (v_lb a') (v_ub a') = false).
Proof.
  intros Body s var lb ub a Ha.
  set (a1 := {| v_lb := std_max (v_lb a) lb; v_ub := v_ub a;
                v_type := v_type a |}).
  set (a' := {| v_lb := std_max (v_lb a) lb;
                v_ub := std_min (v_ub a) ub; v_type := v_type a |}).
  set (s1 := set_vars s (zupd (vars s) var (fun a0 =>
     {| v_lb := std_max (v_lb a) lb; v_ub := v_ub a0;
        v_type := v_type a0 |}))).
  set (s2 := set_vars s1 (zupd (vars s1) var (fun a0 =>
     {| v_lb := v_lb a0; v_ub := std_min (v_ub a) ub;
        v_type := v_type a0 |}))).
  assert (zth (vars s1) var = Some a1) as H1.
  { unfold s1. cbn [vars set_vars]. now rewrite zth_zupd_same, Ha. }
  assert (zth (vars s2) var = Some a') as H2.
  { unfold s2. cbn [vars set_vars]. now rewrite zth_zupd_same, H1. }
  assert (forall u, u <> var -> zth (vars s2) u = zth (vars s) u) as Hother.
  { intros u Hu. unfold s2, s1. cbn [vars set_vars].
    now rewrite !zth_zupd_other by congruence. }
  assert (NarrowVarBounds var lb ub s =
          (if dgt (v_lb a') (v_ub a')
           then Throw (Infeasibility msg_empty_domain) else Ok tt, s2))
    as Hrun.
  { unfold NarrowVarBounds.
    rewrite (bind_ok _ _ _ _ _ (model_lb_eq s var a Ha)).
    rewrite (bind_ok _ _ _ _ _ (model_set_lb_eq s var a _ Ha)).
    fold s1.
    rewrite (bind_ok _ _ _ _ _ (model_ub_eq s1 var a1 H1)).
    rewrite (bind_ok _ _ _ _ _ (model_set_ub_eq s1 var a1 _ H1)).
    cbn [v_ub a1]. fold s2.
    rewrite (bind_ok _ _ _ _ _ (model_lb_eq s2 var a' H2)).
    rewrite (bind_ok _ _ _ _ _ (model_ub_eq s2 var a' H2)).
    now destruct (dgt (v_lb a') (v_ub a')). }
  exists (if dgt (v_lb a') (v_ub a')
          then Throw (Infeasibility msg_empty_domain) else Ok tt), s2, a'.
  split; [exact Hrun|]. split; [exact H2|].
  split; [reflexivity|]. split; [reflexivity|]. split; [reflexivity|].
  split; [apply std_max_not_below|]. split; [apply std_min_not_above|].
  split; [intros; now apply std_max_upper|].
  split; [intros; now apply std_min_lower|].
  split; [exact Hother|].
  destruct (dgt (v_lb a') (v_ub a')); split; split;
    congruence || reflexivity.
Qed.

(* ------------------------------------------------------------------ *)
(** ** Relations kept by every converter call *)

Section Preservation.

Context {Body : Type} (cfg : Config Body).

Variable R : FlatConverter Body -> FlatConverter Body -> Prop.
Hypothesis R_refl : forall s, R s s.
Hypothesis R_trans : forall a b c, R a b -> R b c -> R a c.


Lemma preserves_ret {A} (a : A) : preserves R (ret a).
Proof. intros s. apply R_refl. Qed.

Lemma preserves_raise {A} e : preserves R (@raise Body A e).
Proof. intros s. apply R_refl. Qed.

Lemma preserves_get : preserves R (@get Body).
Proof. intros s. apply R_refl. Qed.

Lemma preserves_bind {A B} (m : M Body A) (f : A -> M Body B) :
  preserves R m -> (forall a, preserves R (f a)) -> preserves R (bind m f).
Proof.
  intros Hm Hf s. unfold bind. specialize (Hm s).
  destruct (m s) as [[a|e] s1]; simpl in *; auto.
  eapply R_trans; [exact Hm|apply Hf].
Qed.

Lemma preserves_modify (f : FlatConverter Body -> FlatConverter Body) :
  (forall s, R s (f s)) -> preserves R (modify f).
Proof. intros H s. apply H. Qed.

Lemma preserves_scoped {A} (m : M Body A) cleanup :
  preserves R m -> (forall s, R s (cleanup s)) -> preserves R (scoped m cleanup).
Proof.
  intros Hm Hc s. unfold scoped. specialize (Hm s).
  destruct (m s) as [r s1]; simpl in *.
  eapply R_trans; [exact Hm|apply Hc].
Qed.

Hypothesis H_add_var : forall lb ub ty, preserves R (AddVar__basic lb ub ty).
Hypothesis H_set_lb : forall v x, preserves R (model_set_lb v x).
Hypothesis H_set_ub : forall v x, preserves R (model_set_ub v x).
Hypothesis H_ck_add : forall t c, preserves R (ck_AddConstraint t c).
Hypothesis H_ctx : forall t i ctx, preserves R (set_stored_context t i ctx).
Hypothesis H_fixed : forall v, preserves R (MakeFixedVar v).
Hypothesis H_auto_link : forall s src targs, R s (set_auto_link s src targs).
Hypothesis H_var_info : forall s x, R s (set_var_info s x).
Hypothesis H_con_maps : forall s x, R s (set_con_maps s x).
Hypothesis H_links : forall s x, R s (set_links s x).

Lemma preserves_model_lb v : preserves R (model_lb v).
Proof. intros s. unfold model_lb. destruct (zth _ _); apply R_refl. Qed.

Lemma preserves_model_ub v : preserves R (model_ub v).
Proof. intros s. unfold model_ub. destruct (zth _ _); apply R_refl. Qed.

Lemma preserves_AutoLink nr : preserves R (AutoLink nr).
Proof.
  intros s. unfold AutoLink. destruct (DoingAutoLinking s); simpl; auto.
Qed.

Lemma preserves_DoAddVar lb ub ty : preserves R (DoAddVar lb ub ty).
Proof.
  unfold DoAddVar. apply preserves_bind; auto using preserves_AutoLink.
Qed.

Lemma preserves_AddVar lb ub ty : preserves R (AddVar lb ub ty).
Proof.
  unfold AddVar. destruct (dne lb ub); auto using preserves_DoAddVar.
Qed.

Lemma preserves_NarrowVarBounds v lb ub :
  preserves R (NarrowVarBounds v lb ub).
Proof.
  unfold NarrowVarBounds.
  repeat (apply preserves_bind;
          [auto using preserves_model_lb, preserves_model_ub|intros]).
  destruct (dgt _ _); auto using preserves_raise, preserves_ret.
Qed.

Lemma preserves_GetConstraint t i : preserves R (GetConstraint t i).
Proof.
  intros s. unfold GetConstraint. destruct (zth _ _); apply R_refl.
Qed.

Lemma preserves_MapFind t c : preserves R (MapFind cfg t c).
Proof.
  unfold MapFind. destruct (is_mapped t); [|apply preserves_ret].
  intros s. apply R_refl.
Qed.

Lemma preserves_MapInsert t c i : preserves R (MapInsert cfg t c i).
Proof.
  unfold MapInsert. destruct (is_mapped t); [|apply preserves_ret].
  intros s. unfold MapInsert__Impl. destruct (map_find _ _ _); simpl; auto.
Qed.

Lemma preserves_AddInitExpression v vi : preserves R (AddInitExpression v vi).
Proof. apply preserves_modify. intros s. apply H_var_info. Qed.

Lemma preserves_AddConstraint t c : preserves R (AddConstraint cfg t c).
Proof.
  unfold AddConstraint, AddConstraintAndTryNoteResultVariable.
  apply preserves_bind; [|intros; apply preserves_AutoLink].
  apply preserves_bind; [apply H_ck_add|intros i].
  apply preserves_bind.
  { destruct (0 <=? result_var c);
      auto using preserves_AddInitExpression, preserves_ret. }
  intros _. apply preserves_bind; [apply preserves_GetConstraint|intros st].
  apply preserves_bind; [apply preserves_MapInsert|intros b].
  destruct (negb b); auto using preserves_raise, preserves_ret.
Qed.

Lemma preserves_AssignResult2Args t fc :
  preserves R (AssignResult2Args cfg t fc).
Proof.
  unfold AssignResult2Args.
  destruct (TryFold cfg t (body fc)); [apply preserves_ret|].
  apply preserves_bind; [apply preserves_MapFind|intros i].
  destruct (0 <=? i).
  - apply preserves_bind; [apply preserves_GetConstraint|intros].
    apply preserves_ret.
  - apply preserves_bind; [apply preserves_get|intros s].
    destruct (ComputeBoundsAndType cfg t (body fc) (vars s)) as [[l u] ty].
    apply preserves_bind; [apply preserves_AddVar|intros r].
    apply preserves_bind; [apply preserves_AddConstraint|intros].
    apply preserves_ret.
Qed.

Lemma preserves_AssignResultVar2Args t fc :
  preserves R (AssignResultVar2Args cfg t fc).
Proof.
  unfold AssignResultVar2Args.
  apply preserves_bind; [apply preserves_AssignResult2Args|intros [v|c]].
  - apply preserves_ret.
  - apply preserves_bind; [apply H_fixed|intros; apply preserves_ret].
Qed.

Lemma preserves_run_rule (r : Rule Body) : preserves R (run_rule cfg r).
Proof.
  induction r as [|t c k IH|l u ty k IH|t fc k IH|v l u k IH|v k IH|e];
    cbn [run_rule].
  - apply preserves_ret.
  - apply preserves_bind; [apply preserves_AddConstraint|auto].
  - apply preserves_bind; [apply preserves_AddVar|auto].
  - apply preserves_bind; [apply preserves_AssignResultVar2Args|auto].
  - apply preserves_bind; [apply preserves_NarrowVarBounds|auto].
  - apply preserves_bind; [apply preserves_model_lb|intros].
    apply preserves_bind; [apply preserves_model_ub|auto].
  - apply preserves_raise.
Qed.

Lemma preserves_Convert t c i : preserves R (Convert cfg t c i).
Proof.
  unfold Convert. destruct (Convert_rule cfg t).
  - apply preserves_run_rule.
  - apply preserves_raise.
Qed.

Lemma R_close_auto_link_scope s : R s (close_auto_link_scope s).
Proof.
  unfold close_auto_link_scope, TurnOffAutoLinking.
  eapply R_trans; [|apply H_auto_link].
  destruct (auto_link_src_item_ s); [|apply R_refl].
  destruct (auto_link_targ_items_ s) as [|x [|y l]];
    auto using R_refl.
Qed.

Lemma preserves_RunConversion t i : preserves R (RunConversion cfg t i).
Proof.
  unfold RunConversion.
  apply preserves_bind; [apply preserves_GetConstraint|intros c].
  apply preserves_bind.
  { destruct (UsesContext cfg t); [|apply preserves_ret].
    destruct (IsNone (context c)); auto using preserves_ret. }
  intros _. apply preserves_bind; [apply preserves_GetConstraint|intros c'].
  apply preserves_scoped; [|apply R_close_auto_link_scope].
  apply preserves_bind; [|intros; apply preserves_Convert].
  apply preserves_modify. intros s. apply H_auto_link.
Qed.

End Preservation.

(* ------------------------------------------------------------------ *)
(** ** The cache of fixed variables *)


Lemma fixed_find_deq a b m :
  deq a b = true -> fixed_find a m = fixed_find b m.
Proof.
  intros H. unfold fixed_find. induction m as [|[k x] m IH]; simpl; auto.
  assert (deq k a = deq k b) as ->.
  { destruct (deq k a) eqn:E1, (deq k b) eqn:E2; auto.
    - pose proof (deq_trans _ _ _ E1 H). congruence.
    - pose proof (deq_trans _ _ _ E2 (deq_sym _ _ H)). congruence. }
  destruct (deq k b); auto.
Qed.

Lemma fixed_find_assign_same v x m :
  is_nan v = false -> fixed_find v (fixed_assign v x m) = Some x.
Proof.
  intros Hv. unfold fixed_find.
  induction m as [|[k y] m IH]; simpl.
  - now rewrite (deq_refl v Hv).
  - destruct (deq k v) eqn:E; simpl; rewrite E; auto.
Qed.

Lemma fixed_find_assign_miss u y v m :
  fixed_find u m = None ->
  fixed_find v (fixed_assign u y m) =
  match fixed_find v m with
  | Some x => Some x
  | None => if deq u v then Some y else None
  end.
Proof.
  unfold fixed_find. induction m as [|[k z] m IH]; simpl; intros Hu.
  - destruct (deq u v); reflexivity.
  - destruct (deq k u) eqn:E; [discriminate|]. simpl.
    destruct (deq k v); auto.
Qed.

Lemma fixed_find_assign_keeps u y v x m :
  fixed_find u m = None -> fixed_find v m = Some x ->
  fixed_find v (fixed_assign u y m) = Some x.
Proof. intros Hu Hv. now rewrite fixed_find_assign_miss, Hv. Qed.

(** What [AutoLink] leaves alone. *)
Lemma AutoLink_eq {Body} (s : FlatConverter Body) nr :
  exists targs,
    AutoLink nr s = (Ok nr, set_auto_link s (auto_link_src_item_ s) targs).
Proof.
  unfold AutoLink. destruct (DoingAutoLinking s).
  - eauto.
  - exists (auto_link_targ_items_ s). now destruct s.
Qed.

(** [MakeFixedVar] on a cached value: no variable is created. *)
Lemma MakeFixedVar_hit {Body} (s : FlatConverter Body) v x :
  fixed_find v (map_fixed_vars_ s) = Some x ->
  exists targs,
    MakeFixedVar v s =
    (Ok (Select VarValues x),
     set_auto_link s (auto_link_src_item_ s) targs).
Proof.
  intros H. unfold MakeFixedVar, bind, get. rewrite H.
  apply AutoLink_eq.
Qed.

(** [MakeFixedVar] on a value not cached: a continuous variable fixed at
    the value is created and cached. *)
Lemma MakeFixedVar_miss {Body} (s : FlatConverter Body) v :
  fixed_find v (map_fixed_vars_ s) = None ->
  exists targs,
    MakeFixedVar v s =
    (Ok (Select VarValues (Z.of_nat (length (vars s)))),
     set_map_fixed_vars
       (set_auto_link
          (set_vars s (vars s ++ [{| v_lb := v; v_ub := v;
                                     v_type := CONTINUOUS |}]))
          (auto_link_src_item_ s) targs)
       (fixed_assign v (Z.of_nat (length (vars s)))
                     (map_fixed_vars_ s))).
Proof.
  intros H. unfold MakeFixedVar, bind, get. rewrite H.
  unfold DoAddVar, bind, AddVar__basic.
  destruct (AutoLink_eq
              (set_vars s (vars s ++ [{| v_lb := v; v_ub := v;
                                         v_type := CONTINUOUS |}]))
              (Select GetVarValueNode (Z.of_nat (length (vars s)))))
    as [targs ->].
  exists targs. reflexivity.
Qed.

Lemma cache_ext_refl {Body} (s : FlatConverter Body) : cache_ext s s.
Proof. split; eauto. Qed.

Lemma cache_ext_trans {Body} (a b c : FlatConverter Body) :
  cache_ext a b -> cache_ext b c -> cache_ext a c.
Proof.
  intros [H1 H2] [H3 H4]. split; auto.
  intros i x Hx. destruct (H2 _ _ Hx) as (x' & Hx' & E).
  destruct (H4 _ _ Hx') as (x'' & Hx'' & E'). exists x''. split; auto.
  congruence.
Qed.

Lemma cache_ext_set_bound {Body} (s : FlatConverter Body) v f :
  (forall a, v_type (f a) = v_type a) ->
  cache_ext s (set_vars s (zupd (vars s) v f)).
Proof.
  intros Hf. split; [auto|]. cbn [vars set_vars]. intros i a Ha.
  destruct (Z.eq_dec v i) as [->|Hne].
  - rewrite zth_zupd_same, Ha. simpl. eauto.
  - rewrite zth_zupd_other by exact Hne. eauto.
Qed.

Lemma cache_ext_MakeFixedVar {Body} (s : FlatConverter Body) v :
  cache_ext s (snd (MakeFixedVar v s)).
Proof.
  destruct (fixed_find v (map_fixed_vars_ s)) as [x|] eqn:E.
  - destruct (MakeFixedVar_hit s v x E) as [targs ->]. simpl.
    split; eauto.
  - destruct (MakeFixedVar_miss s v E) as [targs ->]. simpl. split.
    + intros u x Hu. now apply fixed_find_assign_keeps.
    + intros i a Ha. exists a. split; auto. now apply zth_app_l.
Qed.

Lemma cache_ext_run_rule {Body} (cfg : Config Body) (r : Rule Body) s :
  cache_ext s (snd (run_rule cfg r s)).
Proof.
  revert s. apply (preserves_run_rule cfg cache_ext).
  - apply cache_ext_refl.
  - apply cache_ext_trans.
  - intros lb ub ty s. simpl. split; auto.
    intros i a Ha. exists a. split; auto. now apply zth_app_l.
  - intros v x s. unfold model_set_lb. destruct (zth _ _); simpl.
    + now apply cache_ext_set_bound.
    + apply cache_ext_refl.
  - intros v x s. unfold model_set_ub. destruct (zth _ _); simpl.
    + now apply cache_ext_set_bound.
    + apply cache_ext_refl.
  - intros t c s. simpl. split; eauto.
  - intros v s. apply cache_ext_MakeFixedVar.
  - intros s src targs. split; eauto.
  - intros s x. split; eauto.
  - intros s x. split; eauto.
Qed.

Lemma AddVar_fixed {Body} (s : FlatConverter Body) lb ub ty :
  deq lb ub = true -> AddVar lb ub ty s = MakeFixedVar lb s.
Proof. unfold AddVar, dne, deq. now intros ->. Qed.

(** Any call of [MakeFixedVar] on a number returns the cached variable. *)
Lemma MakeFixedVar_cached {Body} (s : FlatConverter Body) v :
  is_nan v = false ->
  exists r s1,
    MakeFixedVar v s = (Ok r, s1)
    /\ fixed_find v (map_fixed_vars_ s1) = Some (nr_index r)
    /\ (forall x, fixed_find v (map_fixed_vars_ s) = Some x ->
                  nr_index r = x /\ vars s1 = vars s
                  /\ map_fixed_vars_ s1 = map_fixed_vars_ s)
    /\ (fixed_find v (map_fixed_vars_ s) = None ->
        zth (vars s1) (nr_index r) =
        Some {| v_lb := v; v_ub := v; v_type := CONTINUOUS |}).
Proof.
  intros Hv. destruct (fixed_find v (map_fixed_vars_ s)) as [x|] eqn:E.
  - destruct (MakeFixedVar_hit s v x E) as [targs ->].
    eexists _, _. split; [reflexivity|]. simpl.
    split; [exact E|]. split; [|discriminate].
    intros y [= <-]. auto.
  - destruct (MakeFixedVar_miss s v E) as [targs ->].
    eexists _, _. split; [reflexivity|]. simpl.
    split; [now apply fixed_find_assign_same|].
    split; [discriminate|].
    intros _. unfold nr_index. simpl. apply zth_app_new.
Qed.

(** C5 (amended): for every value that is a number, [MakeFixedVar] consults
    the cache before creating a variable, two calls return the same
    variable and the second creates none; [AddVar] with [lb == ub] goes
    through the same cache. *)
Theorem C5_fixed_var_canonical :
  forall (Body : Type) (s : FlatConverter Body) (v : double),
    is_nan v = false ->
    exists r1 s1 r2 s2,
      MakeFixedVar v s = (Ok r1, s1)
      /\ MakeFixedVar v s1 = (Ok r2, s2)
      /\ nr_index r2 = nr_index r1
      /\ vars s2 = vars s1
      /\ map_fixed_vars_ s2 = map_fixed_vars_ s1
      /\ fixed_find v (map_fixed_vars_ s1) = Some (nr_index r1)
      /\ (forall x, fixed_find v (map_fixed_vars_ s) = Some x ->
                    nr_index r1 = x /\ vars s1 = vars s)
      /\ (forall lb ub ty, deq lb ub = true ->
                           AddVar lb ub ty s = MakeFixedVar lb s).
Proof.
  intros Body s v Hv.
  destruct (MakeFixedVar_cached s v Hv) as (r1 & s1 & E1 & F1 & H1 & _).
  destruct (MakeFixedVar_cached s1 v Hv) as (r2 & s2 & E2 & F2 & H2 & _).
  destruct (H2 _ F1) as (I & V & C).
  exists r1, s1, r2, s2. repeat split; auto.
  - now apply H1.
  - apply (H1 _ H).
  - intros; now apply AddVar_fixed.
Qed.

(** C5, as stated, fails at NaN: no key of the cache compares equal to
    NaN, so each call creates a variable. *)
Lemma C5_counterexample_nan :
  exists r1 s1 r2 s2,
    MakeFixedVar S754_nan (@empty_converter unit 0) = (Ok r1, s1)
    /\ MakeFixedVar S754_nan s1 = (Ok r2, s2)
    /\ nr_index r1 <> nr_index r2
    /\ length (vars s2) = 2%nat.
Proof.
  eexists _, _, _, _. split; [reflexivity|]. split; [reflexivity|].
  split; [discriminate|reflexivity].
Qed.

(** C10: [AddVar(lb, ub, type)] with [lb == ub] does not look at [type]:
    it returns the cached fixed variable of the value, which on creation is
    continuous with both bounds at the value; any later request with equal
    bounds of the same value, whatever its type and whatever converter
    calls came in between, returns the same variable and creates none. *)
Theorem C10_fixed_var_ignores_type :
  forall (Body : Type) (cfg : Config Body) (s : FlatConverter Body)
         (lb ub : double) (ty : VarType),
    deq lb ub = true ->
    exists r s1,
      AddVar lb ub ty s = (Ok r, s1)
      /\ (forall ty', AddVar lb ub ty' s = (Ok r, s1))
      /\ fixed_find lb (map_fixed_vars_ s1) = Some (nr_index r)
      /\ (fixed_find lb (map_fixed_vars_ s) = None ->
          zth (vars s1) (nr_index r) =
          Some {| v_lb := lb; v_ub := lb; v_type := CONTINUOUS |})
      /\ (forall (later : Rule Body) lb' ub' ty',
            deq lb' ub' = true -> deq lb' lb = true ->
            exists r' s3,
              AddVar lb' ub' ty' (snd (run_rule cfg later s1)) = (Ok r', s3)
              /\ nr_index r' = nr_index r
              /\ vars s3 = vars (snd (run_rule cfg later s1))
              /\ (forall a, zth (vars s1) (nr_index r) = Some a ->
                    exists a', zth (vars s3) (nr_index r) = Some a'
                               /\ v_type a' = v_type a)).
Proof.
  intros Body cfg s lb ub ty Heq.
  assert (is_nan lb = false) as Hlb by (apply deq_not_nan in Heq; tauto).
  destruct (MakeFixedVar_cached s lb Hlb) as (r & s1 & E1 & F1 & H1 & C1).
  exists r, s1. split; [now rewrite AddVar_fixed|].
  split; [intros; now rewrite AddVar_fixed|].
  split; [exact F1|]. split; [exact C1|].
  intros later lb' ub' ty' Heq' Hsame.
  set (s2 := snd (run_rule cfg later s1)).
  destruct (cache_ext_run_rule cfg later s1) as [Hc Hv]. fold s2 in Hc, Hv.
  assert (is_nan lb' = false) as Hlb' by (apply deq_not_nan in Heq'; tauto).
  destruct (MakeFixedVar_cached s2 lb' Hlb') as (r' & s3 & E3 & F3 & H3 & _).
  assert (fixed_find lb' (map_fixed_vars_ s2) = Some (nr_index r)) as F2.
  { rewrite (fixed_find_deq lb' lb _ Hsame). now apply Hc. }
  destruct (H3 _ F2) as (I & V & _).
  exists r', s3. split; [now rewrite AddVar_fixed|].
  split; [exact I|]. split; [exact V|].
  intros a Ha. rewrite V. now apply Hv.
Qed.

(* ------------------------------------------------------------------ *)
(** ** Adding constraints *)

Lemma fupd_same {X} (f : ConType -> X) t x : fupd f t x t = x.
Proof. unfold fupd. now destruct (ConType_eq_dec t t). Qed.

Lemma fupd_other {X} (f : ConType -> X) t t' x :
  t <> t' -> fupd f t x t' = f t'.
Proof. unfold fupd. now destruct (ConType_eq_dec t t'). Qed.


Lemma after_store_keepers {Body} (s : FlatConverter Body) t con :
  keepers (after_store s t con) =
  fupd (keepers s) t
       (keepers s t ++ [{| con_ := con; is_converted := false |}]).
Proof. unfold after_store. now destruct (0 <=? result_var con). Qed.

Lemma after_store_con_maps {Body} (s : FlatConverter Body) t con :
  con_maps (after_store s t con) = con_maps s.
Proof. unfold after_store. now destruct (0 <=? result_var con). Qed.

Lemma AddConstraintAndTryNoteResultVariable_eq
      {Body} (cfg : Config Body) (s : FlatConverter Body) t con :
  AddConstraintAndTryNoteResultVariable cfg t con s =
  let i := Z.of_nat (length (keepers s t)) in
  let s2 := after_store s t con in
  if is_mapped t then
    match map_find cfg (body con) (con_maps s t) with
    | Some _ => (Throw (Error (msg_duplicate cfg t)), s2)
    | None =>
        (Ok (SelectValueNodeRange t i),
         set_con_maps s2 (fupd (con_maps s2) t
                            (con_maps s2 t ++ [(body con, i)])))
    end
  else (Ok (SelectValueNodeRange t i), s2).
Proof.
  unfold AddConstraintAndTryNoteResultVariable.
  unfold bind at 1. unfold ck_AddConstraint at 1.
  set (i := Z.of_nat (length (keepers s t))).
  set (s1 := set_keepers s _).
  assert ((if 0 <=? result_var con
           then AddInitExpression (result_var con)
                  {| ci_keeper := t; ci_index := i |}
           else ret tt) s1 = (Ok tt, after_store s t con)) as H1.
  { unfold after_store. fold i. fold s1.
    destruct (0 <=? result_var con); reflexivity. }
  rewrite (bind_ok _ _ _ _ _ H1).
  assert (GetConstraint t i (after_store s t con)
          = (Ok con, after_store s t con)) as H2.
  { unfold GetConstraint. rewrite after_store_keepers, fupd_same.
    unfold i. now rewrite zth_app_new. }
  rewrite (bind_ok _ _ _ _ _ H2).
  unfold MapInsert. cbv zeta. destruct (is_mapped t).
  - unfold bind, MapInsert__Impl. rewrite after_store_con_maps.
    destruct (map_find cfg (body con) (con_maps s t)); reflexivity.
  - reflexivity.
Qed.

Lemma contains_suffix (pre s : string) : contains (pre ++ s) s.
Proof.
  exists pre, EmptyString. f_equal.
  induction s; simpl; congruence.
Qed.

(** C4: for a type stored with a map, [AddConstraint] inserts the stored
    constraint into the map; when the map already holds a structurally
    equal constraint it raises the error "Trying to MapInsert() duplicated
    constraint: " followed by the keeper's description (the keeper has
    appended the constraint by then, the map is unchanged). *)
Theorem C4_duplicate_map_insert :
  forall (Body : Type) (cfg : Config Body) (s : FlatConverter Body)
         (t : ConType) (con : Constraint Body),
    is_mapped t = true ->
    (map_find cfg (body con) (con_maps s t) = None ->
     exists nr s',
       AddConstraint cfg t con s = (Ok nr, s')
       /\ nr = SelectValueNodeRange t (Z.of_nat (length (keepers s t)))
       /\ con_maps s' t =
          con_maps s t ++ [(body con, Z.of_nat (length (keepers s t)))]
       /\ keepers s' t =
          keepers s t ++ [{| con_ := con; is_converted := false |}])
    /\ (forall j,
          map_find cfg (body con) (con_maps s t) = Some j ->
          exists s',
            AddConstraint cfg t con s
            = (Throw (Error (msg_duplicate cfg t)), s')
            /\ contains (msg_duplicate cfg t) (GetDescription cfg t)
            /\ con_maps s' t = con_maps s t
            /\ keepers s' t =
               keepers s t ++ [{| con_ := con; is_converted := false |}]).
Proof.
  intros Body cfg s t con Hm. split.
  - intros Hmiss. unfold AddConstraint.
    pose proof (AddConstraintAndTryNoteResultVariable_eq cfg s t con) as E.
    cbv zeta in E. rewrite Hm, Hmiss in E.
    rewrite (bind_ok _ _ _ _ _ E).
    destruct (AutoLink_eq
                (set_con_maps (after_store s t con)
                   (fupd (con_maps (after_store s t con)) t
                      (con_maps (after_store s t con) t
                         ++ [(body con, Z.of_nat (length (keepers s t)))])))
                (SelectValueNodeRange t (Z.of_nat (length (keepers s t)))))
      as [targs ->].
    eexists _, _. split; [reflexivity|]. split; [reflexivity|].
    cbn [con_maps keepers set_auto_link set_con_maps].
    rewrite fupd_same, after_store_con_maps, after_store_keepers, fupd_same.
    split; reflexivity.
  - intros j Hhit. unfold AddConstraint.
    pose proof (AddConstraintAndTryNoteResultVariable_eq cfg s t con) as E.
    cbv zeta in E. rewrite Hm, Hhit in E.
    rewrite (bind_throw _ _ _ _ _ E).
    eexists. split; [reflexivity|].
    split; [apply contains_suffix|].
    rewrite after_store_con_maps, after_store_keepers, fupd_same.
    split; reflexivity.
Qed.

(* ------------------------------------------------------------------ *)
(** ** Expressions to variables *)

(** [MakeFixedVar] always returns: the cached variable, or a new one
    fixed at the value. *)
Lemma MakeFixedVar_result {Body} (s : FlatConverter Body) v :
  exists r s',
    MakeFixedVar v s = (Ok r, s')
    /\ (forall x, fixed_find v (map_fixed_vars_ s) = Some x ->
                  nr_index r = x /\ vars s' = vars s)
    /\ (fixed_find v (map_fixed_vars_ s) = None ->
        zth (vars s') (nr_index r) =
        Some {| v_lb := v; v_ub := v; v_type := CONTINUOUS |}).
Proof.
  destruct (fixed_find v (map_fixed_vars_ s)) as [x|] eqn:E.
  - destruct (MakeFixedVar_hit s v x E) as [targs ->].
    eexists _, _. split; [reflexivity|]. split; [|discriminate].
    intros y [= <-]. auto.
  - destruct (MakeFixedVar_miss s v E) as [targs ->].
    eexists _, _. split; [reflexivity|]. split; [discriminate|].
    intros _. unfold nr_index. simpl. apply zth_app_new.
Qed.

(** [AddVar] always returns, and touches neither keepers nor maps. *)
Lemma AddVar_result {Body} (s : FlatConverter Body) lb ub ty :
  exists r s1,
    AddVar lb ub ty s = (Ok r, s1)
    /\ keepers s1 = keepers s /\ con_maps s1 = con_maps s.
Proof.
  unfold AddVar. destruct (dne lb ub).
  - unfold DoAddVar, bind, AddVar__basic.
    destruct (AutoLink_eq
                (set_vars s (vars s ++ [{| v_lb := lb; v_ub := ub;
                                           v_type := ty |}]))
                (Select GetVarValueNode (Z.of_nat (length (vars s)))))
      as [targs ->].
    eexists _, _. split; [reflexivity|]. split; reflexivity.
  - destruct (fixed_find lb (map_fixed_vars_ s)) as [x|] eqn:E.
    + destruct (MakeFixedVar_hit s lb x E) as [targs ->].
      eexists _, _. split; [reflexivity|]. split; reflexivity.
    + destruct (MakeFixedVar_miss s lb E) as [targs ->].
      eexists _, _. split; [reflexivity|]. split; reflexivity.
Qed.

(** A constraint that the map of its type does not hold is stored last in
    its keeper. *)
Lemma AddConstraint_fresh {Body} (cfg : Config Body) t c
      (s : FlatConverter Body) :
  is_mapped t = false \/ map_find cfg (body c) (con_maps s t) = None ->
  exists nr s1,
    AddConstraint cfg t c s = (Ok nr, s1)
    /\ zth (keepers s1 t) (Z.of_nat (length (keepers s t)))
       = Some {| con_ := c; is_converted := false |}
    /\ vars s1 = vars s.
Proof.
  intros H. unfold AddConstraint.
  pose proof (AddConstraintAndTryNoteResultVariable_eq cfg s t c) as E.
  cbv zeta in E.
  assert (Hv : vars (after_store s t c) = vars s).
  { unfold after_store. destruct (0 <=? result_var c); reflexivity. }
  assert (Hk : zth (keepers (after_store s t c) t)
                   (Z.of_nat (length (keepers s t)))
               = Some {| con_ := c; is_converted := false |}).
  { rewrite after_store_keepers, fupd_same. apply zth_app_new. }
  assert (exists s0,
             AddConstraintAndTryNoteResultVariable cfg t c s
             = (Ok (SelectValueNodeRange t (Z.of_nat (length (keepers s t)))),
                s0)
             /\ keepers s0 = keepers (after_store s t c)
             /\ vars s0 = vars (after_store s t c))
    as (s0 & E0 & K0 & V0).
  { destruct (is_mapped t).
    - destruct H as [H|H]; [discriminate|]. rewrite H in E.
      eexists. split; [exact E|]. split; reflexivity.
    - eexists. split; [exact E|]. split; reflexivity. }
  rewrite (bind_ok _ _ _ _ _ E0).
  destruct (AutoLink_eq s0 (SelectValueNodeRange t
                              (Z.of_nat (length (keepers s t)))))
    as [targs ->].
  eexists _, _. split; [reflexivity|]. simpl. rewrite K0, V0. auto.
Qed.

(** [AssignResultVar2Args] after [AssignResult2Args]. *)
Lemma AssignResultVar2Args_after {Body} (cfg : Config Body) t fc
      (s s1 : FlatConverter Body) vc :
  AssignResult2Args cfg t fc s = (Ok vc, s1) ->
  AssignResultVar2Args cfg t fc s =
  match vc with
  | VC_Var v => (Ok v, s1)
  | VC_Const c => (r <- MakeFixedVar c ;; ret (nr_index r)) s1
  end.
Proof.
  intros H. unfold AssignResultVar2Args. rewrite (bind_ok _ _ _ _ _ H).
  destruct vc; reflexivity.
Qed.

Lemma AssignResult2Args_hit {Body} (cfg : Config Body) t fc
      (s : FlatConverter Body) i st :
  TryFold cfg t (body fc) = None ->
  is_mapped t = true ->
  map_find cfg (body fc) (con_maps s t) = Some i ->
  zth (keepers s t) i = Some st ->
  AssignResult2Args cfg t fc s = (Ok (VC_Var (result_var (con_ st))), s).
Proof.
  intros Hf Hm Hi Hst. unfold AssignResult2Args. rewrite Hf.
  assert (E : MapFind cfg t fc s = (Ok i, s)).
  { unfold MapFind, MapFind__Impl. now rewrite Hm, Hi. }
  rewrite (bind_ok _ _ _ _ _ E).
  destruct (Z.leb_spec 0 i) as [_|Hn];
    [|apply zth_Some_range in Hst; lia].
  assert (G : GetConstraint t i s = (Ok (con_ st), s)).
  { unfold GetConstraint. now rewrite Hst. }
  now rewrite (bind_ok _ _ _ _ _ G).
Qed.

Lemma AssignResult2Args_fresh {Body} (cfg : Config Body) t fc
      (s : FlatConverter Body) l u ty :
  TryFold cfg t (body fc) = None ->
  is_mapped t = false \/ map_find cfg (body fc) (con_maps s t) = None ->
  ComputeBoundsAndType cfg t (body fc) (vars s) = (l, u, ty) ->
  exists r s1 s',
    AddVar l u ty s = (Ok r, s1)
    /\ AssignResult2Args cfg t fc s = (Ok (VC_Var (nr_index r)), s')
    /\ zth (keepers s' t) (Z.of_nat (length (keepers s t)))
       = Some {| con_ := SetResultVar fc (nr_index r);
                 is_converted := false |}
    /\ vars s' = vars s1.
Proof.
  intros Hf Hm Hb. unfold AssignResult2Args. rewrite Hf.
  assert (E : MapFind cfg t fc s = (Ok (-1), s)).
  { unfold MapFind, MapFind__Impl.
    destruct (is_mapped t); [|reflexivity].
    destruct Hm as [Hm|Hm]; [discriminate|]. now rewrite Hm. }
  rewrite (bind_ok _ _ _ _ _ E). cbn [Z.leb Z.compare].
  rewrite (bind_ok get _ s s s eq_refl). rewrite Hb.
  destruct (AddVar_result s l u ty) as (r & s1 & Ea & Hk & Hc).
  rewrite (bind_ok _ _ _ _ _ Ea).
  destruct (AddConstraint_fresh cfg t (SetResultVar fc (nr_index r)) s1)
    as (nr & s' & Ec & Hz & Hv).
  { simpl body. rewrite Hc. exact Hm. }
  rewrite (bind_ok _ _ _ _ _ Ec).
  exists r, s1, s'. split; [exact Ea|]. split; [reflexivity|].
  rewrite Hk in Hz. split; [exact Hz|exact Hv].
Qed.

(** C6: the case analysis of [Convert2Var]: a single variable is returned
    as it is, the converter untouched; a constant gives the fixed variable
    of [MakeFixedVar] (the cached one, else a new continuous variable with
    both bounds at the constant); any other affine expression, also a
    quadratic one whose quadratic part is empty, is wrapped into a
    [LinearFunctionalConstraint], and a properly quadratic one into a
    [QuadraticFunctionalConstraint], the result being the variable of
    [AssignResultVar2Args].  That variable is the one [AssignResult2Args]
    gives, or the fixed variable of the constant it gives, in the
    converter it leaves; a failure is passed on.  By the algorithm of
    [AssignResult2Args] it is the fixed variable of the folded constant,
    or the result variable of the equal constraint found in the map, or
    a variable added with the bounds and type computed for the
    constraint, which is stored last in its keeper with that variable as
    its result variable. *)
Theorem C6_convert2var_cases :
  forall (Body : Type) (cfg : Config Body)
         (AffineExpr QuadraticExpr : Type)
         (ei : ExprInterface Body AffineExpr QuadraticExpr)
         (s : FlatConverter Body),
    (forall ee : AffineExpr,
        (ae_is_variable ei ee = true ->
         Convert2Var_affine cfg ei ee s
         = (Ok (ae_get_representing_variable ei ee), s))
        /\ (ae_is_variable ei ee = false -> ae_is_constant ei ee = true ->
            exists r s',
              MakeFixedVar (ae_constant_term ei ee) s = (Ok r, s')
              /\ Convert2Var_affine cfg ei ee s = (Ok (nr_index r), s')
              /\ (forall x,
                    fixed_find (ae_constant_term ei ee) (map_fixed_vars_ s)
                    = Some x -> nr_index r = x /\ vars s' = vars s)
              /\ (fixed_find (ae_constant_term ei ee) (map_fixed_vars_ s)
                  = None ->
                  zth (vars s') (nr_index r) =
                  Some {| v_lb := ae_constant_term ei ee;
                          v_ub := ae_constant_term ei ee;
                          v_type := CONTINUOUS |}))
        /\ (ae_is_variable ei ee = false -> ae_is_constant ei ee = false ->
            Convert2Var_affine cfg ei ee s
            = AssignResultVar2Args cfg LinearFunctionalConstraint
                (make_LFC ei ee) s))
    /\ (forall ee : QuadraticExpr,
        (qe_is_variable ei ee = true ->
         Convert2Var_quadratic cfg ei ee s
         = (Ok (qe_get_representing_variable ei ee), s))
        /\ (qe_is_variable ei ee = false -> qe_is_constant ei ee = true ->
            exists r s',
              MakeFixedVar (qe_constant_term ei ee) s = (Ok r, s')
              /\ Convert2Var_quadratic cfg ei ee s = (Ok (nr_index r), s')
              /\ (forall x,
                    fixed_find (qe_constant_term ei ee) (map_fixed_vars_ s)
                    = Some x -> nr_index r = x /\ vars s' = vars s)
              /\ (fixed_find (qe_constant_term ei ee) (map_fixed_vars_ s)
                  = None ->
                  zth (vars s') (nr_index r) =
                  Some {| v_lb := qe_constant_term ei ee;
                          v_ub := qe_constant_term ei ee;
                          v_type := CONTINUOUS |}))
        /\ (qe_is_variable ei ee = false -> qe_is_constant ei ee = false ->
            qe_is_affine ei ee = true ->
            Convert2Var_quadratic cfg ei ee s
            = AssignResultVar2Args cfg LinearFunctionalConstraint
                (make_LFC ei (MoveOutAffineExpr ei ee)) s)
        /\ (qe_is_variable ei ee = false -> qe_is_constant ei ee = false ->
            qe_is_affine ei ee = false ->
            Convert2Var_quadratic cfg ei ee s
            = AssignResultVar2Args cfg QuadraticFunctionalConstraint
                (make_QFC ei ee) s))
    /\ (forall (t : ConType) (fc : Constraint Body),
        (forall v s1,
            AssignResult2Args cfg t fc s = (Ok (VC_Var v), s1) ->
            AssignResultVar2Args cfg t fc s = (Ok v, s1))
        /\ (forall c s1,
              AssignResult2Args cfg t fc s = (Ok (VC_Const c), s1) ->
              exists r s',
                MakeFixedVar c s1 = (Ok r, s')
                /\ AssignResultVar2Args cfg t fc s = (Ok (nr_index r), s'))
        /\ (forall e s1,
              AssignResult2Args cfg t fc s = (Throw e, s1) ->
              AssignResultVar2Args cfg t fc s = (Throw e, s1))
        /\ (forall c,
              TryFold cfg t (body fc) = Some c ->
              exists r s',
                MakeFixedVar c s = (Ok r, s')
                /\ AssignResultVar2Args cfg t fc s = (Ok (nr_index r), s'))
        /\ (forall i st,
              TryFold cfg t (body fc) = None ->
              is_mapped t = true ->
              map_find cfg (body fc) (con_maps s t) = Some i ->
              zth (keepers s t) i = Some st ->
              AssignResultVar2Args cfg t fc s
              = (Ok (result_var (con_ st)), s))
        /\ (forall l u ty,
              TryFold cfg t (body fc) = None ->
              is_mapped t = false
              \/ map_find cfg (body fc) (con_maps s t) = None ->
              ComputeBoundsAndType cfg t (body fc) (vars s) = (l, u, ty) ->
              exists r s1 s',
                AddVar l u ty s = (Ok r, s1)
                /\ AssignResultVar2Args cfg t fc s = (Ok (nr_index r), s')
                /\ zth (keepers s' t) (Z.of_nat (length (keepers s t)))
                   = Some {| con_ := SetResultVar fc (nr_index r);
                             is_converted := false |}
                /\ vars s' = vars s1)).
Proof.
  intros Body cfg AffineExpr QuadraticExpr ei s.
  split; [|split]; [intros ee|intros ee|intros t fc].
  - unfold Convert2Var_affine. repeat split.
    + now intros ->.
    + intros -> ->.
      destruct (MakeFixedVar_result s (ae_constant_term ei ee))
        as (r & s' & E & Hh & Hm).
      exists r, s'. split; [exact E|].
      split; [now rewrite (bind_ok _ _ _ _ _ E)|]. split; assumption.
    + now intros -> ->.
  - unfold Convert2Var_quadratic. repeat split.
    + now intros ->.
    + intros -> ->.
      destruct (MakeFixedVar_result s (qe_constant_term ei ee))
        as (r & s' & E & Hh & Hm).
      exists r, s'. split; [exact E|].
      split; [now rewrite (bind_ok _ _ _ _ _ E)|]. split; assumption.
    + now intros -> -> ->.
    + now intros -> -> ->.
  - assert (Hconst : forall c s1,
               AssignResult2Args cfg t fc s = (Ok (VC_Const c), s1) ->
               exists r s',
                 MakeFixedVar c s1 = (Ok r, s')
                 /\ AssignResultVar2Args cfg t fc s
                    = (Ok (nr_index r), s')).
    { intros c s1 H.
      rewrite (AssignResultVar2Args_after cfg t fc s s1 _ H).
      destruct (MakeFixedVar_result s1 c) as (r & s' & E & _).
      exists r, s'. split; [exact E|].
      now rewrite (bind_ok _ _ _ _ _ E). }
    split; [|split; [exact Hconst|split; [|split; [|split]]]].
    + intros v s1 H.
      exact (AssignResultVar2Args_after cfg t fc s s1 _ H).
    + intros e s1 H. unfold AssignResultVar2Args.
      now rewrite (bind_throw _ _ _ _ _ H).
    + intros c Hf. apply Hconst.
      unfold AssignResult2Args. now rewrite Hf.
    + intros i st Hf Hm Hi Hst.
      exact (AssignResultVar2Args_after cfg t fc s s _
               (AssignResult2Args_hit cfg t fc s i st Hf Hm Hi Hst)).
    + intros l u ty Hf Hm Hb.
      destruct (AssignResult2Args_fresh cfg t fc s l u ty Hf Hm Hb)
        as (r & s1 & s' & Ea & E & Hz & Hv).
      exists r, s1, s'. split; [exact Ea|].
      split; [exact (AssignResultVar2Args_after cfg t fc s s' _ E)|].
      split; [exact Hz|exact Hv].
Qed.

(* ------------------------------------------------------------------ *)
(** ** Running one conversion *)


Lemma SetContext_same {Body} (c : Constraint Body) :
  SetContext c (context c) = c.
Proof. now destruct c. Qed.

Lemma RunConversion_eq {Body} (cfg : Config Body) t i st s :
  zth (keepers s t) i = Some st ->
  RunConversion cfg t i s =
  scoped (SetAutoLinkSource (SelectValueNodeRange t i) ;;
          Convert cfg t
            (SetContext (con_ st) (context_for_conversion cfg t (con_ st)))
            i)
         (@close_auto_link_scope Body)
         (state_at_dispatch cfg t i st s)
  /\ zth (keepers (state_at_dispatch cfg t i st s) t) i =
     Some {| con_ := SetContext (con_ st)
                       (context_for_conversion cfg t (con_ st));
             is_converted := is_converted st |}.
Proof.
  intros Hst. unfold RunConversion.
  assert (GetConstraint t i s = (Ok (con_ st), s)) as E1.
  { unfold GetConstraint. now rewrite Hst. }
  rewrite (bind_ok _ _ _ _ _ E1).
  unfold context_for_conversion, state_at_dispatch.
  destruct (UsesContext cfg t); cbn [andb].
  - destruct (IsNone (context (con_ st))) eqn:En.
    + unfold set_stored_context at 1. unfold bind at 1, modify at 1.
      set (s1 := set_keepers s _).
      assert (zth (keepers s1 t) i =
              Some {| con_ := SetContext (con_ st) CTX_MIX;
                      is_converted := is_converted st |}) as H1.
      { unfold s1. cbn [keepers set_keepers].
        now rewrite fupd_same, zth_zupd_same, Hst. }
      assert (GetConstraint t i s1
              = (Ok (SetContext (con_ st) CTX_MIX), s1)) as E2.
      { unfold GetConstraint. now rewrite H1. }
      rewrite (bind_ok _ _ _ _ _ E2). split; [reflexivity|exact H1].
    + unfold bind at 1, ret at 1.
      rewrite (bind_ok _ _ _ _ _ E1), SetContext_same.
      split; [reflexivity|now destruct st].
  - unfold bind at 1, ret at 1.
    rewrite (bind_ok _ _ _ _ _ E1), SetContext_same.
    split; [reflexivity|now destruct st].
Qed.

(** C7: when [RunConversion] dispatches [Convert] on the constraint stored
    at index [i], a constraint whose type uses context and whose context
    was None has context Mixed, in the keeper and as passed to [Convert];
    in every other case the constraint and the converter are as they were
    on entry. *)
Theorem C7_run_conversion_context :
  forall (Body : Type) (cfg : Config Body) (s : FlatConverter Body)
         (t : ConType) (i : Z) (st : Stored Body),
    zth (keepers s t) i = Some st ->
    exists c' s1,
      RunConversion cfg t i s =
      scoped (SetAutoLinkSource (SelectValueNodeRange t i) ;;
              Convert cfg t c' i)
             (@close_auto_link_scope Body) s1
      /\ zth (keepers s1 t) i =
         Some {| con_ := c'; is_converted := is_converted st |}
      /\ body c' = body (con_ st)
      /\ result_var c' = result_var (con_ st)
      /\ (UsesContext cfg t = true -> context (con_ st) = CTX_NONE ->
          context c' = CTX_MIX)
      /\ (UsesContext cfg t = false \/ context (con_ st) <> CTX_NONE ->
          c' = con_ st /\ s1 = s).
Proof.
  intros Body cfg s t i st Hst.
  destruct (RunConversion_eq cfg t i st s Hst) as [E H].
  eexists _, _. split; [exact E|]. split; [exact H|].
  unfold context_for_conversion, state_at_dispatch.
  split; [reflexivity|]. split; [reflexivity|]. split.
  - intros -> ->. reflexivity.
  - intros [->|Hc].
    + now rewrite SetContext_same.
    + destruct (context (con_ st)) eqn:Ec; try congruence;
        destruct (UsesContext cfg t); cbn [IsNone andb];
        rewrite <- Ec, SetContext_same; auto.
Qed.

(* ------------------------------------------------------------------ *)
(** ** Keepers only grow *)


Lemma same_item_refl {Body} (st : Stored Body) : same_item st st.
Proof. repeat split. Qed.

Lemma ext_refl {Body} (s : FlatConverter Body) : ext s s.
Proof. split; eauto using same_item_refl. Qed.

Lemma ext_trans {Body} (a b c : FlatConverter Body) :
  ext a b -> ext b c -> ext a c.
Proof.
  intros [M1 H1] [M2 H2]. split; [congruence|].
  intros t i st Hst.
  destruct (H1 _ _ _ Hst) as (st1 & Hst1 & B1 & R1 & C1).
  destruct (H2 _ _ _ Hst1) as (st2 & Hst2 & B2 & R2 & C2).
  exists st2. split; [exact Hst2|]. repeat split; congruence.
Qed.

Lemma ext_same_keepers {Body} (s s' : FlatConverter Body) :
  keepers s' = keepers s -> modelapi_ s' = modelapi_ s -> ext s s'.
Proof.
  intros K Ma. split; [exact Ma|]. rewrite K.
  eauto using same_item_refl.
Qed.

Lemma ext_grows {Body} (s s' : FlatConverter Body) : ext s s' -> grows s s'.
Proof.
  intros [Ma H]. split; [exact Ma|]. intros t i st Hst.
  destruct (H _ _ _ Hst) as (st' & ? & ? & ? & E).
  exists st'. repeat split; auto. congruence.
Qed.

Lemma grows_refl {Body} (s : FlatConverter Body) : grows s s.
Proof. split; [reflexivity|]. intros t i st Hst. eauto. Qed.

Lemma grows_trans {Body} (a b c : FlatConverter Body) :
  grows a b -> grows b c -> grows a c.
Proof.
  intros [M1 H1] [M2 H2]. split; [congruence|]. intros t i st Hst.
  destruct (H1 _ _ _ Hst) as (st1 & Hst1 & B1 & R1 & C1).
  destruct (H2 _ _ _ Hst1) as (st2 & Hst2 & B2 & R2 & C2).
  exists st2. split; [exact Hst2|]. repeat split; try congruence. auto.
Qed.

Lemma ext_keeper_update {Body} (s : FlatConverter Body) t i f :
  (forall st, same_item st (f st)) ->
  ext s (set_keepers s (fupd (keepers s) t (zupd (keepers s t) i f))).
Proof.
  intros Hf. split; [reflexivity|]. cbn [keepers set_keepers].
  intros t' j st Hst. destruct (ConType_eq_dec t t') as [<-|Hne].
  - rewrite fupd_same. destruct (Z.eq_dec i j) as [<-|Hij].
    + rewrite zth_zupd_same, Hst. simpl. eauto.
    + rewrite zth_zupd_other by exact Hij. eauto using same_item_refl.
  - rewrite fupd_other by exact Hne. eauto using same_item_refl.
Qed.

Lemma ext_keeper_append {Body} (s : FlatConverter Body) t x :
  ext s (set_keepers s (fupd (keepers s) t (keepers s t ++ [x]))).
Proof.
  split; [reflexivity|]. cbn [keepers set_keepers].
  intros t' j st Hst. destruct (ConType_eq_dec t t') as [<-|Hne].
  - rewrite fupd_same. exists st. split; [now apply zth_app_l|].
    apply same_item_refl.
  - rewrite fupd_other by exact Hne. eauto using same_item_refl.
Qed.

Lemma ext_MakeFixedVar {Body} (s : FlatConverter Body) v :
  ext s (snd (MakeFixedVar v s)).
Proof.
  destruct (fixed_find v (map_fixed_vars_ s)) as [x|] eqn:E.
  - destruct (MakeFixedVar_hit s v x E) as [targs ->].
    now apply ext_same_keepers.
  - destruct (MakeFixedVar_miss s v E) as [targs ->].
    now apply ext_same_keepers.
Qed.

(** Running the conversion of one item keeps the items stored. *)
Lemma ext_RunConversion {Body} (cfg : Config Body) t i s :
  ext s (snd (RunConversion cfg t i s)).
Proof.
  revert s. apply (preserves_RunConversion cfg ext).
  - apply ext_refl.
  - apply ext_trans.
  - intros lb ub ty s. now apply ext_same_keepers.
  - intros v x s. unfold model_set_lb.
    destruct (zth _ _); now apply ext_same_keepers.
  - intros v x s. unfold model_set_ub.
    destruct (zth _ _); now apply ext_same_keepers.
  - intros t' c s. apply ext_keeper_append.
  - intros t' j ctx s. apply ext_keeper_update.
    intros st. repeat split.
  - intros v s. apply ext_MakeFixedVar.
  - intros s src targs. now apply ext_same_keepers.
  - intros s x. now apply ext_same_keepers.
  - intros s x. now apply ext_same_keepers.
  - intros s x. now apply ext_same_keepers.
Qed.

Lemma grows_mark_converted {Body} (s : FlatConverter Body) t i :
  grows s (snd (mark_converted t i s)).
Proof.
  cbn. split; [reflexivity|]. intros t' j st Hst. cbn [keepers set_keepers].
  destruct (ConType_eq_dec t t') as [<-|Hne].
  - rewrite fupd_same. destruct (Z.eq_dec i j) as [<-|Hij].
    + rewrite zth_zupd_same, Hst. simpl. eexists. split; [reflexivity|].
      simpl. auto.
    + rewrite zth_zupd_other by exact Hij. eauto.
  - rewrite fupd_other by exact Hne. eauto.
Qed.

Section Loops.

Context {Body : Type} (cfg : Config Body).


Lemma grows_convert_item t st i (s : FlatConverter Body) :
  grows s (snd (convert_item cfg t st i s)).
Proof.
  unfold convert_item. destruct (needs_conversion cfg t st i).
  - unfold bind. pose proof (ext_RunConversion cfg t i s) as H.
    destruct (RunConversion cfg t i s) as [[[]|e] s1]; simpl in *.
    + eapply grows_trans; [apply ext_grows; exact H|].
      apply (grows_mark_converted s1 t i).
    + now apply ext_grows.
  - apply grows_refl.
Qed.

Lemma ck_ConvertAllConstraints_step fuel t i s :
  ck_ConvertAllConstraints cfg (S fuel) t i s =
  match zth (keepers s t) i with
  | None => (Ok tt, s)
  | Some st =>
      (convert_item cfg t st i ;; ck_ConvertAllConstraints cfg fuel t (i + 1)) s
  end.
Proof.
  cbn [ck_ConvertAllConstraints]. unfold bind at 1, get at 1.
  destruct (zth (keepers s t) i); reflexivity.
Qed.

Lemma grows_ck_ConvertAllConstraints fuel t i s :
  grows s (snd (ck_ConvertAllConstraints cfg fuel t i s)).
Proof.
  revert i s. induction fuel as [|fuel IH]; intros i s.
  - apply grows_refl.
  - rewrite ck_ConvertAllConstraints_step.
    destruct (zth (keepers s t) i) as [st|]; [|apply grows_refl].
    unfold bind. pose proof (grows_convert_item t st i s) as H.
    destruct (convert_item cfg t st i s) as [[[]|e] s1]; simpl in *; auto.
    eapply grows_trans; [exact H|apply IH].
Qed.

Lemma grows_for_each_keeper fuel ts s :
  grows s (snd (for_each_keeper cfg fuel ts s)).
Proof.
  revert s. induction ts as [|t ts IH]; intros s; cbn [for_each_keeper].
  - apply grows_refl.
  - unfold bind.
    pose proof (grows_ck_ConvertAllConstraints fuel t 0 s) as H.
    destruct (ck_ConvertAllConstraints cfg fuel t 0 s) as [[[]|e] s1];
      simpl in *; auto.
    eapply grows_trans; [exact H|apply IH].
Qed.

Lemma model_ConvertAllConstraints_step fuel s :
  model_ConvertAllConstraints cfg (S fuel) s =
  if pending cfg s
  then (for_each_keeper cfg fuel all_con_types ;;
        model_ConvertAllConstraints cfg fuel) s
  else (Ok tt, s).
Proof.
  cbn [model_ConvertAllConstraints]. unfold bind at 1, get at 1.
  destruct (pending cfg s); reflexivity.
Qed.

Lemma model_ConvertAllConstraints_ok fuel s s' :
  model_ConvertAllConstraints cfg fuel s = (Ok tt, s') ->
  pending cfg s' = false /\ grows s s'.
Proof.
  revert s. induction fuel as [|fuel IH]; intros s H.
  - discriminate.
  - rewrite model_ConvertAllConstraints_step in H.
    destruct (pending cfg s) eqn:Ep.
    + unfold bind in H.
      pose proof (grows_for_each_keeper fuel all_con_types s) as G.
      destruct (for_each_keeper cfg fuel all_con_types s)
        as [[[]|e] s1]; [|discriminate].
      destruct (IH _ H) as [P G']. split; [exact P|].
      eapply grows_trans; eauto.
    + injection H as <-. split; [exact Ep|apply grows_refl].
Qed.

End Loops.

(* ------------------------------------------------------------------ *)
(** ** The model after conversion *)

Lemma all_con_types_complete (t : ConType) : In t all_con_types.
Proof.
  destruct t; unfold all_con_types;
    repeat first [left; reflexivity | right].
Qed.

Lemma any_needs_false {Body} (cfg : Config Body) t l k :
  any_needs cfg t l k = false ->
  forall j st, nth_error l j = Some st ->
               needs_conversion cfg t st (k + Z.of_nat j) = false.
Proof.
  revert k. induction l as [|a l IH]; intros k H j st Hj.
  - destruct j; discriminate.
  - cbn [any_needs] in H. apply orb_false_iff in H as [H1 H2].
    destruct j as [|j]; simpl in Hj.
    + injection Hj as <-. now rewrite Z.add_0_r.
    + replace (k + Z.of_nat (S j)) with ((k + 1) + Z.of_nat j) by lia.
      now apply IH.
Qed.

(* ------------------------------------------------------------------ *)
(** ** A rejected type without a conversion rule *)


Lemma types_before_split t ts :
  In t ts -> exists rest, ts = types_before t ts ++ t :: rest.
Proof.
  induction ts as [|x ts IH]; intros H; [contradiction|].
  cbn [types_before]. destruct (ConType_eq_dec x t) as [->|Hne].
  - exists ts. reflexivity.
  - destruct H as [->|H]; [congruence|].
    destruct (IH H) as [rest E]. exists rest. simpl. congruence.
Qed.

Lemma string_app_assoc (a b c : string) :
  ((a ++ b) ++ c = a ++ (b ++ c))%string.
Proof. induction a; simpl; congruence. Qed.

Lemma contains_infix (a s b : string) : contains (a ++ s ++ b) s.
Proof. exists a, b. reflexivity. Qed.

Lemma msg_no_conversion_names {Body} (cfg : Config Body) t :
  contains (msg_no_conversion cfg t) (GetTypeName cfg t)
  /\ contains (msg_no_conversion cfg t) (ModelAPI_GetTypeName cfg).
Proof.
  unfold msg_no_conversion. split.
  - apply contains_infix.
  - exists ("Constraint type '" ++ GetTypeName cfg t
             ++ "' is neither accepted by '")%string,
           "', not is conversion implemented".
    now rewrite !string_app_assoc.
Qed.

(** A throw of the conversion loop leaves [FinishModelInput] as it is,
    but for a [ConstraintConversionFailure], which [ConvertItems] turns
    into a plain error of the same message. *)
Lemma FinishModelInput_throw {Body} (cfg : Config Body) fuel s e s1 :
  model_ConvertAllConstraints cfg fuel s = (Throw e, s1) ->
  FinishModelInput cfg fuel s =
  (Throw match e with
         | ConstraintConversionFailure _ msg => Error msg
         | _ => e
         end, s1).
Proof.
  intros H.
  unfold FinishModelInput, ConvertModel, ConvertItems, try_catch,
    ConvertAllConstraints, PrepareConversion, WindupConversion,
    ConvertMaps, PreprocessFinal.
  unfold bind, ret. rewrite H. destruct e; reflexivity.
Qed.

Section Blocked.

Context {Body : Type} (cfg : Config Body) (t : ConType) (i : Z).
Hypothesis Hacc : Accepts cfg t = NotAccepted.
Hypothesis Hrule : Convert_rule cfg t = None.

Lemma RunConversion_no_rule s st :
  zth (keepers s t) i = Some st ->
  exists s',
    RunConversion cfg t i s = (Throw (Error (msg_no_conversion cfg t)), s').
Proof.
  intros Hst. destruct (RunConversion_eq cfg t i st s Hst) as [-> _].
  unfold scoped, bind, SetAutoLinkSource, modify, Convert.
  rewrite Hrule. unfold Convert_default, raise. eauto.
Qed.

Lemma unconv_ext (s s' : FlatConverter Body) : ext s s' -> unconv t i s -> unconv t i s'.
Proof.
  intros [_ H] (st & Hst & Hc).
  destruct (H _ _ _ Hst) as (st' & Hst' & _ & _ & E).
  exists st'. split; [exact Hst'|congruence].
Qed.

Lemma unconv_mark (s : FlatConverter Body) t' j :
  (t' <> t \/ j <> i) -> unconv t i s ->
  unconv t i (snd (mark_converted t' j s)).
Proof.
  intros Hne (st & Hst & Hc). exists st. split; [|exact Hc].
  cbn. destruct (ConType_eq_dec t' t) as [->|Ht].
  - rewrite fupd_same, zth_zupd_other; [exact Hst|].
    destruct Hne; congruence.
  - now rewrite fupd_other.
Qed.

Lemma modelapi_mark (s : FlatConverter Body) t' j :
  modelapi_ (snd (mark_converted t' j s)) = modelapi_ s.
Proof. reflexivity. Qed.

Lemma convert_item_blocked t' st j (s : FlatConverter Body) :
  unconv t i s -> zth (keepers s t') j = Some st ->
  unconv t i (snd (convert_item cfg t' st j s))
  /\ modelapi_ (snd (convert_item cfg t' st j s)) = modelapi_ s
  /\ (t' = t -> j = i ->
      convert_item cfg t' st j s = RunConversion cfg t i s
      /\ fst (RunConversion cfg t i s)
         = Throw (Error (msg_no_conversion cfg t))).
Proof.
  intros Hu Hst. unfold convert_item.
  destruct (ConType_eq_dec t' t) as [->|Ht].
  - destruct (Z.eq_dec j i) as [->|Hj].
    + destruct Hu as (st0 & Hst0 & Hc).
      assert (st0 = st) as -> by congruence.
      unfold needs_conversion. rewrite Hc, Hacc. cbn [negb andb].
      destruct (RunConversion_no_rule s st Hst) as [s' E].
      rewrite (bind_throw _ _ _ _ _ E).
      pose proof (ext_RunConversion cfg t i s) as X. rewrite E in *.
      simpl in *. split; [|split].
      * eapply unconv_ext; [exact X|]. exists st. auto.
      * apply X.
      * auto.
    + split; [|split; [|congruence]].
      * destruct (needs_conversion cfg t st j); [|exact Hu].
        unfold bind. pose proof (ext_RunConversion cfg t j s) as X.
        destruct (RunConversion cfg t j s) as [[[]|e] s1]; simpl in *.
        -- apply unconv_mark; [now right|]. eapply unconv_ext; eauto.
        -- eapply unconv_ext; eauto.
      * destruct (needs_conversion cfg t st j); [|reflexivity].
        unfold bind. pose proof (ext_RunConversion cfg t j s) as X.
        destruct (RunConversion cfg t j s) as [[[]|e] s1]; simpl in *;
          apply X.
  - split; [|split; [|congruence]].
    + destruct (needs_conversion cfg t' st j); [|exact Hu].
      unfold bind. pose proof (ext_RunConversion cfg t' j s) as X.
      destruct (RunConversion cfg t' j s) as [[[]|e] s1]; simpl in *.
      * apply unconv_mark; [now left|]. eapply unconv_ext; eauto.
      * eapply unconv_ext; eauto.
    + destruct (needs_conversion cfg t' st j); [|reflexivity].
      unfold bind. pose proof (ext_RunConversion cfg t' j s) as X.
      destruct (RunConversion cfg t' j s) as [[[]|e] s1]; simpl in *;
        apply X.
Qed.

Lemma ck_blocked fuel t' j (s : FlatConverter Body) :
  unconv t i s ->
  unconv t i (snd (ck_ConvertAllConstraints cfg fuel t' j s))
  /\ modelapi_ (snd (ck_ConvertAllConstraints cfg fuel t' j s))
     = modelapi_ s
  /\ (t' = t -> 0 <= j <= i ->
      exists e, fst (ck_ConvertAllConstraints cfg fuel t' j s) = Throw e).
Proof.
  revert j s. induction fuel as [|fuel IH]; intros j s Hu.
  - simpl. repeat split; auto. intros _ _. eauto.
  - rewrite ck_ConvertAllConstraints_step.
    destruct (zth (keepers s t') j) as [st|] eqn:Hst.
    + destruct (convert_item_blocked t' st j s Hu Hst) as (U & Ma & T).
      unfold bind.
      destruct (convert_item cfg t' st j s) as [[[]|e] s1] eqn:E;
        simpl in *.
      * destruct (IH (j + 1) s1 U) as (U' & Ma' & T').
        split; [exact U'|]. split; [congruence|].
        intros -> Hj. destruct (Z.eq_dec j i) as [->|Hne].
        -- destruct (T eq_refl eq_refl) as [E1 E2].
           rewrite <- E1 in E2. discriminate.
        -- apply T'; [reflexivity|lia].
      * repeat split; auto. intros _ _. eauto.
    + simpl. repeat split; auto. intros -> Hj.
      destruct Hu as (st & Hst' & _).
      exfalso. unfold zth in Hst, Hst'.
      destruct (j <? 0) eqn:Ej; [apply Z.ltb_lt in Ej; lia|].
      destruct (i <? 0) eqn:Ei; [discriminate|].
      apply nth_error_None in Hst.
      assert (nth_error (keepers s t) (Z.to_nat i) <> None) as Hn
        by congruence.
      apply nth_error_Some in Hn. lia.
Qed.

Lemma for_each_blocked fuel ts (s : FlatConverter Body) :
  unconv t i s -> 0 <= i ->
  unconv t i (snd (for_each_keeper cfg fuel ts s))
  /\ modelapi_ (snd (for_each_keeper cfg fuel ts s)) = modelapi_ s
  /\ (In t ts ->
      exists e, fst (for_each_keeper cfg fuel ts s) = Throw e).
Proof.
  intros Hu Hi. revert s Hu.
  induction ts as [|t' ts IH]; intros s Hu; cbn [for_each_keeper].
  - simpl. repeat split; auto. contradiction.
  - destruct (ck_blocked fuel t' 0 s Hu) as (U & Ma & T). unfold bind.
    destruct (ck_ConvertAllConstraints cfg fuel t' 0 s) as [[[]|e] s1];
      simpl in *.
    + destruct (IH s1 U) as (U' & Ma' & T').
      split; [exact U'|]. split; [congruence|].
      intros [->|Hin]; [|auto].
      destruct (T eq_refl ltac:(lia)) as [e E]. discriminate.
    + repeat split; auto. intros _. eauto.
Qed.

Lemma unconv_pending (s : FlatConverter Body) : unconv t i s -> pending cfg s = true.
Proof.
  intros (st & Hst & Hc). unfold pending. apply existsb_exists.
  exists t. split; [apply all_con_types_complete|].
  destruct (any_needs cfg t (keepers s t) 0) eqn:E; [reflexivity|].
  unfold zth in Hst. destruct (i <? 0); [discriminate|].
  pose proof (any_needs_false cfg t _ 0 E _ _ Hst) as H.
  unfold needs_conversion in H. now rewrite Hc, Hacc in H.
Qed.

Lemma model_blocked fuel (s : FlatConverter Body) :
  unconv t i s -> 0 <= i ->
  exists e,
    fst (model_ConvertAllConstraints cfg fuel s) = Throw e
    /\ modelapi_ (snd (model_ConvertAllConstraints cfg fuel s))
       = modelapi_ s.
Proof.
  intros Hu Hi. revert s Hu. induction fuel as [|fuel IH]; intros s Hu.
  - simpl. eauto.
  - rewrite model_ConvertAllConstraints_step, (unconv_pending s Hu).
    destruct (for_each_blocked fuel all_con_types s Hu Hi) as (U & Ma & T).
    unfold bind.
    destruct (for_each_keeper cfg fuel all_con_types s) as [[[]|e] s1];
      simpl in *.
    + destruct (IH s1 U) as (e & E & Ma'). exists e. split; congruence.
    + eauto.
Qed.

(** Conversion cannot complete while such an item is stored, and the
    ModelAPI receives nothing. *)
Lemma FinishModelInput_blocked fuel (s : FlatConverter Body) :
  unconv t i s ->
  exists e,
    fst (FinishModelInput cfg fuel s) = Throw e
    /\ modelapi_ (snd (FinishModelInput cfg fuel s)) = modelapi_ s.
Proof.
  intros Hu.
  assert (0 <= i) as Hi.
  { destruct Hu as (st & Hst & _). apply zth_Some_range in Hst. lia. }
  destruct (model_blocked fuel s Hu Hi) as (e & E & Ma).
  destruct (model_ConvertAllConstraints cfg fuel s) as [r s1] eqn:Em.
  simpl in E, Ma. subst r.
  rewrite (FinishModelInput_throw cfg fuel s e s1 Em). simpl. eauto.
Qed.

End Blocked.

Section Reached.

Context {Body : Type} (cfg : Config Body).

Lemma any_needs_false_zth t l k st :
  any_needs cfg t l 0 = false -> zth l k = Some st ->
  needs_conversion cfg t st k = false.
Proof.
  intros H Hk. pose proof (zth_Some_range _ _ _ Hk) as R.
  unfold zth in Hk. destruct (k <? 0); [discriminate|].
  pose proof (any_needs_false cfg t l 0 H _ _ Hk) as X.
  now rewrite Z.add_0_l, Z2Nat.id in X by lia.
Qed.

Lemma ck_skip fuel t j (s : FlatConverter Body) :
  0 <= j -> (0 < fuel)%nat ->
  Z.of_nat (length (keepers s t)) - j < Z.of_nat fuel ->
  (forall k st, zth (keepers s t) k = Some st ->
                needs_conversion cfg t st k = false) ->
  ck_ConvertAllConstraints cfg fuel t j s = (Ok tt, s).
Proof.
  revert j. induction fuel as [|fuel IH]; intros j Hj Hf Hlen Hn; [lia|].
  rewrite ck_ConvertAllConstraints_step.
  destruct (zth (keepers s t) j) as [st|] eqn:Hst; [|reflexivity].
  unfold convert_item. rewrite (Hn _ _ Hst).
  unfold bind at 1, ret at 1.
  apply zth_Some_range in Hst. apply IH; auto; lia.
Qed.

Lemma for_each_skip fuel ts (s : FlatConverter Body) :
  (forall t, (length (keepers s t) < fuel)%nat) ->
  (forall t, In t ts -> any_needs cfg t (keepers s t) 0 = false) ->
  for_each_keeper cfg fuel ts s = (Ok tt, s).
Proof.
  intros Hf. induction ts as [|t ts IH]; intros Hn; [reflexivity|].
  cbn [for_each_keeper].
  rewrite (bind_ok _ _ _ _ _ (ck_skip fuel t 0 s ltac:(lia)
             ltac:(specialize (Hf t); lia)
             ltac:(specialize (Hf t); lia)
             (fun k st => any_needs_false_zth t _ k st
                            (Hn t (or_introl eq_refl))))).
  apply IH. intros t' Hin. apply Hn. now right.
Qed.

Lemma for_each_keeper_app fuel ts1 ts2 (s : FlatConverter Body) :
  for_each_keeper cfg fuel (ts1 ++ ts2) s =
  (for_each_keeper cfg fuel ts1 ;; for_each_keeper cfg fuel ts2) s.
Proof.
  revert s. induction ts1 as [|t ts1 IH]; intros s; simpl.
  - reflexivity.
  - unfold bind in *.
    destruct (ck_ConvertAllConstraints cfg fuel t 0 s) as [[[]|e] s1];
      auto.
Qed.

Variables (t : ConType) (i : Z).
Hypothesis Hacc : Accepts cfg t = NotAccepted.
Hypothesis Hrule : Convert_rule cfg t = None.

Lemma ck_reach fuel j (s : FlatConverter Body) :
  0 <= j <= i -> i - j < Z.of_nat fuel ->
  unconv t i s ->
  (forall k st, 0 <= k < i -> zth (keepers s t) k = Some st ->
                needs_conversion cfg t st k = false) ->
  ck_ConvertAllConstraints cfg fuel t j s = RunConversion cfg t i s.
Proof.
  revert j. induction fuel as [|fuel IH]; intros j Hj Hf Hu Hn; [lia|].
  rewrite ck_ConvertAllConstraints_step.
  destruct (Z.eq_dec j i) as [->|Hne].
  - destruct Hu as (st & Hst & Hc). rewrite Hst.
    destruct (convert_item_blocked cfg t i Hacc Hrule t st i s
                (ex_intro _ st (conj Hst Hc)) Hst) as (_ & _ & T).
    destruct (T eq_refl eq_refl) as [E1 E2].
    destruct (RunConversion cfg t i s) as [r s'] eqn:E. simpl in E2.
    subst r. now rewrite (bind_throw _ _ _ _ _ E1).
  - destruct (zth (keepers s t) j) as [st|] eqn:Hst.
    + unfold convert_item. rewrite (Hn j st ltac:(lia) Hst).
      unfold bind at 1, ret at 1. apply IH; auto; lia.
    + exfalso. destruct Hu as (st & Hst' & _).
      apply zth_Some_range in Hst'.
      unfold zth in Hst. destruct (j <? 0) eqn:Ej;
        [apply Z.ltb_lt in Ej; lia|].
      apply nth_error_None in Hst. lia.
Qed.

(** With the item next in line and fuel for one pass, the error of its
    conversion is what [FinishModelInput] raises. *)
Lemma FinishModelInput_reached fuel (s : FlatConverter Body) :
  unconv t i s -> first_pending cfg s t i ->
  (forall t', (length (keepers s t') < fuel)%nat) ->
  exists s',
    FinishModelInput cfg (S fuel) s
    = (Throw (Error (msg_no_conversion cfg t)), s')
    /\ modelapi_ s' = modelapi_ s.
Proof.
  intros Hu [Hb Hn] Hf.
  destruct Hu as (st & Hst & Hc).
  assert (unconv t i s) as Hu by (exists st; auto).
  destruct (RunConversion_no_rule cfg t i Hrule s st Hst) as [s' E].
  exists s'. split.
  - assert (model_ConvertAllConstraints cfg (S fuel) s
            = (Throw (Error (msg_no_conversion cfg t)), s')) as Em.
    { rewrite model_ConvertAllConstraints_step.
      rewrite (unconv_pending cfg t i Hacc s Hu).
      destruct (types_before_split t all_con_types
                  (all_con_types_complete t)) as [rest Er].
      apply bind_throw. rewrite Er, for_each_keeper_app.
      rewrite (bind_ok _ _ _ _ _ (for_each_skip fuel _ s Hf Hb)).
      cbn [for_each_keeper]. apply bind_throw.
      pose proof (zth_Some_range _ _ _ Hst) as R. specialize (Hf t).
      rewrite (ck_reach fuel 0 s ltac:(lia) ltac:(lia) Hu Hn).
      exact E. }
    now rewrite (FinishModelInput_throw cfg (S fuel) s _ s' Em).
  - pose proof (ext_RunConversion cfg t i s) as X. rewrite E in X.
    apply X.
Qed.

End Reached.

(** C2: a stored constraint of a type the ModelAPI rejects, for which no
    [Convert] overload is installed, makes its conversion raise an error
    whose message holds the constraint's type name and the ModelAPI's
    name.  While such an item awaits conversion, [FinishModelInput] cannot
    complete and passes nothing to the ModelAPI; and when the item is the
    next one in line, that error is the one [FinishModelInput] raises. *)
Theorem C2_no_conversion_error :
  forall (Body : Type) (cfg : Config Body) (s : FlatConverter Body)
         (t : ConType) (i : Z) (st : Stored Body),
    Accepts cfg t = NotAccepted ->
    Convert_rule cfg t = None ->
    zth (keepers s t) i = Some st ->
    contains (msg_no_conversion cfg t) (GetTypeName cfg t)
    /\ contains (msg_no_conversion cfg t) (ModelAPI_GetTypeName cfg)
    /\ (exists s',
          RunConversion cfg t i s
          = (Throw (Error (msg_no_conversion cfg t)), s'))
    /\ (is_converted st = false ->
        (forall fuel, exists e,
            fst (FinishModelInput cfg fuel s) = Throw e
            /\ modelapi_ (snd (FinishModelInput cfg fuel s)) = modelapi_ s)
        /\ (first_pending cfg s t i ->
            forall fuel,
              (forall t', (length (keepers s t') < fuel)%nat) ->
              exists s',
                FinishModelInput cfg (S fuel) s
                = (Throw (Error (msg_no_conversion cfg t)), s')
                /\ modelapi_ s' = modelapi_ s)).
Proof.
  intros Body cfg s t i st Hacc Hrule Hst.
  destruct (msg_no_conversion_names cfg t) as [N1 N2].
  split; [exact N1|]. split; [exact N2|].
  split; [now apply (RunConversion_no_rule cfg t i Hrule s st)|].
  intros Hc.
  assert (unconv t i s) as Hu by (exists st; auto).
  split.
  - intros fuel. now apply (FinishModelInput_blocked cfg t i Hacc Hrule).
  - intros Hfp fuel Hf.
    now apply (FinishModelInput_reached cfg t i Hacc Hrule).
Qed.

(* ------------------------------------------------------------------ *)
(** ** The properties on the example data *)

(** On the example the ModelAPI receives the three variables and the two
    rows of the rewritten maximum. *)
Example finish_max_pushes_rows :
  modelapi_ (snd (FinishModelInput Examples.cfg 5 Examples.s_max))
  = [InitProblemModificationPhase;
     AddVariables (vars Examples.s_vars);
     ApiAddConstraint LinConLE
       {| body := [0; 2]; result_var := -1; context := CTX_NONE |};
     ApiAddConstraint LinConLE
       {| body := [1; 2]; result_var := -1; context := CTX_NONE |};
     FinishProblemModificationPhase].
Proof. vm_compute. reflexivity. Qed.

Lemma C2_no_conversion_error_witness :
  zth (keepers Examples.s_pow PowConstraint) 0
  = Some {| con_ := Examples.pow_con; is_converted := false |}
  /\ contains (msg_no_conversion Examples.cfg PowConstraint)
       "PowConstraint"
  /\ contains (msg_no_conversion Examples.cfg PowConstraint)
       "XpressmpModelAPI"
  /\ (exists s',
        RunConversion Examples.cfg PowConstraint 0 Examples.s_pow
        = (Throw (Error (msg_no_conversion Examples.cfg PowConstraint)),
           s'))
  /\ (exists s',
        FinishModelInput Examples.cfg 3 Examples.s_pow
        = (Throw (Error (msg_no_conversion Examples.cfg PowConstraint)),
           s')
        /\ modelapi_ s' = modelapi_ Examples.s_pow).
Proof.
  split; [reflexivity|].
  destruct (C2_no_conversion_error _ Examples.cfg Examples.s_pow
              PowConstraint 0
              {| con_ := Examples.pow_con; is_converted := false |}
              eq_refl eq_refl eq_refl) as (N1 & N2 & R & F).
  split; [exact N1|]. split; [exact N2|]. split; [exact R|].
  apply (proj2 (F eq_refl)).
  - split.
    + intros t' Hin. destruct t'; try (vm_compute; reflexivity).
      exfalso. vm_compute in Hin.
      repeat (destruct Hin as [Hin|Hin]; [discriminate Hin|]).
      exact Hin.
    + intros j st Hj. lia.
  - intros t'. destruct t'; vm_compute; lia.
Defined.

Lemma C3_narrow_var_bounds_witness :
  zth (vars Examples.s_vars) 0
  = Some {| v_lb := d_zero; v_ub := Examples.d_five;
            v_type := CONTINUOUS |}
  /\ exists r s' a',
       NarrowVarBounds 0 d_one Examples.d_three Examples.s_vars = (r, s')
       /\ zth (vars s') 0 = Some a'
       /\ v_lb a' = std_max d_zero d_one
       /\ v_ub a' = std_min Examples.d_five Examples.d_three.
Proof.
  split; [reflexivity|].
  destruct (C3_narrow_var_bounds (list Z) Examples.s_vars 0 d_one
              Examples.d_three
              {| v_lb := d_zero; v_ub := Examples.d_five;
                 v_type := CONTINUOUS |} eq_refl)
    as (r & s' & a' & E & Ha & L & U & _).
  exists r, s', a'. auto.
Defined.

Lemma C4_duplicate_map_insert_witness :
  is_mapped MaxConstraint = true
  /\ map_find Examples.cfg (body Examples.max_con)
       (con_maps Examples.s_max MaxConstraint) = Some 0
  /\ exists s',
       AddConstraint Examples.cfg MaxConstraint Examples.max_con
         Examples.s_max
       = (Throw (Error (msg_duplicate Examples.cfg MaxConstraint)), s')
       /\ contains (msg_duplicate Examples.cfg MaxConstraint)
            (GetDescription Examples.cfg MaxConstraint).
Proof.
  split; [reflexivity|]. split; [reflexivity|].
  destruct (proj2 (C4_duplicate_map_insert _ Examples.cfg Examples.s_max
                     MaxConstraint Examples.max_con eq_refl) 0 eq_refl)
    as (s' & E & N & _).
  exists s'. auto.
Defined.

Lemma C5_fixed_var_canonical_witness :
  is_nan d_one = false
  /\ exists r1 s1 r2 s2,
       MakeFixedVar d_one Examples.s_vars = (Ok r1, s1)
       /\ MakeFixedVar d_one s1 = (Ok r2, s2)
       /\ nr_index r2 = nr_index r1
       /\ vars s2 = vars s1.
Proof.
  split; [reflexivity|].
  destruct (C5_fixed_var_canonical (list Z) Examples.s_vars d_one eq_refl)
    as (r1 & s1 & r2 & s2 & E1 & E2 & I & V & _).
  exists r1, s1, r2, s2. auto.
Defined.

Lemma C6_convert2var_cases_witness :
  ae_is_variable Examples.exprs Examples.ae_sum = false
  /\ ae_is_constant Examples.exprs Examples.ae_sum = false
  /\ TryFold Examples.cfg LinearFunctionalConstraint
       (body (make_LFC Examples.exprs Examples.ae_sum)) = None
  /\ map_find Examples.cfg (body (make_LFC Examples.exprs Examples.ae_sum))
       (con_maps Examples.s_vars LinearFunctionalConstraint) = None
  /\ exists s',
       Convert2Var_affine Examples.cfg Examples.exprs Examples.ae_sum
         Examples.s_vars = (Ok 3, s')
       /\ zth (keepers s' LinearFunctionalConstraint) 0
          = Some {| con_ := {| body := [0; 1]; result_var := 3;
                               context := CTX_NONE |};
                    is_converted := false |}.
Proof.
  split; [reflexivity|]. split; [reflexivity|].
  split; [reflexivity|]. split; [reflexivity|].
  destruct (C6_convert2var_cases _ Examples.cfg _ _ Examples.exprs
              Examples.s_vars) as (HA & _ & HR).
  pose proof (proj2 (proj2 (HA Examples.ae_sum)) eq_refl eq_refl) as E.
  destruct (proj2 (proj2 (proj2 (proj2 (proj2
              (HR LinearFunctionalConstraint
                  (make_LFC Examples.exprs Examples.ae_sum))))))
              d_minus_inf d_inf CONTINUOUS eq_refl
              (or_intror eq_refl) eq_refl)
    as (r & s1 & s' & Ea & Er & Hz & _).
  assert (Hr : fst (AddVar d_minus_inf d_inf CONTINUOUS Examples.s_vars)
               = Ok (Select VarValues 3)) by (vm_compute; reflexivity).
  rewrite Ea in Hr. simpl in Hr. injection Hr as ->.
  exists s'. split; [rewrite E; exact Er|exact Hz].
Defined.

Lemma C7_run_conversion_context_witness :
  zth (keepers Examples.s_max MaxConstraint) 0
  = Some {| con_ := Examples.max_con; is_converted := false |}
  /\ exists c' s1,
       RunConversion Examples.cfg MaxConstraint 0 Examples.s_max
       = scoped (SetAutoLinkSource (SelectValueNodeRange MaxConstraint 0) ;;
                 Convert Examples.cfg MaxConstraint c' 0)
                (@close_auto_link_scope (list Z)) s1
       /\ context c' = CTX_MIX.
Proof.
  split; [reflexivity|].
  destruct (C7_run_conversion_context _ Examples.cfg Examples.s_max
              MaxConstraint 0
              {| con_ := Examples.max_con; is_converted := false |}
              eq_refl) as (c' & s1 & E & _ & _ & _ & Hm & _).
  exists c', s1. split; [exact E|]. exact (Hm eq_refl eq_refl).
Defined.

Lemma C10_fixed_var_ignores_type_witness :
  deq d_one d_one = true
  /\ exists r s1,
       AddVar d_one d_one INTEGER Examples.s_vars = (Ok r, s1)
       /\ zth (vars s1) (nr_index r)
          = Some {| v_lb := d_one; v_ub := d_one; v_type := CONTINUOUS |}.
Proof.
  split; [reflexivity|].
  destruct (C10_fixed_var_ignores_type _ Examples.cfg Examples.s_vars
              d_one d_one INTEGER eq_refl)
    as (r & s1 & E & _ & _ & C & _).
  exists r, s1. split; [exact E|]. exact (C eq_refl).
Defined.

(* ================================================================== *)
(** * Further properties *)

(* ------------------------------------------------------------------ *)
(** ** SOS constraints: canonical form and mismatched vectors *)

Lemma FOP_perm {A} (R : A -> A -> Prop) (l l' : list A) :
  (forall a b, R a b -> R b a) ->
  Permutation l l' -> ForallOrdPairs R l -> ForallOrdPairs R l'.
Proof.
  intros Hsym Hp. induction Hp; intros H.
  - exact H.
  - inversion H; subst. constructor.
    + eapply Permutation_Forall; eauto.
    + auto.
  - inversion H as [|a l0 Hy Hr]; subst.
    inversion Hr as [|b l1 Hx Hl]; subst.
    inversion Hy; subst.
    constructor.
    + constructor; auto.
    + constructor; auto.
  - auto.
Qed.

Lemma FOP_nth {A} (R : A -> A -> Prop) (l : list A) :
  (forall a b, R a b -> R b a) ->
  ForallOrdPairs R l ->
  forall p q a b, p <> q ->
    nth_error l p = Some a -> nth_error l q = Some b -> R a b.
Proof.
  intros Hsym H. induction H as [|x l Hx Hl IH]; intros p q a b Hpq Ha Hb.
  - destruct p; discriminate.
  - rewrite Forall_forall in Hx.
    destruct p as [|p], q as [|q]; simpl in *.
    + congruence.
    + inversion Ha; subst. apply Hx. eapply nth_error_In; eauto.
    + inversion Hb; subst. apply Hsym. apply Hx.
      eapply nth_error_In; eauto.
    + apply (IH p q); auto.
Qed.

Lemma pairwise_ordered_sym (a b : double) :
  dlt a b = true \/ dlt b a = true -> dlt b a = true \/ dlt a b = true.
Proof. tauto. Qed.

Lemma sorted_pairwise (l : list double) :
  StronglySorted SOS.klt l -> pairwise_ordered l.
Proof.
  induction 1 as [|a l Hl IH Ha]; constructor; auto.
  eapply Forall_impl; [|exact Ha]. intros b Hb. left. exact Hb.
Qed.

Lemma sorted_perm_unique (l1 l2 : list (double * Z)) :
  StronglySorted SOS.klt (map fst l1) ->
  StronglySorted SOS.klt (map fst l2) ->
  Permutation l1 l2 -> l1 = l2.
Proof.
  revert l2. induction l1 as [|a l1 IH]; intros l2 H1 H2 Hp.
  - apply Permutation_nil in Hp. congruence.
  - destruct l2 as [|b l2].
    { apply Permutation_sym, Permutation_nil in Hp. discriminate. }
    simpl in H1, H2.
    apply StronglySorted_inv in H1. destruct H1 as [S1 F1].
    apply StronglySorted_inv in H2. destruct H2 as [S2 F2].
    rewrite Forall_forall in F1, F2.
    assert (Hab : a = b).
    { assert (Ia : In a (b :: l2))
        by (eapply Permutation_in; [exact Hp|left; reflexivity]).
      assert (Ib : In b (a :: l1))
        by (eapply Permutation_in;
            [apply Permutation_sym; exact Hp|left; reflexivity]).
      destruct Ia as [Ia|Ia]; [congruence|].
      destruct Ib as [Ib|Ib]; [congruence|].
      assert (L1 : SOS.klt (fst b) (fst a)) by (apply F2, in_map, Ia).
      assert (L2 : SOS.klt (fst a) (fst b)) by (apply F1, in_map, Ib).
      exfalso. unfold SOS.klt in *.
      rewrite (dlt_asym _ _ L1) in L2. discriminate. }
    subst b. f_equal. apply IH; auto.
    eapply Permutation_cons_inv; eauto.
Qed.

Lemma make_pairwise (type : Z) (v : list Z) (w : list double)
      (ei : SOS.SOSExtraInfo) (c : SOS.SOS_1or2_Constraint) :
  SOS.make type v w ei = Ok c ->
  pairwise_ordered (map fst (combine w v)).
Proof.
  intros H. destruct (SOSFacts.make_ok _ _ _ _ _ H) as (Hs & Hp & Hl).
  apply sorted_pairwise in Hs.
  eapply FOP_perm; [intros a b; apply pairwise_ordered_sym| |exact Hs].
  unfold SOS.get_weights, SOS.get_vars in *.
  rewrite <- (SOSFacts.map_fst_combine (SOS.w_ c) (SOS.v_ c)) at 1
    by (symmetry; exact Hl).
  apply Permutation_map. exact Hp.
Qed.

Lemma make_type_ok (type : Z) (v : list Z) (w : list double)
      (ei : SOS.SOSExtraInfo) (c : SOS.SOS_1or2_Constraint) :
  SOS.make type v w ei = Ok c ->
  (type = 1 \/ type = 2) /\ SOS.sos_type c = type
  /\ SOS.extra_info_ c = ei
  /\ exists res, SOS.sort_loop (length v) v w [] = Ok res
                 /\ SOS.v_ c = map snd res /\ SOS.w_ c = map fst res.
Proof.
  unfold SOS.make, SOS.sort. simpl.
  destruct (SOS.sort_loop (length v) v w []) as [res|e] eqn:E;
    [|discriminate].
  unfold SOS.check. simpl.
  destruct (1 <=? type) eqn:E1; simpl; [|discriminate].
  destruct (type <=? 2) eqn:E2; simpl; [|discriminate].
  destruct (Nat.eqb _ _); [|discriminate].
  intros H. inversion H; subst; simpl.
  repeat split; try lia; eauto.
Qed.

(** A rearrangement of the pairs of a constraint that could be
    constructed can be constructed too. *)
Lemma make_rearranged (type : Z) (v v' : list Z) (w w' : list double)
      (ei : SOS.SOSExtraInfo) (c : SOS.SOS_1or2_Constraint) :
  SOS.make type v w ei = Ok c ->
  length v' = length w' ->
  Permutation (combine w' v') (combine w v) ->
  exists c', SOS.make type v' w' ei = Ok c'.
Proof.
  intros H Hl Hp.
  destruct (make_type_ok _ _ _ _ _ H) as (Ht & _).
  assert (Hpw : pairwise_ordered w').
  { rewrite <- (SOSFacts.map_fst_combine w' v') by (symmetry; exact Hl).
    eapply FOP_perm; [intros a b; apply pairwise_ordered_sym| |].
    - apply Permutation_map. apply Permutation_sym. exact Hp.
    - eapply make_pairwise; eauto. }
  apply SOSFacts.make_total; auto.
  intros p q wp wq Hpq Hwp Hwq.
  eapply (FOP_nth (fun a b => dlt a b = true \/ dlt b a = true) w');
    eauto.
  intros a b; apply pairwise_ordered_sym.
Qed.

(** Two constraints constructed from the same pairs have the same sorted
    pairs. *)
Lemma make_same_pairs (type : Z) (v v' : list Z) (w w' : list double)
      (ei : SOS.SOSExtraInfo) (c c' : SOS.SOS_1or2_Constraint) :
  SOS.make type v w ei = Ok c ->
  SOS.make type v' w' ei = Ok c' ->
  Permutation (combine w' v') (combine w v) ->
  SOS.v_ c' = SOS.v_ c /\ SOS.w_ c' = SOS.w_ c.
Proof.
  intros H H' Hp.
  destruct (make_type_ok _ _ _ _ _ H) as (_ & _ & _ & res & Hres & Hv & Hw).
  destruct (make_type_ok _ _ _ _ _ H')
    as (_ & _ & _ & res' & Hres' & Hv' & Hw').
  destruct (SOSFacts.sort_loop_full _ _ _ Hres) as (S1 & P1).
  destruct (SOSFacts.sort_loop_full _ _ _ Hres') as (S2 & P2).
  assert (res' = res).
  { apply sorted_perm_unique; auto.
    eapply Permutation_trans; [exact P2|].
    eapply Permutation_trans; [exact Hp|].
    apply Permutation_sym. exact P1. }
  subst res'. split; congruence.
Qed.

(** X1: The constraint that is constructed does not depend on the order in
    which the (weight, variable) pairs are given: any rearrangement of the
    pairs of a constraint that could be constructed constructs the same
    constraint. *)
Theorem X1_sos_order_independent
        (type : Z) (v v' : list Z) (w w' : list double)
        (ei : SOS.SOSExtraInfo) (c : SOS.SOS_1or2_Constraint) :
  SOS.make type v w ei = Ok c ->
  length v' = length w' ->
  Permutation (combine w' v') (combine w v) ->
  SOS.make type v' w' ei = Ok c.
Proof.
  intros H Hl Hp.
  destruct (make_rearranged _ _ _ _ _ _ _ H Hl Hp) as [c' H'].
  rewrite H'. f_equal.
  destruct (make_same_pairs _ _ _ _ _ _ _ _ H H' Hp) as [Ev Ew].
  destruct (make_type_ok _ _ _ _ _ H) as (_ & Hty & Hei & _).
  destruct (make_type_ok _ _ _ _ _ H') as (_ & Hty' & Hei' & _).
  destruct c, c'; simpl in *. congruence.
Qed.

(** X2: Constructing a constraint again from the variables, weights and
    extra info of a constructed constraint gives that constraint back:
    sorting is idempotent. *)
Theorem X2_sos_rebuild_identity
        (type : Z) (v : list Z) (w : list double)
        (ei : SOS.SOSExtraInfo) (c : SOS.SOS_1or2_Constraint) :
  SOS.make type v w ei = Ok c ->
  SOS.make (SOS.get_sos_type c) (SOS.get_vars c) (SOS.get_weights c)
           (SOS.get_extra_info c) = Ok c.
Proof.
  intros H.
  destruct (make_type_ok _ _ _ _ _ H) as (_ & Hty & Hei & _).
  destruct (SOSFacts.make_ok _ _ _ _ _ H) as (_ & Hp & Hl).
  unfold SOS.get_sos_type, SOS.get_extra_info. rewrite Hty, Hei.
  destruct (make_rearranged _ _ _ _ _ _ _ H Hl Hp) as [c' H'].
  rewrite H'. f_equal.
  destruct (make_same_pairs _ _ _ _ _ _ _ _ H H' Hp) as [Ev Ew].
  destruct (make_type_ok _ _ _ _ _ H') as (_ & Hty' & Hei' & _).
  destruct c, c'; simpl in *. congruence.
Qed.

(** X3: With fewer weights than variables the constructor throws
    [std::out_of_range] (from [w_.at(i)] at the first step of the loop):
    no constraint is constructed, whatever the weights are. *)
Theorem X3_sos_fewer_weights_out_of_range
        (type : Z) (v : list Z) (w : list double) (ei : SOS.SOSExtraInfo) :
  (length w < length v)%nat ->
  SOS.make type v w ei = Throw OutOfRange.
Proof.
  intros H. unfold SOS.make, SOS.sort. simpl.
  destruct (length v) as [|n] eqn:E; [lia|]. simpl.
  assert (Hn : nth_error w n = None) by (apply nth_error_None; lia).
  rewrite Hn. reflexivity.
Qed.

Lemma sort_loop_in_range (i : nat) (v : list Z) (w : list double)
      (sorted : list (double * Z)) :
  (i <= length v)%nat -> (i <= length w)%nat ->
  SOS.sort_loop i v w sorted <> Throw OutOfRange.
Proof.
  revert sorted. induction i as [|i IH]; intros sorted Hv Hw; simpl.
  - discriminate.
  - destruct (nth_error w i) as [wi|] eqn:Ew.
    2:{ apply nth_error_None in Ew. lia. }
    destruct (nth_error v i) as [vi|] eqn:Ev.
    2:{ apply nth_error_None in Ev. lia. }
    destruct (SOS.map_insert wi vi sorted) as [s'|]; [|discriminate].
    apply IH; lia.
Qed.

(** X4: With more weights than variables the weights beyond the number of
    variables are ignored: the constructor behaves exactly as on the
    weights cut to the number of variables, and [at()] never throws. *)
Theorem X4_sos_extra_weights_ignored
        (type : Z) (v : list Z) (w : list double) (ei : SOS.SOSExtraInfo) :
  (length v <= length w)%nat ->
  SOS.make type v w ei = SOS.make type v (firstn (length v) w) ei
  /\ SOS.make type v w ei <> Throw OutOfRange.
Proof.
  intros H. split.
  - unfold SOS.make, SOS.sort. simpl.
    rewrite sort_loop_firstn by lia. reflexivity.
  - unfold SOS.make, SOS.sort. simpl.
    pose proof (sort_loop_in_range (length v) v w [] (Nat.le_refl _) H) as N.
    destruct (SOS.sort_loop (length v) v w []) as [res|e].
    + destruct (SOS.check _); discriminate.
    + congruence.
Qed.

(** X5: For vectors of equal length, an SOS1 or SOS2 constraint can be
    constructed exactly when the weights are pairwise strictly ordered:
    two equal weights, or a NaN among two or more weights, make the
    constructor throw. *)
Theorem X5_sos_constructible_iff
        (type : Z) (v : list Z) (w : list double) (ei : SOS.SOSExtraInfo) :
  type = 1 \/ type = 2 ->
  length v = length w ->
  ((exists c, SOS.make type v w ei = Ok c) <-> pairwise_ordered w).
Proof.
  intros Ht Hl. split.
  - intros [c H]. apply make_pairwise in H.
    rewrite SOSFacts.map_fst_combine in H by (symmetry; exact Hl). exact H.
  - intros Hp. apply SOSFacts.make_total; auto.
    intros p q wp wq Hpq Hwp Hwq.
    eapply (FOP_nth (fun a b => dlt a b = true \/ dlt b a = true) w);
      eauto.
    intros a b; apply pairwise_ordered_sym.
Qed.

(* ------------------------------------------------------------------ *)
(** ** Init expressions of variables *)

Lemma zth_resize_info (l : list (option ConInfo)) (n : nat) (i : Z) :
  zth (resize_info l n) i =
  match zth l i with
  | Some x => Some x
  | None => if (0 <=? i) && (i <? Z.of_nat n) then Some None else None
  end.
Proof.
  unfold zth, resize_info.
  destruct (Z.ltb_spec i 0) as [Hn|Hp]; simpl.
  { destruct (Z.leb_spec 0 i); [lia|reflexivity]. }
  destruct (Z.leb_spec 0 i); [|lia]. simpl.
  destruct (nth_error l (Z.to_nat i)) as [x|] eqn:E.
  - rewrite nth_error_app1 by (apply nth_error_Some; congruence).
    exact E.
  - apply nth_error_None in E.
    rewrite nth_error_app2 by lia.
    destruct (Z.ltb_spec i (Z.of_nat n)).
    + rewrite nth_error_repeat by lia. reflexivity.
    + apply nth_error_None. rewrite repeat_length. lia.
Qed.

Lemma resize_info_length (l : list (option ConInfo)) (n : nat) :
  length (resize_info l n) = Nat.max (length l) n.
Proof. unfold resize_info. rewrite length_app, repeat_length. lia. Qed.

(** The init expressions after [AddInitExpression(var, vi)]. *)
Lemma zth_AddInitExpression {Body} (s : FlatConverter Body) var vi j :
  0 <= var ->
  zth (var_info_ (snd (AddInitExpression var vi s))) j =
  if Z.eqb j var then Some (Some vi)
  else match zth (var_info_ s) j with
       | Some x => Some x
       | None => if (0 <=? j) && (j <? var) then Some None else None
       end.
Proof.
  intros Hv. unfold AddInitExpression, modify. simpl.
  destruct (Z.eqb_spec j var) as [->|Hne].
  - rewrite zth_zupd_same, zth_resize_info.
    destruct (zth (var_info_ s) var); [reflexivity|].
    destruct (Z.leb_spec 0 var); [|lia].
    destruct (Z.ltb_spec var
                (Z.of_nat (Nat.max (length (var_info_ s))
                                   (Z.to_nat var + 1)))); [reflexivity|lia].
  - rewrite zth_zupd_other by congruence. rewrite zth_resize_info.
    destruct (zth (var_info_ s) j) as [x|] eqn:E; [reflexivity|].
    destruct (Z.leb_spec 0 j); simpl; [|reflexivity].
    assert (Hj : Z.of_nat (length (var_info_ s)) <= j).
    { unfold zth in E. destruct (Z.ltb_spec j 0); [lia|].
      apply nth_error_None in E. lia. }
    destruct (Z.ltb_spec j var);
      destruct (Z.ltb_spec j
                  (Z.of_nat (Nat.max (length (var_info_ s))
                                     (Z.to_nat var + 1))));
      try reflexivity; lia.
Qed.

(** X6: [AddInitExpression(var, vi)] followed by [HasInitExpression(var)]
    and [GetInitExpression(var)] gives [vi] back; no other variable
    [0 <= v'] gains, loses or changes its init expression, and [var_info_]
    grows to [var + 1] entries at most. *)
Theorem X6_init_expression_round_trip
        (Body : Type) (s : FlatConverter Body) (var : Z) (vi : ConInfo) :
  0 <= var ->
  exists s',
    AddInitExpression var vi s = (Ok tt, s')
    /\ HasInitExpression s' var = true
    /\ GetInitExpression var s' = (Ok vi, s')
    /\ (forall v', 0 <= v' -> v' <> var ->
          HasInitExpression s' v' = HasInitExpression s v'
          /\ fst (GetInitExpression v' s') = fst (GetInitExpression v' s))
    /\ Z.of_nat (length (var_info_ s'))
       = Z.max (Z.of_nat (length (var_info_ s))) (var + 1).
Proof.
  intros Hv.
  pose proof (zth_AddInitExpression s var vi) as Hz.
  assert (Hlen : Z.of_nat (length (var_info_ (snd (AddInitExpression var vi s))))
                 = Z.max (Z.of_nat (length (var_info_ s))) (var + 1)).
  { simpl. rewrite zupd_length, resize_info_length. lia. }
  assert (Heq : AddInitExpression var vi s
                = (Ok tt, snd (AddInitExpression var vi s))) by reflexivity.
  remember (snd (AddInitExpression var vi s)) as s' eqn:Es'. clear Es'.
  exists s'. split; [exact Heq|].
  repeat split.
  - unfold HasInitExpression.
    rewrite (Hz var Hv), Z.eqb_refl. reflexivity.
  - unfold GetInitExpression.
    rewrite (Hz var Hv), Z.eqb_refl. reflexivity.
  - unfold HasInitExpression.
    rewrite (Hz v' Hv).
    destruct (Z.eqb_spec v' var); [contradiction|].
    destruct (zth (var_info_ s) v'); [reflexivity|].
    destruct ((0 <=? v') && (v' <? var)); reflexivity.
  - unfold GetInitExpression.
    rewrite (Hz v' Hv).
    destruct (Z.eqb_spec v' var); [contradiction|].
    destruct (zth (var_info_ s) v') as [[ci|]|]; try reflexivity.
    destruct ((0 <=? v') && (v' <? var)); reflexivity.
  - exact Hlen.
Qed.

(** X7: [ReplaceInitExpression(var, vi)] never grows [var_info_]: for a
    variable outside it (also a negative one) [at()] throws
    [std::out_of_range] and nothing changes; for a variable inside, the
    init expression becomes [vi], whether or not there was one, and the
    other variables keep theirs. *)
Theorem X7_replace_init_expression
        (Body : Type) (s : FlatConverter Body) (var : Z) (vi : ConInfo) :
  (0 <= var < Z.of_nat (length (var_info_ s)) ->
   exists s',
     ReplaceInitExpression var vi s = (Ok tt, s')
     /\ GetInitExpression var s' = (Ok vi, s')
     /\ length (var_info_ s') = length (var_info_ s)
     /\ forall v', v' <> var ->
          zth (var_info_ s') v' = zth (var_info_ s) v')
  /\ (~ 0 <= var < Z.of_nat (length (var_info_ s)) ->
      ReplaceInitExpression var vi s = (Throw OutOfRange, s)).
Proof.
  split; intros H.
  - assert (exists x, zth (var_info_ s) var = Some x) as [x Hx].
    { unfold zth. destruct (Z.ltb_spec var 0); [lia|].
      destruct (nth_error (var_info_ s) (Z.to_nat var)) eqn:E; eauto.
      apply nth_error_None in E. lia. }
    unfold ReplaceInitExpression. rewrite Hx.
    eexists. split; [reflexivity|]. repeat split.
    + unfold GetInitExpression. simpl.
      rewrite zth_zupd_same, Hx. reflexivity.
    + simpl. apply zupd_length.
    + intros v' Hne. simpl. apply zth_zupd_other. congruence.
  - unfold ReplaceInitExpression.
    destruct (zth (var_info_ s) var) eqn:E; [|reflexivity].
    apply zth_Some_range in E. contradiction.
Qed.

(* ------------------------------------------------------------------ *)
(** ** Invariants of the stored constraints *)

Lemma zth_keepers_append {Body} (s : FlatConverter Body) t x t' i st :
  zth (keepers s t') i = Some st ->
  zth (fupd (keepers s) t (keepers s t ++ [x]) t') i = Some st.
Proof.
  intros H. unfold fupd. destruct (ConType_eq_dec t t') as [->|]; auto.
  apply zth_app_l. exact H.
Qed.

Lemma after_store_var_info {Body} (s : FlatConverter Body) t con j :
  zth (var_info_ (after_store s t con)) j =
  if (0 <=? result_var con) && (Z.eqb j (result_var con))
  then Some (Some {| ci_keeper := t;
                     ci_index := Z.of_nat (length (keepers s t)) |})
  else match zth (var_info_ s) j with
       | Some x => Some x
       | None =>
           if (0 <=? result_var con) && (0 <=? j) && (j <? result_var con)
           then Some None else None
       end.
Proof.
  unfold after_store.
  destruct (Z.leb_spec 0 (result_var con)) as [Hv|Hv]; simpl.
  - pose proof (zth_AddInitExpression
                  (set_keepers s (fupd (keepers s) t
                     (keepers s t ++ [{| con_ := con;
                                         is_converted := false |}])))
                  (result_var con)
                  {| ci_keeper := t;
                     ci_index := Z.of_nat (length (keepers s t)) |} j Hv)
      as Hz.
    simpl in Hz. exact Hz.
  - destruct (zth (var_info_ s) j); reflexivity.
Qed.

Lemma init_ok_after_store {Body} (s : FlatConverter Body) t con :
  init_ok s -> init_ok (after_store s t con).
Proof.
  intros H var ci Hz. rewrite after_store_var_info in Hz.
  rewrite after_store_keepers.
  destruct ((0 <=? result_var con) && (var =? result_var con)) eqn:E.
  - apply andb_prop in E. destruct E as [_ E]. apply Z.eqb_eq in E.
    inversion Hz; subst ci; simpl.
    rewrite fupd_same, zth_app_new. eexists; split; [reflexivity|].
    simpl. congruence.
  - destruct (zth (var_info_ s) var) as [x|] eqn:Ex.
    + inversion Hz; subst x.
      destruct (H _ _ Ex) as (st & Hst & Hr).
      exists st. split; [|exact Hr]. apply zth_keepers_append. exact Hst.
    + destruct ((0 <=? result_var con) && (0 <=? var)
                && (var <? result_var con)); discriminate Hz.
Qed.

Lemma map_ok_after_store {Body} (s : FlatConverter Body) t con :
  map_ok s -> map_ok (after_store s t con).
Proof.
  intros H t' b i Hin.
  assert (Hm : con_maps (after_store s t con) = con_maps s).
  { unfold after_store. destruct (0 <=? result_var con); reflexivity. }
  rewrite Hm in Hin. rewrite after_store_keepers.
  destruct (H _ _ _ Hin) as (st & Hst & Hb).
  exists st. split; [|exact Hb]. apply zth_keepers_append. exact Hst.
Qed.

Lemma after_store_con_maps_eq {Body} (s : FlatConverter Body) t con :
  con_maps (after_store s t con) = con_maps s.
Proof. unfold after_store. destruct (0 <=? result_var con); reflexivity. Qed.

Lemma map_ok_insert {Body} (s : FlatConverter Body) t con :
  map_ok (after_store s t con) ->
  map_ok (set_con_maps (after_store s t con)
            (fupd (con_maps (after_store s t con)) t
               (con_maps (after_store s t con) t
                  ++ [(body con, Z.of_nat (length (keepers s t)))]))).
Proof.
  intros H t' b i Hin. simpl in Hin. simpl keepers.
  unfold fupd in Hin. destruct (ConType_eq_dec t t') as [<-|Hne].
  - apply in_app_or in Hin. destruct Hin as [Hin|[Hin|[]]].
    + apply H. exact Hin.
    + inversion Hin; subst. rewrite after_store_keepers, fupd_same.
      rewrite zth_app_new. eexists; split; reflexivity.
  - apply H. exact Hin.
Qed.

(** [FinishModelInput] when the conversion loop returns. *)
Lemma FinishModelInput_run {Body} (cfg : Config Body) fuel
      (s s1 : FlatConverter Body) :
  model_ConvertAllConstraints cfg fuel s = (Ok tt, s1) ->
  FinishModelInput cfg fuel s =
  (Ok tt,
   let s2 := if negb (relax s1 =? 0)
             then set_vars s1 (map (fun a =>
                    {| v_lb := v_lb a; v_ub := v_ub a;
                       v_type := CONTINUOUS |}) (vars s1))
             else s1 in
   set_modelapi s2 (modelapi_ s2 ++ pushed_model s2)).
Proof.
  intros E.
  unfold FinishModelInput, ConvertModel, ConvertItems, try_catch,
    ConvertAllConstraints, PrepareConversion, WindupConversion, ConvertMaps,
    PreprocessFinal, PushModelTo, RelaxIntegrality, bind, ret, get, modify.
  rewrite E. destruct (negb (relax s1 =? 0)); reflexivity.
Qed.

(** A property of the converter state that no converter call destroys:
    it stands against changes of the variables, of the links and of what
    the ModelAPI received, against storing a constraint, and against a
    change of the context or of the conversion mark of a stored one. *)
Section Invariants.

Context {Body : Type} (cfg : Config Body).

Variable P : FlatConverter Body -> Prop.
Hypothesis P_vars : forall s x, P s -> P (set_vars s x).
Hypothesis P_fixed : forall s x, P s -> P (set_map_fixed_vars s x).
Hypothesis P_auto_link : forall s a b, P s -> P (set_auto_link s a b).
Hypothesis P_links : forall s x, P s -> P (set_links s x).
Hypothesis P_modelapi : forall s x, P s -> P (set_modelapi s x).
Hypothesis P_store :
  forall t c s, P s ->
    P (snd (AddConstraintAndTryNoteResultVariable cfg t c s)).
Hypothesis P_item :
  forall t i f s,
    (forall st, result_var (con_ (f st)) = result_var (con_ st)
                /\ body (con_ (f st)) = body (con_ st)) ->
    P s -> P (set_keepers s (fupd (keepers s) t (zupd (keepers s t) i f))).

Lemma kept_refl (s : FlatConverter Body) : kept P s s.
Proof. intros H; exact H. Qed.

Lemma kept_trans (a b c : FlatConverter Body) :
  kept P a b -> kept P b c -> kept P a c.
Proof. unfold kept; auto. Qed.

Ltac kbind := apply (preserves_bind (kept P) kept_trans).

Lemma kept_AddVar__basic lb ub ty : preserves (kept P) (AddVar__basic lb ub ty).
Proof. intros s H. apply P_vars. exact H. Qed.

Lemma kept_model_set_lb v x : preserves (kept P) (model_set_lb v x).
Proof.
  intros s H. unfold model_set_lb. destruct (zth _ _); simpl; auto.
Qed.

Lemma kept_model_set_ub v x : preserves (kept P) (model_set_ub v x).
Proof.
  intros s H. unfold model_set_ub. destruct (zth _ _); simpl; auto.
Qed.

Lemma kept_MakeFixedVar v : preserves (kept P) (MakeFixedVar v).
Proof.
  intros s H.
  destruct (fixed_find v (map_fixed_vars_ s)) as [x|] eqn:E.
  - destruct (MakeFixedVar_hit s v x E) as [targs ->]. simpl. auto.
  - destruct (MakeFixedVar_miss s v E) as [targs ->]. simpl. auto.
Qed.

Lemma kept_set_auto_link (s : FlatConverter Body) a b :
  kept P s (set_auto_link s a b).
Proof. intros H. auto. Qed.

Lemma kept_AddVar lb ub ty : preserves (kept P) (AddVar lb ub ty).
Proof.
  apply preserves_AddVar;
    [exact kept_refl|exact kept_trans|exact kept_AddVar__basic
    |exact kept_MakeFixedVar|exact kept_set_auto_link].
Qed.

Lemma kept_NarrowVarBounds v lb ub :
  preserves (kept P) (NarrowVarBounds v lb ub).
Proof.
  apply preserves_NarrowVarBounds;
    [exact kept_refl|exact kept_trans|exact kept_model_set_lb
    |exact kept_model_set_ub].
Qed.

Lemma kept_AutoLink nr : preserves (kept P) (AutoLink nr).
Proof.
  intros s H. destruct (AutoLink_eq s nr) as [targs ->]. simpl. auto.
Qed.

Lemma kept_GetConstraint t i : preserves (kept P) (GetConstraint (Body:=Body) t i).
Proof.
  intros s H. unfold GetConstraint. destruct (zth _ _); exact H.
Qed.

Lemma kept_AddConstraint t c : preserves (kept P) (AddConstraint cfg t c).
Proof.
  unfold AddConstraint.
  kbind; auto.
  - intros s H. apply P_store. exact H.
  - intros nr. apply kept_AutoLink.
Qed.

Lemma kept_AssignResult2Args t fc :
  preserves (kept P) (AssignResult2Args cfg t fc).
Proof.
  unfold AssignResult2Args.
  destruct (TryFold cfg t (body fc)); [intros s H; exact H|].
  kbind; auto.
  { unfold MapFind. destruct (is_mapped t); intros s H; exact H. }
  intros i. destruct (0 <=? i).
  - kbind; auto using kept_GetConstraint.
    intros a s H; exact H.
  - kbind; auto.
    { intros s H; exact H. }
    intros s.
    destruct (ComputeBoundsAndType cfg t (body fc) (vars s)) as [[l u] ty].
    kbind; auto using kept_AddVar.
    intros r.
    kbind; auto using kept_AddConstraint.
    intros a s0 H; exact H.
Qed.

Lemma kept_AssignResultVar2Args t fc :
  preserves (kept P) (AssignResultVar2Args cfg t fc).
Proof.
  unfold AssignResultVar2Args.
  kbind; auto using kept_AssignResult2Args.
  intros [v|c].
  - intros s H; exact H.
  - kbind; auto using kept_MakeFixedVar.
    intros a s H; exact H.
Qed.

Lemma kept_run_rule (r : Rule Body) : preserves (kept P) (run_rule cfg r).
Proof.
  induction r as [|t c k IH|l u ty k IH|t fc k IH|v l u k IH|v k IH|e];
    cbn [run_rule].
  - intros s H; exact H.
  - kbind; auto using kept_AddConstraint.
  - kbind; auto using kept_AddVar.
  - kbind; auto using kept_AssignResultVar2Args.
  - kbind; auto using kept_NarrowVarBounds.
  - kbind; auto.
    { apply preserves_model_lb. apply kept_refl. }
    intros a.
    kbind; auto.
    apply preserves_model_ub. apply kept_refl.
  - intros s H; exact H.
Qed.

Lemma kept_close_auto_link_scope (s : FlatConverter Body) :
  kept P s (close_auto_link_scope s).
Proof.
  intros H. unfold close_auto_link_scope, TurnOffAutoLinking.
  apply P_auto_link.
  destruct (auto_link_src_item_ s); [|exact H].
  destruct (auto_link_targ_items_ s) as [|x [|y l]]; auto.
Qed.

Lemma kept_set_stored_context t i ctx :
  preserves (kept P) (set_stored_context (Body:=Body) t i ctx).
Proof.
  intros s H. unfold set_stored_context, modify. simpl.
  apply P_item; [|exact H]. intros st. split; reflexivity.
Qed.

Lemma kept_mark_converted t i :
  preserves (kept P) (mark_converted (Body:=Body) t i).
Proof.
  intros s H. unfold mark_converted, modify. simpl.
  apply P_item; [|exact H]. intros st. split; reflexivity.
Qed.

Lemma kept_RunConversion t i : preserves (kept P) (RunConversion cfg t i).
Proof.
  unfold RunConversion.
  kbind; auto using kept_GetConstraint.
  intros c. kbind; auto.
  { destruct (UsesContext cfg t); [|intros s H; exact H].
    destruct (IsNone (context c)); [apply kept_set_stored_context|].
    intros s H; exact H. }
  intros _. kbind; auto using kept_GetConstraint.
  intros c'. apply (preserves_scoped (kept P) kept_trans);
    [|exact kept_close_auto_link_scope].
  kbind; auto.
  - intros s H. simpl. auto.
  - intros _. unfold Convert. destruct (Convert_rule cfg t).
    + apply kept_run_rule.
    + intros s H; exact H.
Qed.

Lemma kept_convert_item t st i :
  preserves (kept P) (convert_item cfg t st i).
Proof.
  unfold convert_item. destruct (needs_conversion cfg t st i).
  - kbind; auto using kept_RunConversion, kept_mark_converted.
  - intros s H; exact H.
Qed.

Lemma kept_ck_ConvertAllConstraints fuel t i :
  preserves (kept P) (ck_ConvertAllConstraints cfg fuel t i).
Proof.
  revert i. induction fuel as [|fuel IH]; intros i s.
  - intros H; exact H.
  - rewrite ck_ConvertAllConstraints_step.
    destruct (zth (keepers s t) i) as [st|]; [|intros H; exact H].
    kbind; auto using kept_convert_item.
Qed.

Lemma kept_for_each_keeper fuel ts :
  preserves (kept P) (for_each_keeper cfg fuel ts).
Proof.
  induction ts as [|t ts IH]; cbn [for_each_keeper].
  - intros s H; exact H.
  - kbind; auto using kept_ck_ConvertAllConstraints.
Qed.

Lemma kept_model_ConvertAllConstraints fuel :
  preserves (kept P) (model_ConvertAllConstraints cfg fuel).
Proof.
  induction fuel as [|fuel IH]; intros s.
  - intros H; exact H.
  - rewrite model_ConvertAllConstraints_step.
    destruct (pending cfg s); [|intros H; exact H].
    kbind; auto using kept_for_each_keeper.
Qed.

Lemma kept_FinishModelInput fuel :
  preserves (kept P) (FinishModelInput cfg fuel).
Proof.
  intros s H.
  pose proof (kept_model_ConvertAllConstraints fuel s H) as H1.
  destruct (model_ConvertAllConstraints cfg fuel s) as [[[]|e] s1] eqn:E.
  - rewrite (FinishModelInput_run cfg fuel s s1 E). simpl in *.
    apply P_modelapi. destruct (negb (relax s1 =? 0)); auto.
  - rewrite (FinishModelInput_throw cfg fuel s e s1 E). exact H1.
Qed.

End Invariants.

Lemma init_ok_empty {Body} relax : init_ok (@empty_converter Body relax).
Proof. intros var ci H. unfold zth in H. simpl in H.
  destruct (var <? 0); [discriminate|].
  destruct (Z.to_nat var); discriminate.
Qed.

Lemma map_ok_empty {Body} relax : map_ok (@empty_converter Body relax).
Proof. intros t b i H. destruct H. Qed.

Lemma init_ok_store {Body} (cfg : Config Body) t c (s : FlatConverter Body) :
  init_ok s ->
  init_ok (snd (AddConstraintAndTryNoteResultVariable cfg t c s)).
Proof.
  intros H. rewrite AddConstraintAndTryNoteResultVariable_eq. cbv zeta.
  pose proof (init_ok_after_store s t c H) as H1.
  destruct (is_mapped t); [|exact H1].
  destruct (map_find cfg (body c) (con_maps s t)); exact H1.
Qed.

Lemma map_ok_store {Body} (cfg : Config Body) t c (s : FlatConverter Body) :
  map_ok s ->
  map_ok (snd (AddConstraintAndTryNoteResultVariable cfg t c s)).
Proof.
  intros H. rewrite AddConstraintAndTryNoteResultVariable_eq. cbv zeta.
  pose proof (map_ok_after_store s t c H) as H1.
  destruct (is_mapped t); [|exact H1].
  destruct (map_find cfg (body c) (con_maps s t)); [exact H1|].
  simpl snd. apply map_ok_insert. exact H1.
Qed.

Lemma zth_keepers_item {Body} (s : FlatConverter Body) t i
      (f : Stored Body -> Stored Body) t' j st :
  zth (keepers s t') j = Some st ->
  exists st0,
    zth (fupd (keepers s) t (zupd (keepers s t) i f) t') j = Some st0
    /\ (st0 = st \/ st0 = f st).
Proof.
  intros H. unfold fupd. destruct (ConType_eq_dec t t') as [->|].
  - destruct (Z.eq_dec i j) as [->|Hne].
    + rewrite zth_zupd_same, H. simpl. eauto.
    + rewrite zth_zupd_other by exact Hne. eauto.
  - eauto.
Qed.

Lemma init_ok_item {Body} t i f (s : FlatConverter Body) :
  (forall st, result_var (con_ (f st)) = result_var (con_ st)
              /\ body (con_ (f st)) = body (con_ st)) ->
  init_ok s ->
  init_ok (set_keepers s (fupd (keepers s) t (zupd (keepers s t) i f))).
Proof.
  intros Hf H var ci Hz. simpl in Hz. destruct (H _ _ Hz) as (st & Hst & Hr).
  destruct (zth_keepers_item s t i f _ _ _ Hst) as (st0 & Hst0 & [->| ->]).
  - exists st. split; [exact Hst0|exact Hr].
  - exists (f st). split; [exact Hst0|]. rewrite (proj1 (Hf st)). exact Hr.
Qed.

Lemma map_ok_item {Body} t i f (s : FlatConverter Body) :
  (forall st, result_var (con_ (f st)) = result_var (con_ st)
              /\ body (con_ (f st)) = body (con_ st)) ->
  map_ok s ->
  map_ok (set_keepers s (fupd (keepers s) t (zupd (keepers s t) i f))).
Proof.
  intros Hf H t' b j Hin. simpl in Hin.
  destruct (H _ _ _ Hin) as (st & Hst & Hb).
  destruct (zth_keepers_item s t i f _ _ _ Hst) as (st0 & Hst0 & [->| ->]).
  - exists st. split; [exact Hst0|exact Hb].
  - exists (f st). split; [exact Hst0|]. rewrite (proj2 (Hf st)). exact Hb.
Qed.

(** What [AddConstraint] returns and stores when it returns. *)
Lemma AddConstraint_ok {Body} (cfg : Config Body) t c
      (s s1 : FlatConverter Body) nr :
  AddConstraint cfg t c s = (Ok nr, s1) ->
  nr = SelectValueNodeRange t (Z.of_nat (length (keepers s t)))
  /\ keepers s1 = keepers (after_store s t c)
  /\ var_info_ s1 = var_info_ (after_store s t c)
  /\ vars s1 = vars s.
Proof.
  unfold AddConstraint. intros H.
  apply bind_inv in H. destruct H as [(a & s0 & H0 & H1)|(e & _ & He)];
    [|discriminate].
  destruct (AutoLink_eq s0 a) as [targs Ha]. rewrite Ha in H1.
  inversion H1; subst nr s1. clear H1 Ha.
  rewrite AddConstraintAndTryNoteResultVariable_eq in H0. cbv zeta in H0.
  assert (Hv : vars (after_store s t c) = vars s).
  { unfold after_store. destruct (0 <=? result_var c); reflexivity. }
  destruct (is_mapped t).
  - destruct (map_find cfg (body c) (con_maps s t)); [discriminate|].
    inversion H0; subst. simpl. auto.
  - inversion H0; subst. simpl. auto.
Qed.

Lemma init_ok_RedefineVariable {Body} (cfg : Config Body) t v fc
      (s : FlatConverter Body) :
  init_ok s -> init_ok (snd (RedefineVariable cfg t v fc s)).
Proof.
  intros H. unfold RedefineVariable.
  rewrite (bind_ok get _ s s s eq_refl).
  destruct (negb (HasInitExpression s v)); [exact H|].
  assert (H1 : init_ok (snd (AddConstraint cfg t (SetResultVar fc v) s))).
  { apply (kept_AddConstraint cfg init_ok); auto.
    intros; apply init_ok_store; auto. }
  destruct (AddConstraint cfg t (SetResultVar fc v) s) as [[nr|e] s1] eqn:E.
  2:{ rewrite (bind_throw _ _ _ _ _ E). exact H1. }
  rewrite (bind_ok _ _ _ _ _ E).
  destruct (AddConstraint_ok _ _ _ _ _ _ E) as (-> & Hk & Hi & _).
  simpl in H1. unfold ReplaceInitExpression.
  destruct (zth (var_info_ s1) v) as [x|] eqn:Ex; [|exact H1].
  intros var ci Hz. simpl in Hz. simpl keepers.
  destruct (Z.eq_dec v var) as [<-|Hne].
  - rewrite zth_zupd_same, Ex in Hz. simpl in Hz.
    inversion Hz; subst ci. simpl.
    rewrite Hk, after_store_keepers, fupd_same, zth_app_new.
    eexists. split; reflexivity.
  - rewrite zth_zupd_other in Hz by exact Hne. apply H1. exact Hz.
Qed.

Lemma map_ok_RedefineVariable {Body} (cfg : Config Body) t v fc
      (s : FlatConverter Body) :
  map_ok s -> map_ok (snd (RedefineVariable cfg t v fc s)).
Proof.
  intros H. unfold RedefineVariable.
  rewrite (bind_ok get _ s s s eq_refl).
  destruct (negb (HasInitExpression s v)); [exact H|].
  assert (H1 : map_ok (snd (AddConstraint cfg t (SetResultVar fc v) s))).
  { apply (kept_AddConstraint cfg map_ok); auto.
    intros; apply map_ok_store; auto. }
  destruct (AddConstraint cfg t (SetResultVar fc v) s) as [[nr|e] s1] eqn:E.
  2:{ rewrite (bind_throw _ _ _ _ _ E). exact H1. }
  rewrite (bind_ok _ _ _ _ _ E). simpl in H1.
  unfold ReplaceInitExpression.
  destruct (zth (var_info_ s1) v); exact H1.
Qed.

Lemma map_find_Some {Body} (cfg : Config Body) b m i :
  map_find cfg b m = Some i ->
  exists k, In (k, i) m /\ body_eqb cfg k b = true.
Proof.
  unfold map_find.
  destruct (find (fun kv => body_eqb cfg (fst kv) b) m) as [[k j]|] eqn:E;
    [|discriminate].
  intros H. inversion H; subst. apply find_some in E. simpl in E.
  exists k. exact E.
Qed.

(** X8: Every init expression points at a stored constraint whose result
    variable is the variable in question.  This holds in the empty
    converter and is kept by [AddVar], [NarrowVarBounds], [AddConstraint],
    [RedefineVariable], [RunConversion] and [FinishModelInput], whether
    they return or throw; so the constraint of [GetInitExpression(var)]
    can always be fetched and has result variable [var]. *)
Theorem X8_init_expressions_stay_valid
        (Body : Type) (cfg : Config Body) (s : FlatConverter Body) :
  init_ok s ->
  (forall lb ub ty, init_ok (snd (AddVar lb ub ty s)))
  /\ (forall v lb ub, init_ok (snd (NarrowVarBounds v lb ub s)))
  /\ (forall t c, init_ok (snd (AddConstraint cfg t c s)))
  /\ (forall t v fc, init_ok (snd (RedefineVariable cfg t v fc s)))
  /\ (forall t i, init_ok (snd (RunConversion cfg t i s)))
  /\ (forall fuel, init_ok (snd (FinishModelInput cfg fuel s)))
  /\ (forall var ci,
        GetInitExpression var s = (Ok ci, s) ->
        exists c, GetConstraint (ci_keeper ci) (ci_index ci) s = (Ok c, s)
                  /\ result_var c = var).
Proof.
  intros H.
  assert (Hs : forall t c s0, init_ok s0 ->
             init_ok (snd (AddConstraintAndTryNoteResultVariable cfg t c s0)))
    by (intros; apply init_ok_store; auto).
  assert (Hi : forall t i f (s0 : FlatConverter Body),
             (forall st, result_var (con_ (f st)) = result_var (con_ st)
                         /\ body (con_ (f st)) = body (con_ st)) ->
             init_ok s0 ->
             init_ok (set_keepers s0
                        (fupd (keepers s0) t (zupd (keepers s0 t) i f))))
    by (intros; apply init_ok_item; auto).
  repeat split.
  - intros. apply (kept_AddVar init_ok); auto.
  - intros. apply (kept_NarrowVarBounds init_ok); auto.
  - intros. apply (kept_AddConstraint cfg init_ok); auto.
  - intros. apply init_ok_RedefineVariable. exact H.
  - intros. apply (kept_RunConversion cfg init_ok); auto.
  - intros. apply (kept_FinishModelInput cfg init_ok); auto.
  - intros var ci Hg. unfold GetInitExpression in Hg.
    destruct (zth (var_info_ s) var) as [[ci'|]|] eqn:E; try discriminate.
    inversion Hg; subst ci'.
    destruct (H _ _ E) as (st & Hst & Hr).
    exists (con_ st). unfold GetConstraint. rewrite Hst. auto.
Qed.

(** X9: Every entry of a constraint map points at a stored constraint with
    the entry's data.  This holds in the empty converter and is kept by
    [AddConstraint], [RedefineVariable], [RunConversion] and
    [FinishModelInput], whether they return or throw; so a hit of
    [MapFind] is the index of a stored constraint that is structurally
    equal to the one looked up. *)
Theorem X9_map_hits_are_stored
        (Body : Type) (cfg : Config Body) (s : FlatConverter Body) :
  map_ok s ->
  (forall t c, map_ok (snd (AddConstraint cfg t c s)))
  /\ (forall t v fc, map_ok (snd (RedefineVariable cfg t v fc s)))
  /\ (forall t i, map_ok (snd (RunConversion cfg t i s)))
  /\ (forall fuel, map_ok (snd (FinishModelInput cfg fuel s)))
  /\ (forall t con i,
        MapFind cfg t con s = (Ok i, s) -> 0 <= i ->
        exists c, GetConstraint t i s = (Ok c, s)
                  /\ body_eqb cfg (body c) (body con) = true).
Proof.
  intros H.
  assert (Hs : forall t c s0, map_ok s0 ->
             map_ok (snd (AddConstraintAndTryNoteResultVariable cfg t c s0)))
    by (intros; apply map_ok_store; auto).
  assert (Hi : forall t i f (s0 : FlatConverter Body),
             (forall st, result_var (con_ (f st)) = result_var (con_ st)
                         /\ body (con_ (f st)) = body (con_ st)) ->
             map_ok s0 ->
             map_ok (set_keepers s0
                       (fupd (keepers s0) t (zupd (keepers s0 t) i f))))
    by (intros; apply map_ok_item; auto).
  repeat split.
  - intros. apply (kept_AddConstraint cfg map_ok); auto.
  - intros. apply map_ok_RedefineVariable. exact H.
  - intros. apply (kept_RunConversion cfg map_ok); auto.
  - intros. apply (kept_FinishModelInput cfg map_ok); auto.
  - intros t con i Hf Hi0. unfold MapFind in Hf.
    destruct (is_mapped t).
    2:{ inversion Hf. lia. }
    unfold MapFind__Impl in Hf.
    destruct (map_find cfg (body con) (con_maps s t)) as [j|] eqn:E.
    2:{ inversion Hf. lia. }
    inversion Hf; subst j.
    destruct (map_find_Some _ _ _ _ E) as (k & Hin & Hk).
    destruct (H _ _ _ Hin) as (st & Hst & Hb).
    exists (con_ st). unfold GetConstraint. rewrite Hst, Hb. auto.
Qed.

(* ------------------------------------------------------------------ *)
(** ** Constraint maps, redefinition, vectors of variables *)

Lemma map_find_app_new {Body} (cfg : Config Body) b m i :
  map_find cfg b m = None ->
  body_eqb cfg b b = true ->
  map_find cfg b (m ++ [(b, i)]) = Some i.
Proof.
  unfold map_find. intros Hn Hb.
  induction m as [|[k j] m IH]; simpl in *.
  - rewrite Hb. reflexivity.
  - destruct (body_eqb cfg k b); [discriminate|]. apply IH. exact Hn.
Qed.

(** X10: For a type stored with a map and a constraint that equals itself,
    [MapInsert(con, i)] and [MapFind(con)] are a round trip: after an
    insertion that returned true, [MapFind(con)] returns [i] and every
    further [MapInsert] of [con] returns false and changes nothing; an
    insertion that returned false changed nothing.  The maps of the other
    types are not touched. *)
Theorem X10_map_insert_find_round_trip
        (Body : Type) (cfg : Config Body) (s : FlatConverter Body)
        (t : ConType) (con : Constraint Body) (i : Z) :
  is_mapped t = true ->
  body_eqb cfg (body con) (body con) = true ->
  exists b s1,
    MapInsert cfg t con i s = (Ok b, s1)
    /\ (b = true ->
        MapFind cfg t con s = (Ok (-1), s)
        /\ MapFind cfg t con s1 = (Ok i, s1)
        /\ forall j, MapInsert cfg t con j s1 = (Ok false, s1))
    /\ (b = false -> s1 = s)
    /\ (forall t', t' <> t -> con_maps s1 t' = con_maps s t').
Proof.
  intros Hm Hb. unfold MapInsert, MapFind. rewrite Hm.
  unfold MapInsert__Impl, MapFind__Impl.
  destruct (map_find cfg (body con) (con_maps s t)) as [i0|] eqn:E.
  - exists false, s. repeat split; try discriminate; auto.
  - eexists true, _. split; [reflexivity|]. repeat split.
    + simpl. rewrite fupd_same, (map_find_app_new _ _ _ _ E Hb). reflexivity.
    + intros j. simpl. rewrite fupd_same, (map_find_app_new _ _ _ _ E Hb).
      reflexivity.
    + discriminate.
    + intros t' Hne. simpl. apply fupd_other. congruence.
Qed.

(** X11: With assertions on, [RedefineVariable(res_var, fc)] of a
    variable [0 <= res_var] without init expression fails its assertion,
    changing nothing.  When it returns,
    the init expression of the variable is the new constraint, stored last
    in its keeper with [res_var] as its result variable; the constraints
    stored before, among them the old definition, are all still stored,
    and the other variables keep their init expressions. *)
Theorem X11_redefine_variable
        (Body : Type) (cfg : Config Body) (s : FlatConverter Body)
        (t : ConType) (res_var : Z) (fc : Constraint Body) :
  (0 <= res_var -> HasInitExpression s res_var = false ->
   RedefineVariable cfg t res_var fc s = (Throw AssertionFailure, s))
  /\ (forall s',
        RedefineVariable cfg t res_var fc s = (Ok tt, s') ->
        let i := Z.of_nat (length (keepers s t)) in
        HasInitExpression s res_var = true
        /\ 0 <= res_var
        /\ GetInitExpression res_var s'
           = (Ok {| ci_keeper := t; ci_index := i |}, s')
        /\ zth (keepers s' t) i
           = Some {| con_ := SetResultVar fc res_var;
                     is_converted := false |}
        /\ (forall t' j st, zth (keepers s t') j = Some st ->
                            zth (keepers s' t') j = Some st)
        /\ (forall v', v' <> res_var ->
                       zth (var_info_ s') v' = zth (var_info_ s) v')).
Proof.
  unfold RedefineVariable. rewrite (bind_ok get _ s s s eq_refl).
  split.
  - intros _ ->. reflexivity.
  - intros s' H.
    destruct (HasInitExpression s res_var) eqn:Eh; [|discriminate].
    simpl negb in H. cbv iota in H.
    apply bind_inv in H. destruct H as [(nr & s1 & E & H)|(e & _ & He)];
      [|discriminate].
    destruct (AddConstraint_ok _ _ _ _ _ _ E) as (-> & Hk & Hi & _).
    unfold ReplaceInitExpression in H.
    destruct (zth (var_info_ s1) res_var) as [x|] eqn:Ex; [|discriminate].
    inversion H; subst s'. clear H. cbv zeta. simpl keepers. simpl var_info_.
    assert (Hr : 0 <= res_var < Z.of_nat (length (var_info_ s))).
    { unfold HasInitExpression in Eh.
      destruct (zth (var_info_ s) res_var) eqn:Ez; [|discriminate].
      eapply zth_Some_range; eauto. }
    split; [reflexivity|]. split; [lia|]. repeat split.
    + unfold GetInitExpression. simpl var_info_.
      rewrite zth_zupd_same, Ex. reflexivity.
    + rewrite Hk, after_store_keepers, fupd_same. apply zth_app_new.
    + intros t' j st Hst. rewrite Hk, after_store_keepers.
      apply zth_keepers_append. exact Hst.
    + intros v' Hne. rewrite zth_zupd_other by congruence.
      rewrite Hi, after_store_var_info. simpl result_var.
      destruct (Z.eqb_spec v' res_var) as [->|_]; [contradiction|].
      rewrite andb_false_r.
      destruct (zth (var_info_ s) v') as [y|] eqn:Ey; [reflexivity|].
      destruct (Z.leb_spec 0 res_var); [|lia]. simpl.
      destruct (Z.leb_spec 0 v'); simpl; [|reflexivity].
      destruct (Z.ltb_spec v' res_var); [|reflexivity].
      exfalso. unfold zth in Ey. destruct (Z.ltb_spec v' 0); [lia|].
      apply nth_error_None in Ey. lia.
Qed.

Lemma DoAddVar_eq {Body} (s : FlatConverter Body) lb ub ty :
  exists targs,
    DoAddVar lb ub ty s =
    (Ok (Select VarValues (Z.of_nat (length (vars s)))),
     set_auto_link
       (set_vars s (vars s ++ [{| v_lb := lb; v_ub := ub; v_type := ty |}]))
       (auto_link_src_item_ s) targs).
Proof.
  unfold DoAddVar, AddVar__basic, bind.
  match goal with
  | |- context [AutoLink ?nr ?s0] =>
      destruct (AutoLink_eq s0 nr) as [targs ->]
  end.
  exists targs. reflexivity.
Qed.

Lemma AddVars_returnIds_fresh {Body} n lb ub ty :
  dne lb ub = true ->
  forall s : FlatConverter Body,
  exists s',
    AddVars_returnIds n lb ub ty s
    = (Ok (map Z.of_nat (seq (length (vars s)) n)), s')
    /\ vars s' = vars s ++ repeat {| v_lb := lb; v_ub := ub; v_type := ty |} n
    /\ map_fixed_vars_ s' = map_fixed_vars_ s
    /\ keepers s' = keepers s.
Proof.
  intros Hne. induction n as [|n IH]; intros s.
  - exists s. simpl. rewrite app_nil_r. auto.
  - cbn [AddVars_returnIds]. unfold AddVar. rewrite Hne.
    destruct (DoAddVar_eq s lb ub ty) as [targs E].
    rewrite (bind_ok _ _ _ _ _ E).
    match type of E with _ = (_, ?s1) => destruct (IH s1) as (s' & E' & Hv & Hf & Hk) end.
    rewrite (bind_ok _ _ _ _ _ E'). exists s'. simpl in *.
    rewrite length_app in *. simpl in *.
    replace (length (vars s) + 1)%nat with (S (length (vars s))) in * by lia.
    split; [reflexivity|]. split; [|auto].
    rewrite Hv, <- app_assoc. reflexivity.
Qed.

Lemma AddVars_returnIds_hit {Body} n lb ub ty x :
  deq lb ub = true ->
  forall s : FlatConverter Body,
  fixed_find lb (map_fixed_vars_ s) = Some x ->
  exists s',
    AddVars_returnIds n lb ub ty s = (Ok (repeat x n), s')
    /\ vars s' = vars s /\ map_fixed_vars_ s' = map_fixed_vars_ s.
Proof.
  intros Hd. induction n as [|n IH]; intros s Hf.
  - exists s. simpl. auto.
  - cbn [AddVars_returnIds].
    destruct (MakeFixedVar_hit s lb x Hf) as [targs E].
    rewrite <- (AddVar_fixed s lb ub ty Hd) in E.
    rewrite (bind_ok _ _ _ _ _ E).
    match type of E with
    | _ = (_, ?s1) => destruct (IH s1 Hf) as (s' & E' & Hv & Hc)
    end.
    rewrite (bind_ok _ _ _ _ _ E'). exists s'. simpl in *. auto.
Qed.

(** X12: [AddVars_returnIds(nvars, lb, ub, type)] with [lb != ub] creates
    [nvars] new variables with these attributes and returns their
    consecutive indices.  With [lb == ub] it does not: all the ids
    returned are one and the same fixed variable, and at most one variable
    is created. *)
Theorem X12_add_vars_return_ids
        (Body : Type) (s : FlatConverter Body) (nvars : nat)
        (lb ub : double) (ty : VarType) :
  (dne lb ub = true ->
   exists s',
     AddVars_returnIds nvars lb ub ty s
     = (Ok (map Z.of_nat (seq (length (vars s)) nvars)), s')
     /\ vars s'
        = vars s ++ repeat {| v_lb := lb; v_ub := ub; v_type := ty |} nvars)
  /\ (dne lb ub = false ->
      exists x s',
        AddVars_returnIds nvars lb ub ty s = (Ok (repeat x nvars), s')
        /\ (length (vars s') <= length (vars s) + 1)%nat).
Proof.
  split; intros H.
  - destruct (AddVars_returnIds_fresh nvars lb ub ty H s)
      as (s' & E & Hv & _).
    exists s'. auto.
  - assert (Hd : deq lb ub = true).
    { unfold dne in H. apply negb_false_iff in H. exact H. }
    destruct (fixed_find lb (map_fixed_vars_ s)) as [x|] eqn:Ef.
    + destruct (AddVars_returnIds_hit nvars lb ub ty x Hd s Ef)
        as (s' & E & Hv & _).
      exists x, s'. split; [exact E|]. rewrite Hv. lia.
    + destruct nvars as [|n].
      { exists 0, s. simpl. split; [reflexivity|lia]. }
      cbn [AddVars_returnIds].
      destruct (MakeFixedVar_miss s lb Ef) as [targs E].
      rewrite <- (AddVar_fixed s lb ub ty Hd) in E.
      rewrite (bind_ok _ _ _ _ _ E).
      set (x := Z.of_nat (length (vars s))) in *.
      match type of E with
      | _ = (_, ?s1) =>
          destruct (AddVars_returnIds_hit n lb ub ty x Hd s1)
            as (s' & E' & Hv & _)
      end.
      { simpl. apply fixed_find_assign_same.
        apply (deq_not_nan _ _ Hd). }
      rewrite (bind_ok _ _ _ _ _ E'). exists x, s'.
      split; [reflexivity|]. rewrite Hv. simpl. rewrite length_app. simpl.
      lia.
Qed.

(** X26: What [AddConstraint] leaves when it returns: the range returned
    selects the new item, which is stored last in the keeper of its type
    and is the constraint that was given; the other keepers and the
    variables are untouched; the init expression of the result variable,
    if the constraint has one, is the new item, and without a result
    variable no init expression changes; and for a type stored with a map,
    [MapFind] of a constraint that equals itself now finds the new item. *)
Theorem X26_add_constraint_stores
        (Body : Type) (cfg : Config Body) (s s' : FlatConverter Body)
        (t : ConType) (con : Constraint Body) (nr : NodeRange) :
  AddConstraint cfg t con s = (Ok nr, s') ->
  let i := Z.of_nat (length (keepers s t)) in
  nr = SelectValueNodeRange t i
  /\ nr_index nr = i
  /\ GetConstraint t i s' = (Ok con, s')
  /\ length (keepers s' t) = S (length (keepers s t))
  /\ (forall t', t' <> t -> keepers s' t' = keepers s t')
  /\ vars s' = vars s
  /\ (0 <= result_var con ->
      GetInitExpression (result_var con) s'
      = (Ok {| ci_keeper := t; ci_index := i |}, s'))
  /\ (result_var con < 0 -> var_info_ s' = var_info_ s)
  /\ (is_mapped t = true ->
      body_eqb cfg (body con) (body con) = true ->
      MapFind cfg t con s' = (Ok i, s')).
Proof.
  intros H i.
  destruct (AddConstraint_ok _ _ _ _ _ _ H) as (Hnr & Hk & Hi & Hv).
  split; [exact Hnr|]. split; [rewrite Hnr; reflexivity|].
  split.
  { unfold GetConstraint. rewrite Hk, after_store_keepers, fupd_same.
    unfold i. rewrite zth_app_new. reflexivity. }
  split.
  { rewrite Hk, after_store_keepers, fupd_same, length_app. simpl. lia. }
  split.
  { intros t' Hne. rewrite Hk, after_store_keepers. apply fupd_other.
    congruence. }
  split; [exact Hv|].
  split.
  { intros Hr. unfold GetInitExpression.
    rewrite Hi, after_store_var_info.
    destruct (Z.leb_spec 0 (result_var con)); [|lia].
    rewrite Z.eqb_refl. reflexivity. }
  split.
  { intros Hr. rewrite Hi. unfold after_store.
    destruct (Z.leb_spec 0 (result_var con)); [lia|reflexivity]. }
  intros Hm Hb. unfold AddConstraint in H.
  apply bind_inv in H. destruct H as [(a & s0 & H0 & H1)|(e & _ & He)];
    [|discriminate].
  destruct (AutoLink_eq s0 a) as [targs Ha]. rewrite Ha in H1.
  injection H1 as _ <-.
  rewrite AddConstraintAndTryNoteResultVariable_eq in H0. cbv zeta in H0.
  rewrite Hm in H0.
  destruct (map_find cfg (body con) (con_maps s t)) eqn:E; [discriminate|].
  injection H0 as _ <-.
  unfold MapFind. rewrite Hm. unfold MapFind__Impl. simpl.
  rewrite fupd_same, after_store_con_maps_eq.
  rewrite (map_find_app_new _ _ _ _ E Hb). reflexivity.
Qed.


(* ------------------------------------------------------------------ *)
(** ** Narrowing and propagating bounds *)

Lemma set_vars_same {Body} (s : FlatConverter Body) : set_vars s (vars s) = s.
Proof. destruct s; reflexivity. Qed.

Lemma list_upd_ext {A} (l : list A) n (f g : A -> A) :
  (forall a, nth_error l n = Some a -> f a = g a) ->
  list_upd l n f = list_upd l n g.
Proof.
  revert n. induction l as [|x l IH]; intros n H; destruct n; simpl;
    try reflexivity.
  - rewrite (H x eq_refl). reflexivity.
  - f_equal. apply IH. exact H.
Qed.

Lemma list_upd_id {A} (l : list A) n :
  list_upd l n (fun a => a) = l.
Proof.
  revert n. induction l as [|x l IH]; intros n; destruct n; simpl;
    try reflexivity.
  f_equal. apply IH.
Qed.

Lemma list_upd_twice {A} (l : list A) n (f g : A -> A) :
  list_upd (list_upd l n f) n g = list_upd l n (fun a => g (f a)).
Proof.
  revert n. induction l as [|x l IH]; intros n; destruct n; simpl;
    try reflexivity.
  f_equal. apply IH.
Qed.

Lemma zupd_ext {A} (l : list A) i (f g : A -> A) :
  (forall a, zth l i = Some a -> f a = g a) -> zupd l i f = zupd l i g.
Proof.
  unfold zupd, zth. destruct (i <? 0); [reflexivity|].
  apply list_upd_ext.
Qed.

Lemma zupd_id {A} (l : list A) i (f : A -> A) :
  (forall a, zth l i = Some a -> f a = a) -> zupd l i f = l.
Proof.
  intros H. rewrite (zupd_ext l i f (fun a => a) H).
  unfold zupd. destruct (i <? 0); [reflexivity|apply list_upd_id].
Qed.

Lemma zupd_twice {A} (l : list A) i (f g : A -> A) :
  zupd (zupd l i f) i g = zupd l i (fun a => g (f a)).
Proof.
  unfold zupd. destruct (i <? 0); [reflexivity|apply list_upd_twice].
Qed.

(** [NarrowVarBounds] on an index that is not a variable of the model,
    and on a variable of the model. *)
Lemma NarrowVarBounds_bad {Body} (s : FlatConverter Body) var lb ub :
  zth (vars s) var = None ->
  NarrowVarBounds var lb ub s = (Throw BadIndex, s).
Proof.
  intros H. unfold NarrowVarBounds.
  apply bind_throw. unfold model_lb. rewrite H. reflexivity.
Qed.

Lemma NarrowVarBounds_eq {Body} (s : FlatConverter Body) var lb ub a :
  zth (vars s) var = Some a ->
  NarrowVarBounds var lb ub s =
  (if dgt (std_max (v_lb a) lb) (std_min (v_ub a) ub)
   then Throw (Infeasibility msg_empty_domain) else Ok tt,
   set_vars s (zupd (vars s) var (fun _ =>
     {| v_lb := std_max (v_lb a) lb; v_ub := std_min (v_ub a) ub;
        v_type := v_type a |}))).
Proof.
  intros H. unfold NarrowVarBounds.
  rewrite (bind_ok _ _ _ _ _ (model_lb_eq s var a H)).
  rewrite (bind_ok _ _ _ _ _ (model_set_lb_eq s var a _ H)).
  set (s1 := set_vars s _).
  assert (H1 : zth (vars s1) var
               = Some {| v_lb := std_max (v_lb a) lb; v_ub := v_ub a;
                         v_type := v_type a |}).
  { unfold s1, set_vars. cbn [vars]. rewrite zth_zupd_same, H.
    reflexivity. }
  rewrite (bind_ok _ _ _ _ _ (model_ub_eq s1 var _ H1)).
  rewrite (bind_ok _ _ _ _ _ (model_set_ub_eq s1 var _ _ H1)).
  set (s2 := set_vars s1 _).
  assert (H2 : zth (vars s2) var
               = Some {| v_lb := std_max (v_lb a) lb;
                         v_ub := std_min (v_ub a) ub;
                         v_type := v_type a |}).
  { unfold s2, set_vars. cbn [vars]. rewrite zth_zupd_same, H1.
    reflexivity. }
  rewrite (bind_ok _ _ _ _ _ (model_lb_eq s2 var _ H2)).
  rewrite (bind_ok _ _ _ _ _ (model_ub_eq s2 var _ H2)).
  simpl v_lb. simpl v_ub.
  assert (Es : s2 = set_vars s (zupd (vars s) var (fun _ =>
     {| v_lb := std_max (v_lb a) lb; v_ub := std_min (v_ub a) ub;
        v_type := v_type a |}))).
  { unfold s2, s1, set_vars. cbn. f_equal.
    rewrite zupd_twice. apply zupd_ext. intros a0 Ha0.
    rewrite H in Ha0. inversion Ha0; subst. reflexivity. }
  rewrite <- Es. destruct (dgt _ _); reflexivity.
Qed.

Lemma std_max_idem (a b : double) : std_max (std_max a b) b = std_max a b.
Proof.
  unfold std_max. destruct (dlt a b) eqn:E.
  - rewrite dlt_irrefl. reflexivity.
  - rewrite E. reflexivity.
Qed.

Lemma std_min_idem (a b : double) : std_min (std_min a b) b = std_min a b.
Proof.
  unfold std_min. destruct (dlt b a) eqn:E.
  - rewrite dlt_irrefl. reflexivity.
  - rewrite E. reflexivity.
Qed.

(** X13: [NarrowVarBounds] is idempotent: repeating a call with the same
    arguments changes nothing more and ends the same way, be it a return,
    the infeasibility or a bad index. *)
Theorem X13_narrow_idempotent
        (Body : Type) (s s' : FlatConverter Body) (var : Z)
        (lb ub : double) (r : Res unit) :
  NarrowVarBounds var lb ub s = (r, s') ->
  NarrowVarBounds var lb ub s' = (r, s').
Proof.
  intros H. destruct (zth (vars s) var) as [a|] eqn:E.
  - rewrite (NarrowVarBounds_eq s var lb ub a E) in H.
    injection H as Hr Hs.
    set (a' := {| v_lb := std_max (v_lb a) lb; v_ub := std_min (v_ub a) ub;
                  v_type := v_type a |}) in *.
    assert (E' : zth (vars s') var = Some a').
    { rewrite <- Hs. unfold set_vars. cbn [vars].
      rewrite zth_zupd_same, E. reflexivity. }
    rewrite (NarrowVarBounds_eq s' var lb ub a' E').
    unfold a' at 1 2 3 4 5. cbn [v_lb v_ub v_type].
    rewrite std_max_idem, std_min_idem, Hr. f_equal.
    transitivity (set_vars s' (vars s')); [|apply set_vars_same].
    f_equal. apply zupd_id. intros a0 Ha0. rewrite E' in Ha0.
    inversion Ha0; subst a0. reflexivity.
  - rewrite (NarrowVarBounds_bad s var lb ub E) in H.
    injection H as Hr Hs. subst r s'. apply NarrowVarBounds_bad. exact E.
Qed.

(** X14: An empty domain stays empty: once the lower bound of a variable
    is above its upper bound, every [NarrowVarBounds] of the variable,
    with whatever arguments, reports the infeasibility; no call widens
    the bounds again. *)
Theorem X14_empty_domain_is_permanent
        (Body : Type) (s : FlatConverter Body) (var : Z) (a : VarAttr)
        (lb ub : double) :
  zth (vars s) var = Some a ->
  dgt (v_lb a) (v_ub a) = true ->
  fst (NarrowVarBounds var lb ub s) = Throw (Infeasibility msg_empty_domain)
  /\ exists a',
       zth (vars (snd (NarrowVarBounds var lb ub s))) var = Some a'
       /\ dgt (v_lb a') (v_ub a') = true.
Proof.
  intros H Hg. rewrite (NarrowVarBounds_eq s var lb ub a H).
  assert (Hn : dgt (std_max (v_lb a) lb) (std_min (v_ub a) ub) = true).
  { unfold dgt in *. unfold std_max, std_min.
    destruct (dlt (v_lb a) lb) eqn:E1; destruct (dlt ub (v_ub a)) eqn:E2;
      eauto using dlt_trans. }
  simpl. rewrite Hn. split; [reflexivity|].
  eexists. rewrite zth_zupd_same, H. simpl. split; [reflexivity|exact Hn].
Qed.

Lemma std_max_nan_l (b : double) : std_max S754_nan b = S754_nan.
Proof. destruct b; reflexivity. Qed.

Lemma std_min_nan_l (b : double) : std_min S754_nan b = S754_nan.
Proof. destruct b; reflexivity. Qed.

Lemma dgt_nan_l (b : double) : dgt S754_nan b = false.
Proof. destruct b; reflexivity. Qed.

Lemma dgt_nan_r (b : double) : dgt b S754_nan = false.
Proof. destruct b; reflexivity. Qed.

(** X15: NaN and [NarrowVarBounds].  A NaN argument leaves the bound it is
    meant for as it is.  A bound that is NaN in the model stays NaN, and no
    narrowing of that variable reports an infeasibility. *)
Theorem X15_narrow_with_nan
        (Body : Type) (s : FlatConverter Body) (var : Z) (a : VarAttr)
        (lb ub : double) :
  zth (vars s) var = Some a ->
  exists a',
    zth (vars (snd (NarrowVarBounds var lb ub s))) var = Some a'
    /\ (is_nan lb = true -> v_lb a' = v_lb a)
    /\ (is_nan ub = true -> v_ub a' = v_ub a)
    /\ (is_nan (v_lb a) = true ->
        is_nan (v_lb a') = true
        /\ fst (NarrowVarBounds var lb ub s) = Ok tt)
    /\ (is_nan (v_ub a) = true ->
        is_nan (v_ub a') = true
        /\ fst (NarrowVarBounds var lb ub s) = Ok tt).
Proof.
  intros H. rewrite (NarrowVarBounds_eq s var lb ub a H). simpl.
  eexists. rewrite zth_zupd_same, H. simpl. split; [reflexivity|].
  repeat split.
  - intros Hn. destruct lb; try discriminate. unfold std_max.
    destruct (v_lb a); reflexivity.
  - intros Hn. destruct ub; try discriminate. unfold std_min.
    destruct (v_ub a); reflexivity.
  - destruct (v_lb a); try discriminate H0. rewrite std_max_nan_l.
    reflexivity.
  - destruct (v_lb a); try discriminate H0.
    rewrite std_max_nan_l, dgt_nan_l. reflexivity.
  - destruct (v_ub a); try discriminate H0. rewrite std_min_nan_l.
    reflexivity.
  - destruct (v_ub a); try discriminate H0.
    rewrite std_min_nan_l, dgt_nan_r. reflexivity.
Qed.

Lemma HasInitExpression_set_vars {Body} (s : FlatConverter Body) x var :
  HasInitExpression (set_vars s x) var = HasInitExpression s var.
Proof. reflexivity. Qed.

(** [PropagateResultOfInitExpr] on a variable of the model. *)
Lemma PropagateResultOfInitExpr_eq {Body}
      (prop : ConType -> Z -> double -> double -> Context -> M Body unit)
      (s : FlatConverter Body) var lb ub ctx a :
  zth (vars s) var = Some a ->
  PropagateResultOfInitExpr prop var lb ub ctx s =
  let s1 := set_vars s (zupd (vars s) var (fun _ =>
              {| v_lb := std_max (v_lb a) lb; v_ub := std_min (v_ub a) ub;
                 v_type := v_type a |})) in
  if dgt (std_max (v_lb a) lb) (std_min (v_ub a) ub)
  then (Throw (Infeasibility msg_empty_domain), s1)
  else match zth (var_info_ s) var with
       | Some (Some ci) => prop (ci_keeper ci) (ci_index ci) lb ub ctx s1
       | _ => (Ok tt, s1)
       end.
Proof.
  intros H. unfold PropagateResultOfInitExpr. cbv zeta.
  pose proof (NarrowVarBounds_eq s var lb ub a H) as E.
  destruct (dgt (std_max (v_lb a) lb) (std_min (v_ub a) ub)).
  - apply bind_throw. exact E.
  - rewrite (bind_ok _ _ _ _ _ E).
    match goal with
    | |- (x <- get ;; _) ?s1 = _ => rewrite (bind_ok get _ s1 s1 s1 eq_refl)
    end.
    unfold HasInitExpression, GetInitExpression. cbn [var_info_ set_vars].
    destruct (zth (var_info_ s) var) as [[ci|]|] eqn:Ei; try reflexivity.
    unfold bind. cbn [var_info_ set_vars]. rewrite Ei. reflexivity.
Qed.

Lemma deq_d_one (x : double) : deq x d_one = true -> x = d_one.
Proof.
  intros H. apply deq_spec in H. destruct H as (_ & _ & H).
  destruct x as [sx|sx| |sx mx ex]; simpl in H; try discriminate H;
    try (destruct sx; discriminate H).
  destruct sx; inversion H; subst. reflexivity.
Qed.

Lemma fix_outside (l u : double) :
  is_nan l = false -> is_nan u = false ->
  dlt u d_one = true \/ dlt d_one l = true ->
  dgt (std_max l d_one) (std_min u d_one) = true.
Proof.
  intros Nl Nu Hout. unfold dgt, std_max, std_min.
  destruct Hout as [Hu|Hl].
  - rewrite (dlt_asym _ _ Hu).
    destruct (dlt l d_one) eqn:E; [exact Hu|].
    destruct (dlt_total l d_one Nl eq_refl) as [L|[L|L]].
    + congruence.
    + apply (dlt_deq_r u d_one l); [apply deq_sym; exact L|exact Hu].
    + eapply dlt_trans; eauto.
  - rewrite (dlt_asym _ _ Hl).
    destruct (dlt d_one u) eqn:E; [exact Hl|].
    destruct (dlt_total d_one u eq_refl Nu) as [L|[L|L]].
    + congruence.
    + apply (dlt_deq_l d_one u l); [exact L|exact Hl].
    + eapply dlt_trans; eauto.
Qed.

Lemma fix_inside (l u : double) :
  dle l d_one = true -> dle d_one u = true ->
  std_max l d_one = d_one /\ std_min u d_one = d_one.
Proof.
  intros Hl Hu. rewrite dle_dlt_deq in Hl, Hu. unfold std_max, std_min.
  split.
  - destruct (dlt l d_one); [reflexivity|]. simpl in Hl.
    apply deq_d_one. exact Hl.
  - destruct (dlt d_one u); [reflexivity|]. simpl in Hu.
    apply deq_d_one. apply deq_sym. exact Hu.
Qed.

(** X16: [FixAsTrue(v)] on a variable of the model with bounds that are
    numbers.  When 1 is outside the bounds of [v], it reports the
    infeasibility and the keeper's propagator is not called.  When 1 is
    inside, both bounds become 1; then the propagator of the init
    expression of [v], if there is one, is called with bounds 1 and 1 and
    the positive context, and without an init expression nothing else
    happens. *)
Theorem X16_fix_as_true
        (Body : Type) (s : FlatConverter Body) (v : Z) (a : VarAttr) :
  zth (vars s) v = Some a ->
  (is_nan (v_lb a) = false -> is_nan (v_ub a) = false ->
   dlt (v_ub a) d_one = true \/ dlt d_one (v_lb a) = true ->
   exists s1,
     forall prop, FixAsTrue prop v s
                  = (Throw (Infeasibility msg_empty_domain), s1))
  /\ (dle (v_lb a) d_one = true -> dle d_one (v_ub a) = true ->
      let s1 := set_vars s (zupd (vars s) v (fun _ =>
                  {| v_lb := d_one; v_ub := d_one;
                     v_type := v_type a |})) in
      forall prop,
        FixAsTrue prop v s =
        match zth (var_info_ s) v with
        | Some (Some ci) =>
            prop (ci_keeper ci) (ci_index ci) d_one d_one CTX_POS s1
        | _ => (Ok tt, s1)
        end).
Proof.
  intros H. split.
  - intros Nl Nu Hout. eexists. intros prop. unfold FixAsTrue.
    rewrite (PropagateResultOfInitExpr_eq prop s v d_one d_one _ a H).
    cbv zeta. rewrite (fix_outside _ _ Nl Nu Hout). reflexivity.
  - intros Hl Hu s1 prop. unfold FixAsTrue.
    rewrite (PropagateResultOfInitExpr_eq prop s v d_one d_one _ a H).
    cbv zeta. destruct (fix_inside _ _ Hl Hu) as [-> ->].
    reflexivity.
Qed.

(** X17: [set_var_lb(var, lb)] stores the bound and checks nothing;
    [set_var_lb_context(var, lb, ctx)] stores it as well, reports the
    infeasibility when the new lower bound is above the upper bound, and
    otherwise hands the new bounds and [ctx] to the propagator of the init
    expression of the variable, if it has one. *)
Theorem X17_set_var_lb_context
        (Body : Type) (s : FlatConverter Body) (var : Z) (a : VarAttr)
        (new_lb : double) :
  zth (vars s) var = Some a ->
  let s1 := set_vars s (zupd (vars s) var (fun _ =>
              {| v_lb := new_lb; v_ub := v_ub a; v_type := v_type a |})) in
  set_var_lb var new_lb s = (Ok tt, s1)
  /\ forall prop ctx,
       set_var_lb_context prop var new_lb ctx s =
       if dgt new_lb (v_ub a)
       then (Throw (Infeasibility msg_empty_domain), s1)
       else match zth (var_info_ s) var with
            | Some (Some ci) =>
                prop (ci_keeper ci) (ci_index ci) new_lb (v_ub a) ctx s1
            | _ => (Ok tt, s1)
            end.
Proof.
  intros H s1.
  assert (E1 : set_var_lb var new_lb s = (Ok tt, s1)).
  { unfold set_var_lb. rewrite (model_set_lb_eq s var a new_lb H).
    unfold s1, set_vars. f_equal. f_equal. apply zupd_ext.
    intros a0 Ha0. rewrite H in Ha0. inversion Ha0; subst. reflexivity. }
  split; [exact E1|]. intros prop ctx.
  unfold set_var_lb_context. rewrite (bind_ok _ _ _ _ _ E1).
  set (a1 := {| v_lb := new_lb; v_ub := v_ub a; v_type := v_type a |}).
  assert (H1 : zth (vars s1) var = Some a1).
  { unfold s1, set_vars. cbn [vars]. rewrite zth_zupd_same, H.
    reflexivity. }
  unfold PropagateResultOfInitExpr_var, lb, ub.
  rewrite (bind_ok _ _ _ _ _ (model_lb_eq s1 var a1 H1)).
  rewrite (bind_ok _ _ _ _ _ (model_ub_eq s1 var a1 H1)).
  rewrite (PropagateResultOfInitExpr_eq prop s1 var _ _ ctx a1 H1).
  cbv zeta. cbn [v_lb v_ub v_type a1].
  assert (Em : std_max new_lb new_lb = new_lb)
    by (unfold std_max; rewrite dlt_irrefl; reflexivity).
  assert (En : std_min (v_ub a) (v_ub a) = v_ub a)
    by (unfold std_min; rewrite dlt_irrefl; reflexivity).
  rewrite Em, En.
  assert (Es : set_vars s1 (zupd (vars s1) var (fun _ => a1)) = s1).
  { transitivity (set_vars s1 (vars s1)); [|apply set_vars_same].
    f_equal. apply zupd_id. intros a0 Ha0. rewrite H1 in Ha0.
    inversion Ha0; reflexivity. }
  change {| v_lb := new_lb; v_ub := v_ub a; v_type := v_type a |} with a1.
  rewrite Es. reflexivity.
Qed.

(* ------------------------------------------------------------------ *)
(** ** The end of the model input *)


(* ------------------------------------------------------------------ *)
(** ** The solver application: file names and the order of actions *)

Lemma strrchr_suffix (s : string) (c : ascii) (r : string) :
  SolverApp.strrchr s c = Some r -> exists pre, s = (pre ++ r)%string.
Proof.
  revert r. induction s as [|a s IH]; intros r H; simpl in H.
  - discriminate.
  - destruct (SolverApp.strrchr s c) as [r'|] eqn:E.
    + inversion H; subst. destruct (IH _ eq_refl) as [pre ->].
      exists (String a pre). reflexivity.
    + destruct (Ascii.eqb a c); [|discriminate].
      inversion H; subst. exists EmptyString. reflexivity.
Qed.

Lemma strrchr_nl (f : string) :
  SolverApp.strrchr (f ++ ".nl") "."%char = Some ".nl"%string.
Proof.
  induction f as [|a f IH]; simpl.
  - reflexivity.
  - simpl in IH. rewrite IH. reflexivity.
Qed.

Lemma string_length_app (a b : string) :
  String.length (a ++ b) = (String.length a + String.length b)%nat.
Proof. induction a as [|c a IH]; simpl; [reflexivity|]. rewrite IH. reflexivity. Qed.

Lemma substring_prefix (pre rest : string) :
  substring 0 (String.length pre) (pre ++ rest) = pre.
Proof.
  induction pre as [|c pre IH]; simpl.
  - destruct rest; reflexivity.
  - rewrite IH. reflexivity.
Qed.

Lemma nl_names_nl (f : string) :
  SolverApp.nl_names (f ++ ".nl") = ((f ++ ".nl")%string, f).
Proof.
  unfold SolverApp.nl_names. rewrite strrchr_nl. simpl String.eqb.
  cbv iota. f_equal.
  rewrite string_length_app. simpl String.length.
  replace (String.length f + 3 - 3)%nat with (String.length f) by lia.
  apply substring_prefix.
Qed.

Lemma nl_names_stem (f : string) :
  fst (SolverApp.nl_names f)
  = (snd (SolverApp.nl_names f) ++ ".nl")%string.
Proof.
  unfold SolverApp.nl_names.
  destruct (SolverApp.strrchr f "."%char) as [ext|] eqn:E; [|reflexivity].
  destruct (String.eqb ext ".nl") eqn:Ee; [|reflexivity].
  apply String.eqb_eq in Ee. subst ext.
  destruct (strrchr_suffix _ _ _ E) as [pre ->]. simpl fst. simpl snd.
  rewrite string_length_app. simpl String.length.
  replace (String.length pre + 3 - 3)%nat with (String.length pre) by lia.
  rewrite substring_prefix. reflexivity.
Qed.

(** X20: The two file names [Run] derives from the stub always agree: the
    .nl file name is the name without extension followed by ".nl".  A
    stub that ends in ".nl" is taken as the .nl file itself, so that
    [stub] and [stub.nl] name the same problem provided [stub] itself has
    no ".nl" extension; any other extension is kept as a part of the
    name. *)
Theorem X20_nl_file_names
        (filename : string) :
  fst (SolverApp.nl_names filename)
  = (snd (SolverApp.nl_names filename) ++ ".nl")%string
  /\ SolverApp.nl_names (filename ++ ".nl")
     = ((filename ++ ".nl")%string, filename)
  /\ (SolverApp.strrchr filename "."%char <> Some ".nl"%string ->
      SolverApp.nl_names filename
      = SolverApp.nl_names (filename ++ ".nl")).
Proof.
  split; [apply nl_names_stem|]. split; [apply nl_names_nl|].
  intros H. rewrite nl_names_nl. unfold SolverApp.nl_names.
  destruct (SolverApp.strrchr filename "."%char) as [ext|]; [|reflexivity].
  destruct (String.eqb ext ".nl") eqn:Ee; [|reflexivity].
  apply String.eqb_eq in Ee. congruence.
Qed.

(** X21: Whenever [Run] hands a solution writer to [Solve], the option
    [wantsol] is not 0, the stub of the writer is the name without
    extension of the one .nl file that was read, the builder was finished
    after the reading, and the number of backspaces of the writer is 0 when
    something went through the output handler after the banner and the
    length of the banner otherwise.  The input time, printed exactly when
    [timing] is set, goes through the output handler: with it the number
    of backspaces is 0.  The banner is always the first action. *)
Theorem X21_run_solution_writer
        (env : SolverApp.Collaborators) (argv : list string)
        (stub : string) (banner_size : nat)
        (reports : list SolverApp.SolutionReport) :
  In (SolverApp.Solved (SolverApp.AppSolutionWriter stub banner_size)
        reports)
     (snd (SolverApp.Run env argv)) ->
  SolverApp.wantsol env <> 0
  /\ banner_size
     = (if SolverApp.has_output env || SolverApp.timing env then 0%nat
        else String.length (SolverApp.long_name env ++ ": "))
  /\ exists time,
       snd (SolverApp.Run env argv)
       = [SolverApp.Stdout (SolverApp.long_name env ++ ": ");
          SolverApp.ReadFile (stub ++ ".nl"); SolverApp.EndBuild]
         ++ time
         ++ [SolverApp.Solved
               (SolverApp.AppSolutionWriter stub banner_size) reports]
       /\ ((SolverApp.timing env = false /\ time = [])
           \/ (SolverApp.timing env = true
               /\ time = [SolverApp.Stdout (SolverApp.input_time_text env)]
               /\ banner_size = 0%nat)).
Proof.
  unfold SolverApp.Run.
  destruct (SolverApp.Parse env argv) as [[filename|]|e]; simpl;
    try tauto.
  pose proof (nl_names_stem filename) as Hs.
  destruct (SolverApp.nl_names filename) as [nl noext]. simpl in Hs.
  destruct (SolverApp.ParseOptions env argv _) as [[|]|e]; simpl;
    try (intros [H|[]]; discriminate H).
  destruct (SolverApp.GetProblemBuilder env noext) as [[]|e]; simpl;
    try (intros [H|[]]; discriminate H).
  destruct (SolverApp.Read env nl) as [[]|e]; simpl;
    try (intros [H|[H|[]]]; discriminate H).
  destruct (SolverApp.DoEndBuild env) as [[]|e]; simpl;
    try (intros [H|[H|[H|[]]]]; discriminate H).
  destruct (SolverApp.Solve env _) as [reps|e] eqn:Es.
  2:{ simpl. destruct (SolverApp.timing env); simpl;
      intros H; decompose [or] H; try discriminate; tauto. }
  simpl. intros H.
  assert (Hh : (if negb (SolverApp.wantsol env =? 0)
                then SolverApp.AppSolutionWriter noext
                       (if SolverApp.has_output env || SolverApp.timing env
                        then 0%nat
                        else String.length (SolverApp.long_name env ++ ": "))
                else SolverApp.NullSolutionHandler)
               = SolverApp.AppSolutionWriter stub banner_size
               /\ reps = reports).
  { destruct (SolverApp.timing env); simpl in H;
      decompose [or] H; try discriminate; try tauto;
      match goal with
      | E : SolverApp.Solved _ _ = SolverApp.Solved _ _ |- _ =>
          inversion E; subst; split; reflexivity
      end. }
  destruct Hh as [Hh ->].
  destruct (Z.eqb_spec (SolverApp.wantsol env) 0) as [Hz|Hz];
    simpl in Hh; [discriminate|].
  inversion Hh; subst stub banner_size. clear Hh.
  split; [exact Hz|]. split; [reflexivity|].
  rewrite Hs.
  destruct (SolverApp.timing env).
  - exists [SolverApp.Stdout (SolverApp.input_time_text env)].
    split; [reflexivity|right].
    rewrite Bool.orb_true_r. repeat split.
  - exists []. split; [reflexivity|left; split; reflexivity].
Qed.


(* ------------------------------------------------------------------ *)
(** ** Solver options *)

Lemma land_lnot_15 (v : Z) : Z.land v (Z.lnot 15) = 0 <-> 0 <= v <= 15.
Proof.
  change 15 with (Z.ones 4) at 1.
  rewrite <- Z.ldiff_land, Z.ldiff_ones_r by lia.
  rewrite Z.shiftl_mul_pow2, Z.shiftr_div_pow2 by lia.
  change (2 ^ 4) with 16. split.
  - intros H. assert (H0 : v / 16 = 0) by lia.
    apply Z.div_small_iff in H0; lia.
  - intros H. rewrite Z.div_small by lia. reflexivity.
Qed.

Lemma to_int_small (z : Z) :
  - 2 ^ 31 <= z <= Options.INT_MAX -> Options.to_int z = z.
Proof.
  unfold Options.INT_MAX, Options.to_int. intros H.
  rewrite Z.mod_small by lia. lia.
Qed.

Lemma to_int_nonnil (z : Z) :
  Z.to_int z <> Decimal.Pos Decimal.Nil
  /\ Z.to_int z <> Decimal.Neg Decimal.Nil.
Proof.
  destruct z as [|p|p]; simpl; split; try discriminate;
    intros H; inversion H as [H0];
    exact (DecimalPos.Unsigned.to_uint_nonnil p H0).
Qed.

Lemma fmt_int_inj (a b : Z) : Options.fmt_int a = Options.fmt_int b -> a = b.
Proof.
  unfold Options.fmt_int. intros H.
  apply (f_equal NilZero.int_of_string) in H.
  destruct (to_int_nonnil a) as [A1 A2].
  destruct (to_int_nonnil b) as [B1 B2].
  rewrite !NilZero.isi in H by assumption.
  inversion H as [H0]. apply DecimalZ.to_int_inj. exact H0.
Qed.

(** X22: [SetWantSol] accepts exactly the values 0 to 15, the sums of the
    four flags: the value is then stored and [GetWantSol] returns it.
    Every other value, every negative one among them, is refused as an
    invalid value of option "wantsol" and the solver is not changed. *)
Theorem X22_wantsol_accepts_0_to_15
        (s : Options.Solver) (value : Z) :
  (0 <= value <= 15 ->
   exists s', Options.SetWantSol value s = Options.Returns s'
              /\ Options.GetWantSol s' = value
              /\ Options.objno s' = Options.objno s
              /\ Options.need_multiple_solutions s'
                 = Options.need_multiple_solutions s)
  /\ (~ 0 <= value <= 15 ->
      Options.SetWantSol value s
      = Options.Throws
          (Options.InvalidOptionValue
             (Options.Format "wantsol" (Options.fmt_int value)))).
Proof.
  unfold Options.SetWantSol.
  destruct (Z.eqb_spec (Z.land value (Z.lnot 15)) 0) as [E|E];
    rewrite land_lnot_15 in E; simpl; split; intros H; try contradiction.
  - eexists. repeat split.
  - reflexivity.
Qed.

Lemma advance_add (a b : nat) (s : string) :
  Options.advance (a + b) s = Options.advance b (Options.advance a s).
Proof.
  revert s. induction a as [|a IH]; intros s; simpl.
  - reflexivity.
  - destruct s as [|c r]; simpl.
    + destruct b; reflexivity.
    + apply IH.
Qed.

Lemma in_token_head (c : ascii) (r : string) :
  Options.in_token (String c r) = true ->
  c <> zero /\ Options.isspace c = false.
Proof.
  unfold Options.in_token. simpl. intros H.
  apply andb_prop in H. destruct H as [H1 H2].
  apply negb_true_iff in H1, H2. split; [|exact H2].
  intros ->. discriminate.
Qed.

(** The loop of [Parse] stops at the first character that is NUL or a
    space, after the characters of the token. *)
Lemma while_in_token_split (s : string) :
  let k := Options.while_in_token s in
  s = (substring 0 k s ++ Options.advance k s)%string
  /\ String.length (substring 0 k s) = k
  /\ Options.in_token (Options.advance k s) = false
  /\ (forall c, In c (list_ascii_of_string (substring 0 k s)) ->
                c <> zero /\ Options.isspace c = false).
Proof.
  induction s as [|c r IH].
  - simpl. split; [reflexivity|]. split; [reflexivity|].
    split; [reflexivity|]. intros c [].
  - cbn [Options.while_in_token].
    destruct (Options.in_token (String c r)) eqn:E.
    + destruct IH as (I1 & I2 & I3 & I4). cbv zeta.
      cbn [substring Options.advance].
      split; [simpl; f_equal; exact I1|].
      split; [simpl; f_equal; exact I2|].
      split; [exact I3|].
      intros c0 [<-|H]; [|apply I4; exact H].
      apply (in_token_head _ _ E).
    + cbv zeta. cbn [substring Options.advance].
      split; [reflexivity|]. split; [reflexivity|].
      split; [exact E|]. intros c0 [].
Qed.

Lemma substring_add (n k : nat) (s : string) :
  (n <= String.length s)%nat ->
  substring 0 (n + k) s
  = (substring 0 n s ++ substring 0 k (Options.advance n s))%string.
Proof.
  revert s. induction n as [|n IH]; intros s H; simpl.
  - destruct s; reflexivity.
  - destruct s as [|c r]; simpl in *; [lia|].
    f_equal. apply IH. lia.
Qed.

(** X23: [TypedSolverOption<T>::Parse] accepts a value only when the
    character after it is a NUL or a space, and then sets exactly the
    value that was parsed.  Otherwise it does not set anything: it throws
    an invalid-value error whose text is the input from the start of the
    value to the next space or the end, and it leaves the pointer there,
    at the first character that is not part of the rejected token. *)
Theorem X23_parse_rejects_trailing_characters
        (T St : Type) (OptionHelper_Parse : string -> T * nat)
        (SetValue : T -> St -> Options.Outcome St)
        (opt_name start : string) (st : St) (value : T) (n : nat) :
  OptionHelper_Parse start = (value, n) ->
  (n <= String.length start)%nat ->
  let s := Options.advance n start in
  (Options.in_token s = false ->
   Options.Parse OptionHelper_Parse SetValue opt_name start st
   = (SetValue value st, n))
  /\ (Options.in_token s = true ->
      exists junk rest,
        s = (junk ++ rest)%string
        /\ junk <> EmptyString
        /\ (forall c, In c (list_ascii_of_string junk) ->
                      c <> zero /\ Options.isspace c = false)
        /\ Options.in_token rest = false
        /\ Options.Parse OptionHelper_Parse SetValue opt_name start st
           = (Options.Throws
                (Options.InvalidOptionValue
                   (Options.Format opt_name
                      (substring 0 n start ++ junk))),
              (n + String.length junk)%nat)
        /\ Options.advance (n + String.length junk) start = rest).
Proof.
  intros Hp Hn s. unfold Options.Parse. rewrite Hp. fold s. split.
  - intros ->. reflexivity.
  - intros Ht. rewrite Ht.
    destruct (while_in_token_split s) as (I1 & I2 & I3 & I4).
    assert (Hk : S (Options.while_in_token (Options.advance 1 s))
                 = Options.while_in_token s).
    { destruct s as [|c r]; [discriminate Ht|].
      cbn [Options.while_in_token Options.advance]. rewrite Ht.
      reflexivity. }
    rewrite Hk. cbv zeta in I1, I2, I3, I4.
    exists (substring 0 (Options.while_in_token s) s),
           (Options.advance (Options.while_in_token s) s).
    split; [exact I1|].
    split.
    { intros He. rewrite He in I2. rewrite <- Hk in I2. discriminate I2. }
    split; [exact I4|]. split; [exact I3|].
    rewrite I2. split.
    + rewrite (substring_add n _ start Hn). reflexivity.
    + apply advance_add.
Qed.

(** X24: The option [objno] and the header of the problem.  [SetObjNo]
    refuses a negative value and stores any other, which [GetObjNo] gives
    back.  [OnHeader] then refuses a value above the number of objectives
    of the problem; otherwise the reader is told objective [objno - 1],
    an index below the number of objectives, or all objectives when
    [multiobj] is set, and the handler notes the number of options of the
    header. *)
Theorem X24_objno_selects_objective
        (NEED_ALL_OBJS : Z) (opt : Options.SolverOption)
        (s : Options.Solver) (value : Z)
        (h : Options.NLHeader) (hd : Options.SolverNLHandler) :
  (value < 0 ->
   Options.SetObjNo opt value s
   = Options.Throws
       (Options.InvalidOptionValue
          (Options.Format (Options.name opt) (Options.fmt_int value))))
  /\ (0 <= value ->
      exists s',
        Options.SetObjNo opt value s = Options.Returns s'
        /\ Options.GetObjNo s' = value
        /\ (Options.num_objs h < value ->
            Options.OnHeader NEED_ALL_OBJS s' h hd
            = Options.Throws
                (Options.InvalidOptionValue
                   (Options.Format "objno" (Options.fmt_int value))))
        /\ (value <= Options.num_objs h ->
            exists hd',
              Options.OnHeader NEED_ALL_OBJS s' h hd = Options.Returns hd'
              /\ Options.obj_index hd'
                 = (if Options.multiobj s then NEED_ALL_OBJS
                    else value - 1)
              /\ (Options.multiobj s = false ->
                  -1 <= Options.obj_index hd' < Options.num_objs h)
              /\ Options.nl_num_options_ hd' = Options.num_options h
              /\ Options.base_header hd' = Some h)).
Proof.
  unfold Options.SetObjNo. split; intros H.
  - destruct (Z.ltb_spec value 0); [reflexivity|lia].
  - destruct (Z.ltb_spec value 0); [lia|].
    eexists. split; [reflexivity|]. split.
    { unfold Options.GetObjNo. simpl. lia. }
    unfold Options.OnHeader, Options.objno, Options.multiobj. simpl.
    split; intros Hv.
    + destruct (Z.gtb_spec value (Options.num_objs h)); [reflexivity|lia].
    + destruct (Z.gtb_spec value (Options.num_objs h)); [lia|].
      eexists. split; [reflexivity|]. simpl.
      destruct (Z.eqb_spec value (-1)); [lia|]. simpl.
      repeat split; intros; subst; try rewrite H2; try lia;
        destruct (Options.multiobj_ s); try reflexivity; try discriminate;
        lia.
Qed.

(* ------------------------------------------------------------------ *)
(** ** Writing solutions *)

Lemma string_app_inv_head (a b c : string) :
  (a ++ b)%string = (a ++ c)%string -> b = c.
Proof.
  induction a as [|x a IH]; simpl; intros H; [exact H|].
  inversion H. auto.
Qed.

Lemma string_app_inv_tail (a b c : string) :
  (a ++ c)%string = (b ++ c)%string -> a = b.
Proof.
  revert b. induction a as [|x a IH]; intros b H; destruct b as [|y b].
  - reflexivity.
  - apply (f_equal String.length) in H. simpl in H.
    rewrite string_length_app in H. lia.
  - apply (f_equal String.length) in H. simpl in H.
    rewrite string_length_app in H. lia.
  - simpl in H. inversion H; subst. f_equal. apply IH. assumption.
Qed.

(** The name of the file of the [i]-th feasible solution. *)
Lemma feasible_file_name_inj (stub : string) (i j : Z) :
  (stub ++ Options.fmt_int i ++ ".sol")%string
  = (stub ++ Options.fmt_int j ++ ".sol")%string ->
  i = j.
Proof.
  intros H. apply string_app_inv_head, string_app_inv_tail in H.
  apply fmt_int_inj. exact H.
Qed.

Section WriterFacts.

Variable UNSOLVED : Z.
Variable solver : Options.Solver.
Variables num_vars num_algebraic_cons : Z.

Notation feasible_solutions :=
  (Options.feasible_solutions UNSOLVED solver num_vars num_algebraic_cons).

Lemma feasible_solutions_run sols :
  forall (w : Options.SolutionWriter) (k : nat),
    Options.num_solutions_ w = Z.of_nat k ->
    Z.of_nat (k + length sols) <= Options.INT_MAX ->
    exists w',
      feasible_solutions w sols =
      (w',
       if String.eqb (Options.solution_stub solver) EmptyString then []
       else map (fun p =>
                   Options.Write
                     (Options.solution_stub solver
                        ++ Options.fmt_int (Z.of_nat (fst p)) ++ ".sol")%string
                     (Options.feasible_adapter UNSOLVED num_vars
                        num_algebraic_cons (fst (fst (snd p)))
                        (snd (fst (snd p))) (snd (snd p))))
                (combine (seq (S k) (length sols)) sols))
      /\ Options.num_solutions_ w' = Z.of_nat (k + length sols)
      /\ Options.filename_ w' = Options.filename_ w
      /\ Options.options_ w' = Options.options_ w.
Proof.
  induction sols as [|[[msg vals] duals] sols IH]; intros w k Hk Hmax.
  - exists w. simpl. rewrite Nat.add_0_r.
    destruct (String.eqb _ _); auto.
  - cbn [Options.feasible_solutions length] in *.
    unfold Options.HandleFeasibleSolution.
    assert (Hn : Options.to_int (Options.num_solutions_ w + 1)
                 = Z.of_nat (S k)).
    { rewrite to_int_small; [lia|]. unfold Options.INT_MAX in *. lia. }
    rewrite Hn.
    set (w1 := {| Options.filename_ := Options.filename_ w;
                  Options.options_ := Options.options_ w;
                  Options.num_solutions_ := Z.of_nat (S k) |}).
    destruct (IH w1 (S k) eq_refl) as (w' & E & Hc & Hf & Ho); [lia|].
    exists w'.
    destruct (String.eqb (Options.solution_stub solver) EmptyString);
      rewrite E; simpl; (split; [reflexivity|]);
      (split; [rewrite Hc; f_equal; lia|auto]).
Qed.

End WriterFacts.

(** X25: A solution writer that receives [n] feasible solutions and then
    the final one.  With a solution stub, the feasible solutions are
    written, in order, to the files [stub1.sol], [stub2.sol], ..., which
    are pairwise different, each with the status "unsolved" and without
    options; without a solution stub nothing is written for them.  They
    are counted in both cases: the final call sets the suffix [nsol] to
    [n] when multiple solutions are asked for, and writes the final
    solution to the file named by the stub of the problem. *)
Theorem X25_solution_writer_numbers_solutions
        (UNSOLVED : Z) (solver : Options.Solver)
        (num_vars num_algebraic_cons : Z)
        (stub : string) (options : list Z)
        (sols : list (string * option (list double)
                      * option (list double))) :
  Z.of_nat (length sols) <= Options.INT_MAX ->
  exists w,
    Options.feasible_solutions UNSOLVED solver num_vars num_algebraic_cons
      (Options.make_SolutionWriter stub options) sols
    = (w,
       if String.eqb (Options.solution_stub solver) EmptyString then []
       else
         map (fun p =>
                Options.Write
                  (Options.solution_stub solver
                     ++ Options.fmt_int (Z.of_nat (fst p)) ++ ".sol")%string
                  (Options.feasible_adapter UNSOLVED num_vars
                     num_algebraic_cons (fst (fst (snd p)))
                     (snd (fst (snd p))) (snd (snd p))))
             (combine (seq 1 (length sols)) sols))
    /\ (forall i j : Z,
          (Options.solution_stub solver ++ Options.fmt_int i ++ ".sol")%string
          = (Options.solution_stub solver ++ Options.fmt_int j
               ++ ".sol")%string ->
          i = j)
    /\ forall st msg vals duals,
         Options.HandleSolution solver num_vars num_algebraic_cons
           w st msg vals duals
         = (if Options.need_multiple_solutions solver
            then [Options.SetNsol (Z.of_nat (length sols))] else [])
           ++ [Options.Write (stub ++ ".sol")%string
                 {| Options.status := st; Options.has_builder := true;
                    Options.message := msg;
                    Options.sol_options := options;
                    Options.values := Options.MakeArrayRef vals num_vars;
                    Options.dual_values :=
                      Options.MakeArrayRef duals num_algebraic_cons |}].
Proof.
  intros Hmax.
  destruct (feasible_solutions_run UNSOLVED solver num_vars
              num_algebraic_cons sols
              (Options.make_SolutionWriter stub options) 0 eq_refl Hmax)
    as (w & E & Hc & Hf & Ho).
  exists w. split; [exact E|]. split.
  - intros i j. apply feasible_file_name_inj.
  - intros st msg vals duals. unfold Options.HandleSolution.
    unfold Options.final_adapter. rewrite Hc, Hf, Ho. reflexivity.
Qed.

(* ------------------------------------------------------------------ *)
(** ** Instances *)

Lemma X1_sos_order_independent_witness :
  SOS.make 2 Examples.sos_vars Examples.sos_weights
           SOS.default_SOSExtraInfo = Ok Examples.sos_built
  /\ length [20; 30; 10] = length Examples.sos_weights_sorted
  /\ Permutation (combine Examples.sos_weights_sorted [20; 30; 10])
                 (combine Examples.sos_weights Examples.sos_vars)
  /\ SOS.make 2 [20; 30; 10] Examples.sos_weights_sorted
              SOS.default_SOSExtraInfo = Ok Examples.sos_built.
Proof.
  assert (H1 : SOS.make 2 Examples.sos_vars Examples.sos_weights
                        SOS.default_SOSExtraInfo = Ok Examples.sos_built)
    by (vm_compute; reflexivity).
  assert (H2 : length [20; 30; 10] = length Examples.sos_weights_sorted)
    by reflexivity.
  assert (H3 : Permutation
                 (combine Examples.sos_weights_sorted [20; 30; 10])
                 (combine Examples.sos_weights Examples.sos_vars)).
  { simpl. apply Permutation_sym.
    exact (Permutation_cons_append [_; _] _). }
  exact (conj H1 (conj H2 (conj H3
           (X1_sos_order_independent 2 Examples.sos_vars [20; 30; 10]
              Examples.sos_weights Examples.sos_weights_sorted
              SOS.default_SOSExtraInfo Examples.sos_built H1 H2 H3)))).
Defined.

Lemma X2_sos_rebuild_identity_witness :
  SOS.make 2 Examples.sos_vars Examples.sos_weights
           SOS.default_SOSExtraInfo = Ok Examples.sos_built
  /\ SOS.make 2 [20; 30; 10] Examples.sos_weights_sorted
              SOS.default_SOSExtraInfo = Ok Examples.sos_built.
Proof.
  assert (H1 : SOS.make 2 Examples.sos_vars Examples.sos_weights
                        SOS.default_SOSExtraInfo = Ok Examples.sos_built)
    by (vm_compute; reflexivity).
  exact (conj H1
           (X2_sos_rebuild_identity 2 Examples.sos_vars
              Examples.sos_weights SOS.default_SOSExtraInfo
              Examples.sos_built H1)).
Defined.

Lemma X3_sos_fewer_weights_out_of_range_witness :
  (length [d_one] < length Examples.sos_vars)%nat
  /\ SOS.make 2 Examples.sos_vars [d_one] SOS.default_SOSExtraInfo
     = Throw OutOfRange.
Proof.
  assert (H : (length [d_one] < length Examples.sos_vars)%nat)
    by (simpl; lia).
  exact (conj H
           (X3_sos_fewer_weights_out_of_range 2 Examples.sos_vars [d_one]
              SOS.default_SOSExtraInfo H)).
Defined.

Lemma X4_sos_extra_weights_ignored_witness :
  (length [10; 20] <= length Examples.sos_weights)%nat
  /\ SOS.make 2 [10; 20] Examples.sos_weights SOS.default_SOSExtraInfo
     = SOS.make 2 [10; 20] (firstn 2 Examples.sos_weights)
                SOS.default_SOSExtraInfo
  /\ SOS.make 2 [10; 20] Examples.sos_weights SOS.default_SOSExtraInfo
     <> Throw OutOfRange.
Proof.
  assert (H : (length [10; 20] <= length Examples.sos_weights)%nat)
    by (simpl; lia).
  exact (conj H
           (X4_sos_extra_weights_ignored 2 [10; 20] Examples.sos_weights
              SOS.default_SOSExtraInfo H)).
Defined.

Lemma X5_sos_constructible_iff_witness :
  (2 = 1 \/ 2 = 2)
  /\ length Examples.sos_vars = length Examples.sos_weights
  /\ ((exists c, SOS.make 2 Examples.sos_vars Examples.sos_weights
                   SOS.default_SOSExtraInfo = Ok c)
      <-> pairwise_ordered Examples.sos_weights).
Proof.
  assert (H1 : 2 = 1 \/ 2 = 2) by (right; reflexivity).
  assert (H2 : length Examples.sos_vars = length Examples.sos_weights)
    by reflexivity.
  exact (conj H1 (conj H2
           (X5_sos_constructible_iff 2 Examples.sos_vars
              Examples.sos_weights SOS.default_SOSExtraInfo H1 H2))).
Defined.

Lemma X6_init_expression_round_trip_witness :
  0 <= 2
  /\ exists s',
       AddInitExpression 2 {| ci_keeper := MaxConstraint; ci_index := 0 |}
         Examples.s_vars = (Ok tt, s')
       /\ HasInitExpression s' 2 = true
       /\ GetInitExpression 2 s'
          = (Ok {| ci_keeper := MaxConstraint; ci_index := 0 |}, s')
       /\ (forall v', 0 <= v' -> v' <> 2 ->
             HasInitExpression s' v' = HasInitExpression Examples.s_vars v'
             /\ fst (GetInitExpression v' s')
                = fst (GetInitExpression v' Examples.s_vars))
       /\ Z.of_nat (length (var_info_ s'))
          = Z.max (Z.of_nat (length (var_info_ Examples.s_vars))) (2 + 1).
Proof.
  assert (H : 0 <= 2) by lia.
  exact (conj H
           (X6_init_expression_round_trip _ Examples.s_vars 2
              {| ci_keeper := MaxConstraint; ci_index := 0 |} H)).
Defined.

Lemma init_ok_s_vars : init_ok Examples.s_vars.
Proof.
  unfold Examples.s_vars.
  apply (preserves_bind (kept init_ok) (kept_trans init_ok));
    [|intros _;
      apply (preserves_bind (kept init_ok) (kept_trans init_ok));
      [|intros _]| apply init_ok_empty];
    apply (kept_AddVar init_ok); auto.
Qed.

Lemma map_ok_s_vars : map_ok Examples.s_vars.
Proof.
  unfold Examples.s_vars.
  apply (preserves_bind (kept map_ok) (kept_trans map_ok));
    [|intros _;
      apply (preserves_bind (kept map_ok) (kept_trans map_ok));
      [|intros _]| apply map_ok_empty];
    apply (kept_AddVar map_ok); auto.
Qed.

Lemma init_ok_s_max : init_ok Examples.s_max.
Proof.
  unfold Examples.s_max.
  apply (kept_AddConstraint Examples.cfg init_ok); auto.
  - intros. apply init_ok_store. assumption.
  - apply init_ok_s_vars.
Qed.

Lemma map_ok_s_max : map_ok Examples.s_max.
Proof.
  unfold Examples.s_max.
  apply (kept_AddConstraint Examples.cfg map_ok); auto.
  - intros. apply map_ok_store. assumption.
  - apply map_ok_s_vars.
Qed.

Lemma X8_init_expressions_stay_valid_witness :
  init_ok Examples.s_max
  /\ init_ok (snd (FinishModelInput Examples.cfg 5 Examples.s_max))
  /\ exists c,
       GetConstraint MaxConstraint 0 Examples.s_max = (Ok c, Examples.s_max)
       /\ result_var c = 2.
Proof.
  pose (T := X8_init_expressions_stay_valid _ Examples.cfg Examples.s_max
               init_ok_s_max).
  refine (conj init_ok_s_max (conj _ _)).
  - exact (proj1 (proj2 (proj2 (proj2 (proj2 (proj2 T))))) 5%nat).
  - exact (proj2 (proj2 (proj2 (proj2 (proj2 (proj2 T))))) 2
             {| ci_keeper := MaxConstraint; ci_index := 0 |} eq_refl).
Defined.

Lemma X9_map_hits_are_stored_witness :
  map_ok Examples.s_max
  /\ map_ok (snd (FinishModelInput Examples.cfg 5 Examples.s_max))
  /\ MapFind Examples.cfg MaxConstraint Examples.max_con Examples.s_max
     = (Ok 0, Examples.s_max)
  /\ exists c,
       GetConstraint MaxConstraint 0 Examples.s_max
       = (Ok c, Examples.s_max)
       /\ body_eqb Examples.cfg (body c) (body Examples.max_con) = true.
Proof.
  pose (T := X9_map_hits_are_stored _ Examples.cfg Examples.s_max
               map_ok_s_max).
  refine (conj map_ok_s_max (conj _ (conj eq_refl _))).
  - exact (proj1 (proj2 (proj2 (proj2 T))) 5%nat).
  - exact (proj2 (proj2 (proj2 (proj2 T))) MaxConstraint Examples.max_con 0
             eq_refl (Z.le_refl 0)).
Defined.

Lemma X10_map_insert_find_round_trip_witness :
  is_mapped MaxConstraint = true
  /\ body_eqb Examples.cfg (body Examples.max_con) (body Examples.max_con)
     = true
  /\ exists b s1,
       MapInsert Examples.cfg MaxConstraint Examples.max_con 0
         Examples.s_vars = (Ok b, s1)
       /\ (b = true ->
           MapFind Examples.cfg MaxConstraint Examples.max_con
             Examples.s_vars = (Ok (-1), Examples.s_vars)
           /\ MapFind Examples.cfg MaxConstraint Examples.max_con s1
              = (Ok 0, s1)
           /\ forall j, MapInsert Examples.cfg MaxConstraint
                          Examples.max_con j s1 = (Ok false, s1))
       /\ (b = false -> s1 = Examples.s_vars)
       /\ (forall t', t' <> MaxConstraint ->
                      con_maps s1 t' = con_maps Examples.s_vars t').
Proof.
  assert (H1 : is_mapped MaxConstraint = true) by reflexivity.
  assert (H2 : body_eqb Examples.cfg (body Examples.max_con)
                 (body Examples.max_con) = true) by reflexivity.
  exact (conj H1 (conj H2
           (X10_map_insert_find_round_trip _ Examples.cfg Examples.s_vars
              MaxConstraint Examples.max_con 0 H1 H2))).
Defined.

Lemma X11_redefine_variable_witness :
  exists s',
    RedefineVariable Examples.cfg MaxConstraint 2
      {| body := [1; 0]; result_var := -1; context := CTX_NONE |}
      Examples.s_max = (Ok tt, s')
    /\ HasInitExpression Examples.s_max 2 = true
    /\ 0 <= 2
    /\ GetInitExpression 2 s'
       = (Ok {| ci_keeper := MaxConstraint; ci_index := 1 |}, s')
    /\ zth (keepers s' MaxConstraint) 1
       = Some {| con_ := {| body := [1; 0]; result_var := 2;
                            context := CTX_NONE |};
                 is_converted := false |}
    /\ zth (keepers s' MaxConstraint) 0
       = Some {| con_ := Examples.max_con; is_converted := false |}.
Proof.
  pose (fc := {| body := [1; 0]; result_var := -1; context := CTX_NONE |}
              : Constraint (list Z)).
  exists (snd (RedefineVariable Examples.cfg MaxConstraint 2 fc
                 Examples.s_max)).
  assert (H : RedefineVariable Examples.cfg MaxConstraint 2 fc
                Examples.s_max
              = (Ok tt, snd (RedefineVariable Examples.cfg MaxConstraint 2
                               fc Examples.s_max)))
    by (vm_compute; reflexivity).
  pose (T := proj2 (X11_redefine_variable _ Examples.cfg Examples.s_max
                      MaxConstraint 2 fc) _ H).
  refine (conj H (conj (proj1 T) (conj (proj1 (proj2 T))
            (conj (proj1 (proj2 (proj2 T)))
               (conj (proj1 (proj2 (proj2 (proj2 T)))) _))))).
  exact (proj1 (proj2 (proj2 (proj2 (proj2 T)))) MaxConstraint 0 _ eq_refl).
Defined.

Lemma X13_narrow_idempotent_witness :
  exists r s',
    NarrowVarBounds 0 d_one Examples.d_three Examples.s_vars = (r, s')
    /\ NarrowVarBounds 0 d_one Examples.d_three s' = (r, s').
Proof.
  exists (fst (NarrowVarBounds 0 d_one Examples.d_three Examples.s_vars)),
         (snd (NarrowVarBounds 0 d_one Examples.d_three Examples.s_vars)).
  assert (H : NarrowVarBounds 0 d_one Examples.d_three Examples.s_vars
              = (fst (NarrowVarBounds 0 d_one Examples.d_three
                        Examples.s_vars),
                 snd (NarrowVarBounds 0 d_one Examples.d_three
                        Examples.s_vars)))
    by (vm_compute; reflexivity).
  exact (conj H (X13_narrow_idempotent _ _ _ _ _ _ _ H)).
Defined.

Lemma X14_empty_domain_is_permanent_witness :
  zth (vars MoreExamples.s_infeasible) 0
  = Some {| v_lb := d_of_Z 7; v_ub := Examples.d_five;
            v_type := CONTINUOUS |}
  /\ dgt (d_of_Z 7) Examples.d_five = true
  /\ fst (NarrowVarBounds 0 d_minus_inf d_inf MoreExamples.s_infeasible)
     = Throw (Infeasibility msg_empty_domain).
Proof.
  assert (H1 : zth (vars MoreExamples.s_infeasible) 0
               = Some {| v_lb := d_of_Z 7; v_ub := Examples.d_five;
                         v_type := CONTINUOUS |})
    by (vm_compute; reflexivity).
  assert (H2 : dgt (d_of_Z 7) Examples.d_five = true)
    by (vm_compute; reflexivity).
  exact (conj H1 (conj H2
           (proj1 (X14_empty_domain_is_permanent _
                     MoreExamples.s_infeasible 0 _ d_minus_inf d_inf
                     H1 H2)))).
Defined.

Lemma X15_narrow_with_nan_witness :
  zth (vars Examples.s_vars) 0
  = Some {| v_lb := d_zero; v_ub := Examples.d_five;
            v_type := CONTINUOUS |}
  /\ exists a',
       zth (vars (snd (NarrowVarBounds 0 S754_nan S754_nan
                         Examples.s_vars))) 0 = Some a'
       /\ v_lb a' = d_zero /\ v_ub a' = Examples.d_five.
Proof.
  assert (H1 : zth (vars Examples.s_vars) 0
               = Some {| v_lb := d_zero; v_ub := Examples.d_five;
                         v_type := CONTINUOUS |})
    by (vm_compute; reflexivity).
  destruct (X15_narrow_with_nan _ Examples.s_vars 0 _ S754_nan S754_nan H1)
    as (a' & Ha & Hl & Hu & _).
  exact (conj H1 (ex_intro _ a' (conj Ha (conj (Hl eq_refl) (Hu eq_refl))))).
Defined.

Lemma X16_fix_as_true_witness :
  zth (vars Examples.s_max) 2
  = Some {| v_lb := d_minus_inf; v_ub := d_inf; v_type := CONTINUOUS |}
  /\ forall prop,
       FixAsTrue prop 2 Examples.s_max
       = prop MaxConstraint 0 d_one d_one CTX_POS
           (set_vars Examples.s_max
              (zupd (vars Examples.s_max) 2 (fun _ =>
                 {| v_lb := d_one; v_ub := d_one;
                    v_type := CONTINUOUS |}))).
Proof.
  assert (H1 : zth (vars Examples.s_max) 2
               = Some {| v_lb := d_minus_inf; v_ub := d_inf;
                         v_type := CONTINUOUS |})
    by (vm_compute; reflexivity).
  exact (conj H1
           (proj2 (X16_fix_as_true _ Examples.s_max 2 _ H1)
                  eq_refl eq_refl)).
Defined.

Lemma X17_set_var_lb_context_witness :
  zth (vars Examples.s_max) 2
  = Some {| v_lb := d_minus_inf; v_ub := d_inf; v_type := CONTINUOUS |}
  /\ forall prop ctx,
       set_var_lb_context prop 2 Examples.d_three ctx Examples.s_max
       = prop MaxConstraint 0 Examples.d_three d_inf ctx
           (set_vars Examples.s_max
              (zupd (vars Examples.s_max) 2 (fun _ =>
                 {| v_lb := Examples.d_three; v_ub := d_inf;
                    v_type := CONTINUOUS |}))).
Proof.
  assert (H1 : zth (vars Examples.s_max) 2
               = Some {| v_lb := d_minus_inf; v_ub := d_inf;
                         v_type := CONTINUOUS |})
    by (vm_compute; reflexivity).
  exact (conj H1
           (proj2 (X17_set_var_lb_context _ Examples.s_max 2 _
                     Examples.d_three H1))).
Defined.


Lemma X21_run_solution_writer_witness :
  In (SolverApp.Solved (SolverApp.AppSolutionWriter "model" 8)
        [{| SolverApp.sol_status := 200;
            SolverApp.sol_message := "infeasible problem" |}])
     (snd (SolverApp.Run Examples.app Examples.argv))
  /\ SolverApp.wantsol Examples.app <> 0
  /\ 8%nat
     = (if SolverApp.has_output Examples.app || SolverApp.timing Examples.app
        then 0%nat else String.length "solver: ")
  /\ exists time,
       snd (SolverApp.Run Examples.app Examples.argv)
       = [SolverApp.Stdout "solver: "; SolverApp.ReadFile "model.nl";
          SolverApp.EndBuild]
         ++ time
         ++ [SolverApp.Solved (SolverApp.AppSolutionWriter "model" 8)
               [{| SolverApp.sol_status := 200;
                   SolverApp.sol_message := "infeasible problem" |}]]
       /\ ((SolverApp.timing Examples.app = false /\ time = [])
           \/ (SolverApp.timing Examples.app = true
               /\ time = [SolverApp.Stdout EmptyString]
               /\ 8%nat = 0%nat)).
Proof.
  assert (H : In (SolverApp.Solved (SolverApp.AppSolutionWriter "model" 8)
                    [{| SolverApp.sol_status := 200;
                        SolverApp.sol_message := "infeasible problem" |}])
                 (snd (SolverApp.Run Examples.app Examples.argv))).
  { vm_compute. right. right. right. left. reflexivity. }
  exact (conj H
           (X21_run_solution_writer Examples.app Examples.argv "model" 8
              _ H)).
Defined.

Lemma X23_parse_rejects_trailing_characters_witness :
  MoreExamples.parse_digits 0 "3x 7" = (3, 1%nat)
  /\ (1 <= String.length "3x 7")%nat
  /\ exists junk rest,
       Options.advance 1 "3x 7" = (junk ++ rest)%string
       /\ junk <> EmptyString
       /\ (forall c, In c (list_ascii_of_string junk) ->
                     c <> zero /\ Options.isspace c = false)
       /\ Options.in_token rest = false
       /\ Options.Parse (MoreExamples.parse_digits 0) Options.SetWantSol
            "wantsol" "3x 7" MoreExamples.solver
          = (Options.Throws
               (Options.InvalidOptionValue
                  (Options.Format "wantsol"
                     (substring 0 1 "3x 7" ++ junk))),
             (1 + String.length junk)%nat)
       /\ Options.advance (1 + String.length junk) "3x 7" = rest.
Proof.
  assert (H1 : MoreExamples.parse_digits 0 "3x 7" = (3, 1%nat))
    by reflexivity.
  assert (H2 : (1 <= String.length "3x 7")%nat) by (simpl; lia).
  exact (conj H1 (conj H2
           (proj2 (X23_parse_rejects_trailing_characters _ _
                     (MoreExamples.parse_digits 0) Options.SetWantSol
                     "wantsol" "3x 7" MoreExamples.solver 3 1 H1 H2)
                  eq_refl))).
Defined.

Lemma X25_solution_writer_numbers_solutions_witness :
  Z.of_nat (length MoreExamples.two_solutions) <= Options.INT_MAX
  /\ exists w,
       Options.feasible_solutions (-1) MoreExamples.solver 2 0
         (Options.make_SolutionWriter "model" []) MoreExamples.two_solutions
       = (w,
          [Options.Write "run1.sol"
             (Options.feasible_adapter (-1) 2 0 "first"
                (Some [d_one; d_zero]) None);
           Options.Write "run2.sol"
             (Options.feasible_adapter (-1) 2 0 "second"
                (Some [d_zero; d_one]) None)])
       /\ forall st msg vals duals,
            Options.HandleSolution MoreExamples.solver 2 0 w st msg
              vals duals
            = [Options.SetNsol 2;
               Options.Write "model.sol"
                 {| Options.status := st; Options.has_builder := true;
                    Options.message := msg; Options.sol_options := [];
                    Options.values := Options.MakeArrayRef vals 2;
                    Options.dual_values := Options.MakeArrayRef duals 0 |}].
Proof.
  assert (H : Z.of_nat (length MoreExamples.two_solutions)
              <= Options.INT_MAX)
    by (vm_compute; discriminate).
  destruct (X25_solution_writer_numbers_solutions (-1) MoreExamples.solver
              2 0 "model" [] MoreExamples.two_solutions H)
    as (w & E & _ & F).
  exact (conj H (ex_intro _ w (conj E F))).
Defined.

Lemma X26_add_constraint_stores_witness :
  AddConstraint Examples.cfg MaxConstraint Examples.max_con Examples.s_vars
  = (Ok (SelectValueNodeRange MaxConstraint 0), Examples.s_max)
  /\ GetConstraint MaxConstraint 0 Examples.s_max
     = (Ok Examples.max_con, Examples.s_max)
  /\ GetInitExpression 2 Examples.s_max
     = (Ok {| ci_keeper := MaxConstraint; ci_index := 0 |}, Examples.s_max)
  /\ MapFind Examples.cfg MaxConstraint Examples.max_con Examples.s_max
     = (Ok 0, Examples.s_max).
Proof.
  assert (H : AddConstraint Examples.cfg MaxConstraint Examples.max_con
                Examples.s_vars
              = (Ok (SelectValueNodeRange MaxConstraint 0), Examples.s_max))
    by (vm_compute; reflexivity).
  pose (T := X26_add_constraint_stores _ Examples.cfg Examples.s_vars
               Examples.s_max MaxConstraint Examples.max_con _ H).
  refine (conj H (conj (proj1 (proj2 (proj2 T))) (conj _ _))).
  - exact (proj1 (proj2 (proj2 (proj2 (proj2 (proj2 (proj2 T))))))
             ltac:(vm_compute; discriminate)).
  - exact (proj2 (proj2 (proj2 (proj2 (proj2 (proj2 (proj2 (proj2 T)))))))
             eq_refl eq_refl).
Defined.

